(** * alt-core-js: the scenario execution engine

    A shallow embedding of the action variants of alt-core-js (REST, MQTT
    subscribe, MQTT publish, WebSocket) and of the scenario runner of
    [index.ts], with the properties of the engine's specification stated
    and settled against it.

    Conventions of the embedding:
    - a JS promise is a three-valued cell; [resolve] and [reject] only act
      on a pending cell, as the first settlement of a JS promise wins;
    - an event emitter ([client.on], [wsInstance.on]) is a handler function
      per event kind, and an invocation is a left fold of the handlers over
      the sequence of events the library delivers;
    - a JS object used as a dictionary is an association list in insertion
      order with unique keys; the scenario cache (a JS [Map]) is a [gmap];
    - of the logger, the lines at error level are kept; the diagram
      collaborator is the list of what it is told;
    - expression evaluation ([eval], [vm.runInNewContext]), [JSON.parse],
      the protobuf codec and the variable injection helpers are operations
      of a type class: evaluation that throws is [None]. *)

From Stdlib Require Import ZArith List String Bool Lia.
From stdpp Require Import base option strings pretty gmap.
Import ListNotations.

Local Open Scope string_scope.
Local Open Scope Z_scope.
Local Open Scope list_scope.

(** ** JavaScript values *)

#[local] Unset Elimination Schemes.

Inductive JsValue : Type :=
| JUndefined
| JNull
| JBool (b : bool)
| JNum (n : Z)
| JStr (s : string)
| JBuffer (bytes : list Byte.byte)
| JStream (path : string)
| JObject (fields : list (string * JsValue))
| JArray (items : list JsValue).

#[local] Set Elimination Schemes.

(** [!!v]: the falsy values are [undefined], [null], [false], [0] and the
    empty string. *)
Definition truthy (v : JsValue) : bool :=
  match v with
  | JUndefined | JNull => false
  | JBool b => b
  | JNum n => negb (Z.eqb n 0)
  | JStr s => negb (String.eqb s "")
  | JBuffer _ | JStream _ | JObject _ | JArray _ => true
  end.

Definition is_undefined (v : JsValue) : bool :=
  match v with JUndefined => true | _ => false end.

(** ** Objects as dictionaries *)

Definition JsObj (V : Type) : Type := list (string * V).

Fixpoint obj_get {V} (k : string) (o : JsObj V) : option V :=
  match o with
  | [] => None
  | (k', v) :: o' => if String.eqb k k' then Some v else obj_get k o'
  end.

(** [o[k] = v]: an existing key keeps its place, a new key goes last. *)
Fixpoint obj_set {V} (k : string) (v : V) (o : JsObj V) : JsObj V :=
  match o with
  | [] => [(k, v)]
  | (k', v') :: o' =>
      if String.eqb k k' then (k, v) :: o' else (k', v') :: obj_set k v o'
  end.

(** [{ ...a, ...b }] on two present objects. *)
Definition obj_assign {V} (a b : JsObj V) : JsObj V :=
  fold_left (fun acc kv => obj_set (fst kv) (snd kv) acc) b a.

(** Spreading [undefined] or [null] contributes no key. *)
Definition spread {V} (o : option (JsObj V)) : JsObj V :=
  match o with Some x => x | None => [] end.

(** ** Promises *)

Inductive Promise : Type := Pending | Resolved | Rejected.

Definition resolve (p : Promise) : Promise :=
  match p with Pending => Resolved | _ => p end.

Definition reject (p : Promise) : Promise :=
  match p with Pending => Rejected | _ => p end.

(** A dictionary of strings as a value, and an optional one. *)
Definition objValue (o : JsObj string) : JsValue :=
  JObject (map (fun kv => (fst kv, JStr (snd kv))) o).

Definition optValue (o : option (JsObj string)) : JsValue :=
  match o with Some x => objValue x | None => JUndefined end.

(** ** The engine and the helpers the actions call *)

(** The bindings of [res] and [head] where [eval] runs: [None] is an
    identifier that is not bound there, [Some JUndefined] one bound to
    [undefined]. *)
Record Scope : Type := {
  scope_res : option JsValue;
  scope_head : option JsValue
}.

Class JsEngine : Type := {
  (** [vm.runInNewContext(code, { msg })] *)
  runInNewContext : string -> JsValue -> option JsValue;
  (** [eval(code)] where [res] and [head] are bound as the scope says *)
  js_eval : string -> Scope -> option JsValue;
  JSON_parse : string -> option JsValue;
  JSON_stringify : JsValue -> string;
  (** [stringify] of the querystring module *)
  querystring_stringify : JsValue -> string;
  Buffer_toString : list Byte.byte -> string;
  Buffer_from : string -> option string -> list Byte.byte;
  (** [decodeProto(protoFile, protoClass, buffer)] and
      [encodeProto(protoFile, attributes, protoClass)] of protoParsing.ts,
      which wrap the protobufjs library *)
  decodeProto : string -> string -> list Byte.byte -> option JsValue;
  encodeProto : string -> JsValue -> string -> option (list Byte.byte);
  readFileSync : string -> option (list Byte.byte);
  (** [connect(url, options)] of the mqtt library and [new WebSocket(address)]
      of the ws library: [None] when the call throws, as both do on an
      address they cannot read *)
  Mqtt_connect : string -> option unit;
  new_WebSocket : string -> option unit
}.

(** The helpers of variableInjection.ts; the first two resolve against the
    scenario cache. *)
Class VariableInjection : Type := {
  injectEvalAndVarsToString : string -> gmap string JsValue -> option string;
  injectEvalAndVarsToMap : JsValue -> gmap string JsValue -> option JsValue;
  injectEvaluationToMap : JsValue -> option JsValue
}.

(** A scenario, as the actions see it: its name and its variable cache. *)
Record Scenario : Type := {
  scenario_name : string;
  scenario_cache : gmap string JsValue
}.

(** ** Message filters

    [isMessageRelevant], the closure that MqttAction.ts and the WebSocket
    action both define inside [invokeAsync], with the same body. *)

Section MessageFilter.

Context `{JsEngine} `{VariableInjection}.

Variable scenario : Scenario.

(** One filter: it is expanded against the cache, evaluated with [msg]
    bound, and coerced with [!!]. *)
Definition evalFilter (msg : JsValue) (filter : string) : option bool :=
  expandedFilter ← injectEvalAndVarsToString filter (scenario_cache scenario);
  truthy <$> runInNewContext expandedFilter msg.

(** [Array.prototype.some]: stops at the first truthy filter; a filter that
    throws ends the iteration with its exception. *)
Fixpoint some (msg : JsValue) (filters : list string) : option bool :=
  match filters with
  | [] => Some false
  | filter :: rest =>
      match evalFilter msg filter with
      | None => None
      | Some true => Some true
      | Some false => some msg rest
      end
  end.

(** [if (registeredMessageFilters)] holds for every array, the empty one
    included; [None] is a filter list that is not configured. *)
Definition isMessageRelevant (registeredMessageFilters : option (list string))
    (msg : JsValue) : option bool :=
  match registeredMessageFilters with
  | Some filters => some msg filters
  | None => Some true
  end.

End MessageFilter.

(** The quotation mark of a JSON text. *)
Definition doubleQuote : string := String (Ascii.ascii_of_nat 34) "".

(** ** Fixtures

    An engine that knows the few texts and expressions of the examples, with
    the values JavaScript gives them on an empty object, and throws on
    everything else; injection leaves strings and values as they are. *)
Definition fixtureEngine : JsEngine :=
  {| runInNewContext := fun code msg =>
       if String.eqb code "true" then Some (JBool true)
       else if String.eqb code "false" then Some (JBool false)
       else None;
     js_eval := fun code scope =>
       if String.eqb code "res" then scope_res scope
       else if String.eqb code "res.code === undefined"
       then (fun _ => JBool true) <$> scope_res scope
       else if String.eqb code "res.code === 200"
       then (fun _ => JBool false) <$> scope_res scope
       else None;
     JSON_parse := fun text =>
       if String.eqb text "{}" then Some (JObject [])
       else if String.eqb text
                 (String.append "{"
                    (String.append doubleQuote
                       (String.append "payload"
                          (String.append doubleQuote ":1}"))))
       then Some (JObject [("payload", JNum 1)])
       else None;
     JSON_stringify := fun v =>
       match v with
       | JNum 1 => "1"
       | JObject [] => "{}"
       | JUndefined => "undefined"
       | _ => "null"
       end;
     querystring_stringify := fun _ => "";
     Buffer_toString := fun _ => "";
     Buffer_from := fun _ _ => [];
     decodeProto := fun _ _ _ => None;
     encodeProto := fun _ _ _ => None;
     readFileSync := fun _ => None;
     Mqtt_connect := fun url =>
       if String.prefix "mqtt://" url then Some tt else None;
     new_WebSocket := fun address =>
       if String.prefix "ws://" address then Some tt else None |}.

Definition fixtureInjection : VariableInjection :=
  {| injectEvalAndVarsToString := fun s _ => Some s;
     injectEvalAndVarsToMap := fun v _ => Some v;
     injectEvaluationToMap := fun v => Some v |}.

Definition fixtureScenario : Scenario :=
  {| scenario_name := "s1"; scenario_cache := ∅ |}.

(** * MQTT subscribe: model/MqttAction.ts *)

Module Mqtt.

Record MqttAction : Type := {
  name : string;
  description : string;
  invokeEvenOnFail : bool;
  allowFailure : bool;
  allowInsecure : bool;
  url : string;
  username : option string;
  password : option string;
  topic : string;
  durationInSec : Z;
  expectedNumberOfMessages : Z;
  numberOfReceivedMessages : Z;
  messageType : option string;
  messageFilter : option (list string);
  messageEncoding : option string;
  protoFile : string;
  protoClass : string
}.

(** [this.numberOfReceivedMessages++] *)
Definition incrementReceived (a : MqttAction) : MqttAction :=
  {| name := name a; description := description a;
     invokeEvenOnFail := invokeEvenOnFail a; allowFailure := allowFailure a;
     allowInsecure := allowInsecure a; url := url a; username := username a;
     password := password a; topic := topic a;
     durationInSec := durationInSec a;
     expectedNumberOfMessages := expectedNumberOfMessages a;
     numberOfReceivedMessages := numberOfReceivedMessages a + 1;
     messageType := messageType a; messageFilter := messageFilter a;
     messageEncoding := messageEncoding a; protoFile := protoFile a;
     protoClass := protoClass a |}.

(** The configuration of an action: every field but the counter. *)
Definition configuration (a : MqttAction) : MqttAction :=
  {| name := name a; description := description a;
     invokeEvenOnFail := invokeEvenOnFail a; allowFailure := allowFailure a;
     allowInsecure := allowInsecure a; url := url a; username := username a;
     password := password a; topic := topic a;
     durationInSec := durationInSec a;
     expectedNumberOfMessages := expectedNumberOfMessages a;
     numberOfReceivedMessages := 0;
     messageType := messageType a; messageFilter := messageFilter a;
     messageEncoding := messageEncoding a; protoFile := protoFile a;
     protoClass := protoClass a |}.

Inductive RawMessage : Type :=
| FromBuffer (bytes : list Byte.byte)
| FromString (s : string).

(** What the diagram collaborator is told. *)
Inductive DiagramEntry : Type :=
| MissingMQTTMessage (topic : string) (expected received : Z) (reason : string)
| MqttMessage (topic : string) (msg : JsValue).

(** Error-level log lines. *)
Inductive ErrorLog : Type :=
| SubscribeFailed (topic error : string)
| UnexpectedNumber (received expected : Z)
| ConnectionFailed (error : string).

(** The events the mqtt client delivers to the handlers of [invokeAsync];
    [Timeout] is the timer armed in the connect handler. *)
Inductive Event : Type :=
| Connect
| SubscribeCallback (error : option string)
| Message (message : RawMessage)
| Reconnect
| Timeout
| Close
| ConnectionError (error : string).

(** One invocation: the action object the handlers close over ([this]), the
    promise of [invoke], and what the invocation has done to its client. *)
Record Invocation : Type := {
  this : MqttAction;
  promise : Promise;
  client : bool;
  resolvedTopic : string;
  subscriptions : list string;
  timers : list Z;
  ended : bool;
  diagram : list DiagramEntry;
  errors : list ErrorLog
}.

Definition withThis (a : MqttAction) (i : Invocation) : Invocation :=
  {| this := a; promise := promise i; client := client i;
     resolvedTopic := resolvedTopic i; subscriptions := subscriptions i;
     timers := timers i; ended := ended i; diagram := diagram i;
     errors := errors i |}.

Definition withPromise (p : Promise) (i : Invocation) : Invocation :=
  {| this := this i; promise := p; client := client i;
     resolvedTopic := resolvedTopic i; subscriptions := subscriptions i;
     timers := timers i; ended := ended i; diagram := diagram i;
     errors := errors i |}.

Definition record (d : DiagramEntry) (i : Invocation) : Invocation :=
  {| this := this i; promise := promise i; client := client i;
     resolvedTopic := resolvedTopic i; subscriptions := subscriptions i;
     timers := timers i; ended := ended i; diagram := diagram i ++ [d];
     errors := errors i |}.

Definition logError (e : ErrorLog) (i : Invocation) : Invocation :=
  {| this := this i; promise := promise i; client := client i;
     resolvedTopic := resolvedTopic i; subscriptions := subscriptions i;
     timers := timers i; ended := ended i; diagram := diagram i;
     errors := errors i ++ [e] |}.

Definition missing (reason : string) (i : Invocation) : DiagramEntry :=
  MissingMQTTMessage (topic (this i)) (expectedNumberOfMessages (this i))
    (numberOfReceivedMessages (this i)) reason.

Section Handlers.

Context `{JsEngine} `{VariableInjection}.

Variable scenario : Scenario.

Definition decodeProtoPayload (a : MqttAction) (buffer : list Byte.byte)
    : option JsValue :=
  decodeProto (protoFile a) (protoClass a) buffer.

Definition rawToString (m : RawMessage) : string :=
  match m with FromBuffer b => Buffer_toString b | FromString s => s end.

(** The decoding step of the message handler; [this.messageType || 'json']
    is json for a missing or empty type, and any other type than json and
    proto leaves [msgObj = {}]. *)
Definition decodeMessage (a : MqttAction) (message : RawMessage)
    : option JsValue :=
  let messageType :=
    match messageType a with
    | Some t => if String.eqb t "" then "json" else t
    | None => "json"
    end in
  if String.eqb messageType "json" then JSON_parse (rawToString message)
  else if String.eqb messageType "proto" then
    match message with
    | FromBuffer b => decodeProtoPayload a b
    | FromString s => decodeProtoPayload a (Buffer_from s (messageEncoding a))
    end
  else Some (JObject []).

Definition expandParameters (a : MqttAction)
    : option (string * option string * option string) :=
  let cache := scenario_cache scenario in
  topic ← injectEvalAndVarsToString (topic a) cache;
  username ← match username a with
             | Some u => Some <$> injectEvalAndVarsToString u cache
             | None => Some None
             end;
  password ← match password a with
             | Some p => Some <$> injectEvalAndVarsToString p cache
             | None => Some None
             end;
  Some (topic, username, password).

(** [invoke]: the executor of the promise runs [invokeAsync], which expands
    the parameters and connects; an exception in the executor rejects the
    promise and leaves no client behind. *)
Definition invoke (a : MqttAction) : Invocation :=
  let thrown :=
    {| this := a; promise := Rejected; client := false;
       resolvedTopic := ""; subscriptions := []; timers := [];
       ended := false; diagram := []; errors := [] |} in
  match expandParameters a with
  | Some (topic, _, _) =>
      match Mqtt_connect (url a) with
      | Some _ =>
          {| this := a; promise := Pending; client := true;
             resolvedTopic := topic; subscriptions := []; timers := [];
             ended := false; diagram := []; errors := [] |}
      | None => thrown
      end
  | None => thrown
  end.

Definition onConnect (i : Invocation) : Invocation :=
  {| this := this i; promise := promise i; client := client i;
     resolvedTopic := resolvedTopic i;
     subscriptions := subscriptions i ++ [resolvedTopic i];
     timers := timers i ++ [durationInSec (this i) * 1000];
     ended := ended i; diagram := diagram i; errors := errors i |}.

Definition onSubscribeCallback (error : option string) (i : Invocation)
    : Invocation :=
  match error with
  | Some e =>
      withPromise (reject (promise i))
        (record (missing e i) (logError (SubscribeFailed (resolvedTopic i) e) i))
  | None => i
  end.

(** The message handler; [None] when decoding or a filter throws, which
    leaves the handler before anything is counted. *)
Definition onMessage (message : RawMessage) (i : Invocation)
    : option Invocation :=
  msgObj ← decodeMessage (this i) message;
  relevant ← isMessageRelevant scenario (messageFilter (this i)) msgObj;
  if (relevant : bool) then
    Some (record (MqttMessage (resolvedTopic i) msgObj)
            (withThis (incrementReceived (this i)) i))
  else Some i.

Definition onTimeout (i : Invocation) : Invocation :=
  {| this := this i; promise := promise i; client := client i;
     resolvedTopic := resolvedTopic i; subscriptions := subscriptions i;
     timers := timers i; ended := true; diagram := diagram i;
     errors := errors i |}.

(** The text of the close handler when the counts differ. *)
Definition unexpectedNumberText (received expected : Z) : string :=
  String.append "Unexpected number of MQTT messages received: "
    (String.append (pretty received)
       (String.append " (expected: " (String.append (pretty expected) ")"))).

Definition onClose (i : Invocation) : Invocation :=
  let received := numberOfReceivedMessages (this i) in
  let expected := expectedNumberOfMessages (this i) in
  if negb (Z.eqb received expected) then
    withPromise (reject (promise i))
      (logError (UnexpectedNumber received expected)
         (record (missing (unexpectedNumberText received expected) i) i))
  else withPromise (resolve (promise i)) i.

Definition onError (error : string) (i : Invocation) : Invocation :=
  withPromise (reject (promise i))
    (logError (ConnectionFailed error) (record (missing error i) i)).

(** Dispatch of one event; without a client there is no emitter. *)
Definition handle (i : Invocation) (e : Event) : Invocation :=
  if client i then
    match e with
    | Connect => onConnect i
    | SubscribeCallback error => onSubscribeCallback error i
    | Message message => default i (onMessage message i)
    | Reconnect => i
    | Timeout => onTimeout i
    | Close => onClose i
    | ConnectionError error => onError error i
    end
  else i.

Definition run (i : Invocation) (events : list Event) : Invocation :=
  fold_left handle events i.

(** Whether the message of an event is counted. *)
Definition counted (a : MqttAction) (e : Event) : bool :=
  match e with
  | Message message =>
      match decodeMessage a message with
      | Some msgObj =>
          match isMessageRelevant scenario (messageFilter a) msgObj with
          | Some true => true
          | _ => false
          end
      | None => false
      end
  | _ => false
  end.

(** Events of a listen window in which nothing fails: no subscribe error,
    no connection error, and the connection is not closed yet. *)
Definition quiet (e : Event) : bool :=
  match e with
  | Connect | Message _ | Reconnect | Timeout => true
  | SubscribeCallback error => match error with None => true | Some _ => false end
  | Close | ConnectionError _ => false
  end.

End Handlers.

Definition fixtureAction (expected : Z) (filters : option (list string))
    : MqttAction :=
  {| name := "listen"; description := "listen"; invokeEvenOnFail := false;
     allowFailure := false; allowInsecure := false;
     url := "mqtt://broker"; username := None; password := None;
     topic := "t"; durationInSec := 2;
     expectedNumberOfMessages := expected; numberOfReceivedMessages := 0;
     messageType := None; messageFilter := filters;
     messageEncoding := None; protoFile := ""; protoClass := "" |}.

Section Properties.

Context `{JsEngine} `{VariableInjection}.

Variable scenario : Scenario.

Lemma configuration_incrementReceived (a : MqttAction) :
  configuration (incrementReceived a) = configuration a.
Proof. reflexivity. Qed.

Lemma counted_configuration (a b : MqttAction) (e : Event) :
  configuration a = configuration b ->
  counted scenario a e = counted scenario b e.
Proof.
  intros Hc. destruct e; try reflexivity.
  unfold counted, decodeMessage, decodeProtoPayload.
  injection Hc as _ _ _ _ _ _ _ _ _ _ _ Hty Hflt Henc Hpf Hpc.
  now rewrite Hty, Hflt, Henc, Hpf, Hpc.
Qed.

(** The message handler never touches the promise, the client or the
    configuration, and adds one to the counter exactly when the message is
    counted. *)
Lemma handle_message (i : Invocation) (message : RawMessage) :
  let i' := default i (onMessage scenario message i) in
  promise i' = promise i /\ client i' = client i /\
  configuration (this i') = configuration (this i) /\
  numberOfReceivedMessages (this i') =
    numberOfReceivedMessages (this i)
    + (if counted scenario (this i) (Message message) then 1 else 0).
Proof.
  unfold onMessage, counted. cbn.
  destruct (decodeMessage (this i) message) as [msgObj|]; cbn;
    [|repeat split; lia].
  destruct (isMessageRelevant scenario (messageFilter (this i)) msgObj)
    as [[|]|]; cbn; repeat split; lia.
Qed.

Lemma handle_quiet (i : Invocation) (e : Event) :
  quiet e = true ->
  let i' := handle scenario i e in
  promise i' = promise i /\ client i' = client i /\
  configuration (this i') = configuration (this i) /\
  numberOfReceivedMessages (this i') =
    numberOfReceivedMessages (this i)
    + (if client i && counted scenario (this i) e then 1 else 0).
Proof.
  intros Hq. unfold handle. destruct (client i) eqn:Hc; cbn;
    [|repeat split; first [assumption | lia]].
  destruct e as [| [err|] | message | | | |]; try discriminate; cbn;
    try (repeat split; first [assumption | lia]).
  pose proof (handle_message i message) as Hm. cbn in Hm.
  rewrite Hc in Hm. exact Hm.
Qed.

Lemma run_quiet (events : list Event) : forall (i : Invocation),
  forallb quiet events = true ->
  let i' := run scenario i events in
  promise i' = promise i /\ client i' = client i /\
  configuration (this i') = configuration (this i) /\
  numberOfReceivedMessages (this i') =
    numberOfReceivedMessages (this i)
    + (if client i
       then Z.of_nat (length (List.filter (counted scenario (this i)) events))
       else 0).
Proof.
  induction events as [|e events IH]; intros i Hq; cbn in *.
  - repeat split. destruct (client i); lia.
  - apply andb_prop in Hq as [He Hq].
    destruct (handle_quiet i e He) as (Hp & Hc & Hcfg & Hn).
    destruct (IH (handle scenario i e) Hq) as (Hp' & Hc' & Hcfg' & Hn').
    unfold run in *. repeat split; try congruence.
    rewrite Hn', Hn, Hc.
    destruct (client i); cbn; [|lia].
    rewrite (List.filter_ext _ _ (fun x => counted_configuration _ _ x Hcfg)).
    destruct (counted scenario (this i) e); cbn [length]; lia.
Qed.

(** A settled promise stays as it is, whatever is delivered later. *)
Lemma handle_settled (i : Invocation) (e : Event) :
  promise i <> Pending -> promise (handle scenario i e) = promise i.
Proof.
  intros Hs. unfold handle. destruct (client i); [|reflexivity].
  destruct e as [| [err|] | message | | | |]; cbn; try reflexivity.
  - destruct (promise i); cbn; congruence.
  - apply (handle_message i message).
  - unfold onClose.
    destruct (negb _); cbn; destruct (promise i); cbn; congruence.
  - destruct (promise i); cbn; congruence.
Qed.

Lemma run_settled (events : list Event) : forall (i : Invocation),
  promise i <> Pending -> promise (run scenario i events) = promise i.
Proof.
  induction events as [|e events IH]; intros i Hs; [reflexivity|].
  cbn. unfold run in IH. rewrite IH; rewrite handle_settled; auto.
Qed.

(** No handler writes a configuration field of the action. *)
Lemma handle_configuration (i : Invocation) (e : Event) :
  configuration (this (handle scenario i e)) = configuration (this i).
Proof.
  unfold handle. destruct (client i); [|reflexivity].
  destruct e as [| [err|] | message | | | |]; cbn; try reflexivity.
  - apply (handle_message i message).
  - unfold onClose. destruct (negb _); reflexivity.
Qed.

Lemma run_configuration (events : list Event) : forall (i : Invocation),
  configuration (this (run scenario i events)) = configuration (this i).
Proof.
  induction events as [|e events IH]; intros i; [reflexivity|].
  cbn. unfold run in IH. now rewrite IH, handle_configuration.
Qed.

(** The invocation ends its client nowhere but in the timer callback, and
    every timer it arms runs for the configured duration. *)
Lemma handle_ended (i : Invocation) (e : Event) :
  ended (handle scenario i e) = true -> ended i = true \/ e = Timeout.
Proof.
  unfold handle. destruct (client i); [|auto].
  destruct e as [| [err|] | message | | | |]; cbn; auto.
  - unfold onMessage. destruct (decodeMessage _ _) as [msgObj|]; cbn; auto.
    destruct (isMessageRelevant _ _ _) as [[|]|]; cbn; auto.
  - unfold onClose. destruct (negb _); cbn; auto.
Qed.

Lemma run_ended (events : list Event) : forall (i : Invocation),
  ended (run scenario i events) = true -> ended i = true \/ In Timeout events.
Proof.
  induction events as [|e events IH]; intros i He; cbn in *; [auto|].
  destruct (IH _ He) as [Hi|Hin]; [|auto].
  destruct (handle_ended i e Hi) as [Hi'| ->]; auto.
Qed.

Lemma handle_timers (i : Invocation) (e : Event) :
  let duration := durationInSec (this i) * 1000 in
  Forall (fun t => t = duration) (timers i) ->
  Forall (fun t => t = duration) (timers (handle scenario i e)).
Proof.
  intros duration Ht. unfold handle. destruct (client i); [|auto].
  destruct e as [| [err|] | message | | | |]; cbn; auto.
  - apply Forall_app. split; [exact Ht | repeat constructor].
  - unfold onMessage. destruct (decodeMessage _ _) as [msgObj|]; cbn; auto.
    destruct (isMessageRelevant _ _ _) as [[|]|]; cbn; auto.
  - unfold onClose. destruct (negb _); cbn; auto.
Qed.

Lemma run_timers (events : list Event) : forall (i : Invocation),
  let duration := durationInSec (this i) * 1000 in
  Forall (fun t => t = duration) (timers i) ->
  Forall (fun t => t = duration) (timers (run scenario i events)).
Proof.
  induction events as [|e events IH]; intros i duration Ht; [exact Ht|].
  cbn. unfold run in IH.
  assert (Hd : durationInSec (this (handle scenario i e))
               = durationInSec (this i)).
  { change (durationInSec (configuration (this (handle scenario i e)))
            = durationInSec (configuration (this i))).
    now rewrite handle_configuration. }
  specialize (IH (handle scenario i e)). cbn in IH. rewrite Hd in IH.
  apply IH. now apply handle_timers.
Qed.

(** [some] answers true exactly when it reaches a truthy filter, that is
    when no filter before it has thrown. *)
Lemma some_true_iff (msg : JsValue) (filters : list string) :
  some scenario msg filters = Some true <->
  exists (before : list string) (f : string) (after : list string),
    filters = (before ++ f :: after)%list /\
    evalFilter scenario msg f = Some true /\
    Forall (fun g => evalFilter scenario msg g <> None) before.
Proof.
  induction filters as [|g filters IH]; cbn.
  - split; [discriminate|].
    intros (before & f & after & Heq & _). destruct before; discriminate.
  - destruct (evalFilter scenario msg g) as [[|]|] eqn:Hg.
    + split; [|reflexivity]. intros _.
      exists [], g, filters. repeat split; [assumption | constructor].
    + rewrite IH. split.
      * intros (before & f & after & -> & Hf & Hb).
        exists (g :: before), f, after. repeat split; [assumption|].
        constructor; [congruence | assumption].
      * intros (before & f & after & Heq & Hf & Hb).
        destruct before as [|g' before]; cbn in Heq.
        -- injection Heq as -> ->. congruence.
        -- injection Heq as -> ->. inversion Hb; subst.
           exists before, f, after. repeat split; assumption.
    + split; [discriminate|].
      intros (before & f & after & Heq & Hf & Hb).
      destruct before as [|g' before]; cbn in Heq.
      * injection Heq as -> ->. congruence.
      * injection Heq as -> ->. inversion Hb; subst. congruence.
Qed.

Lemma some_all_falsy (msg : JsValue) (filters : list string) :
  Forall (fun g => evalFilter scenario msg g = Some false) filters ->
  some scenario msg filters = Some false.
Proof.
  induction 1 as [|g filters Hg _ IH]; cbn; [reflexivity|].
  now rewrite Hg.
Qed.

(** C1 (amended): in an MQTT subscribe invocation that has connected, as
    long as no subscribe error, connection error or close has been
    delivered the promise stays pending however many relevant messages have
    arrived, and the counter of the action has grown by the number of
    relevant messages; the close then resolves the promise if and only if
    the counter equals the expected count, rejects it otherwise, and
    nothing delivered later changes that outcome. The invocation itself has
    ended its client only if the timer has fired, and every timer it has
    armed runs for the configured duration. A subscribe error or a
    connection error delivered instead of the close rejects the promise,
    whatever is delivered later and whatever the counter is then. *)
Theorem close_decides_after_quiet_window
    (a : MqttAction) (window later : list Event) (error : string) :
  client (invoke scenario a) = true ->
  forallb quiet window = true ->
  let atClose := run scenario (invoke scenario a) window in
  let closed := handle scenario atClose Close in
  promise atClose = Pending /\
  numberOfReceivedMessages (this atClose) =
    numberOfReceivedMessages a
    + Z.of_nat (length (List.filter (counted scenario a) window)) /\
  (promise closed = Resolved <->
   numberOfReceivedMessages (this atClose) = expectedNumberOfMessages a) /\
  (numberOfReceivedMessages (this atClose) <> expectedNumberOfMessages a ->
   promise closed = Rejected) /\
  promise (run scenario closed later) = promise closed /\
  (ended atClose = true -> In Timeout window) /\
  Forall (fun t => t = durationInSec a * 1000) (timers atClose) /\
  promise (run scenario (handle scenario atClose (ConnectionError error))
             later) = Rejected /\
  promise (run scenario
             (handle scenario atClose (SubscribeCallback (Some error)))
             later) = Rejected.
Proof.
  intros Hclient Hquiet atClose closed.
  destruct (run_quiet window (invoke scenario a) Hquiet)
    as (Hp & Hc & Hcfg & Hn).
  fold atClose in Hp, Hc, Hcfg, Hn. rewrite Hclient in Hn, Hc.
  assert (Hstart : promise (invoke scenario a) = Pending
                   /\ this (invoke scenario a) = a).
  { revert Hclient. unfold invoke.
    destruct (expandParameters scenario a) as [[[t u] pw]|];
      [destruct (Mqtt_connect (url a))|]; cbn; try discriminate; auto. }
  destruct Hstart as [Hpend Hthis]. rewrite Hpend in Hp.
  rewrite Hthis in Hn, Hcfg.
  assert (Hexp : expectedNumberOfMessages (this atClose)
                 = expectedNumberOfMessages a).
  { change (expectedNumberOfMessages (configuration (this atClose))
            = expectedNumberOfMessages (configuration a)).
    now rewrite Hcfg. }
  assert (Hclosed : promise closed =
            if Z.eqb (numberOfReceivedMessages (this atClose))
                     (expectedNumberOfMessages a)
            then Resolved else Rejected).
  { unfold closed, handle, onClose. rewrite Hc, Hexp.
    destruct (Z.eqb _ _); cbn; now rewrite Hp. }
  assert (Herror : forall e,
            e = ConnectionError error \/ e = SubscribeCallback (Some error) ->
            promise (run scenario (handle scenario atClose e) later)
              = Rejected).
  { intros e He.
    assert (Hrej : promise (handle scenario atClose e) = Rejected)
      by (unfold handle; rewrite Hc; destruct He as [-> | ->]; cbn;
          now rewrite Hp).
    rewrite run_settled; [exact Hrej | rewrite Hrej; discriminate]. }
  assert (Hstarted : ended (invoke scenario a) = false
                     /\ timers (invoke scenario a) = []).
  { unfold invoke.
    destruct (expandParameters scenario a) as [[[t u] pw]|];
      [destruct (Mqtt_connect (url a))|]; cbn; auto. }
  destruct Hstarted as [Hended Htimers].
  assert (Hend : ended atClose = true -> In Timeout window).
  { intros He. destruct (run_ended _ _ He) as [Hi|Hin]; [congruence | exact Hin]. }
  assert (Htim : Forall (fun t => t = durationInSec a * 1000) (timers atClose)).
  { pose proof (run_timers window (invoke scenario a)) as Hr. cbn in Hr.
    rewrite Hthis in Hr. apply Hr. rewrite Htimers. constructor. }
  split; [exact Hp|]. split; [exact Hn|].
  assert (Hlater : promise (run scenario closed later) = promise closed)
    by (apply run_settled; rewrite Hclosed; destruct (Z.eqb _ _);
        discriminate).
  destruct (Z.eqb_spec (numberOfReceivedMessages (this atClose))
              (expectedNumberOfMessages a)) as [Heq|Hne].
  - repeat split; auto; tauto.
  - repeat split; auto; try (rewrite Hclosed; congruence); tauto.
Qed.

(** C6 (amended): a decoded message is relevant if and only if no filter
    list is configured, or some configured filter evaluates truthy with
    [msg] bound to the payload and no filter before it throws; the handler
    adds one to the counter exactly for a relevant message, and a message
    for which every filter is falsy leaves the counter as it is. *)
Theorem relevant_iff_reached_truthy_filter
    (i : Invocation) (message : RawMessage) (msgObj : JsValue) :
  client i = true ->
  decodeMessage (this i) message = Some msgObj ->
  let filters := messageFilter (this i) in
  let after := handle scenario i (Message message) in
  (isMessageRelevant scenario filters msgObj = Some true <->
   filters = None \/
   exists (before : list string) (f : string) (rest : list string),
     filters = Some (before ++ f :: rest)%list /\
     evalFilter scenario msgObj f = Some true /\
     Forall (fun g => evalFilter scenario msgObj g <> None) before) /\
  numberOfReceivedMessages (this after) =
    numberOfReceivedMessages (this i)
    + (if decide (isMessageRelevant scenario filters msgObj = Some true)
       then 1 else 0) /\
  (forall fs, filters = Some fs ->
     Forall (fun g => evalFilter scenario msgObj g = Some false) fs ->
     numberOfReceivedMessages (this after) = numberOfReceivedMessages (this i)).
Proof.
  intros Hclient Hdec filters after.
  assert (Hcount : numberOfReceivedMessages (this after) =
            numberOfReceivedMessages (this i)
            + (if decide (isMessageRelevant scenario filters msgObj = Some true)
               then 1 else 0)).
  { unfold after, handle. rewrite Hclient.
    destruct (handle_message i message) as (_ & _ & _ & Hn). rewrite Hn.
    unfold counted. rewrite Hdec. fold filters.
    destruct (isMessageRelevant scenario filters msgObj) as [[|]|];
      case_decide; congruence. }
  split; [|split; [exact Hcount|]].
  - unfold isMessageRelevant. destruct filters as [fs|].
    + rewrite some_true_iff. split.
      * intros (before & f & rest & -> & Hf & Hb).
        right. exists before, f, rest. auto.
      * intros [Hnone|(before & f & rest & Heq & Hf & Hb)]; [discriminate|].
        injection Heq as ->. exists before, f, rest. auto.
    + split; auto.
  - intros fs Hfs Hall. rewrite Hcount. clear Hcount.
    unfold isMessageRelevant. rewrite Hfs, (some_all_falsy _ _ Hall).
    case_decide; [congruence | lia].
Qed.

End Properties.

(** An empty filter list is a configured list: nothing passes it. *)
Example empty_filter_list_drops_everything (msg : JsValue) :
  @isMessageRelevant fixtureEngine fixtureInjection fixtureScenario
    (Some []) msg = Some false.
Proof. reflexivity. Qed.

Example close_decides_after_quiet_window_witness :
  let a := fixtureAction 1 None in
  let window := [Connect; SubscribeCallback None;
                 Message (FromString "{}"); Timeout] in
  let atClose :=
    @run fixtureEngine fixtureInjection fixtureScenario
      (@invoke fixtureEngine fixtureInjection fixtureScenario a) window in
  let closed := @handle fixtureEngine fixtureInjection fixtureScenario
                  atClose Close in
  promise atClose = Pending /\
  numberOfReceivedMessages (this atClose) = 1 /\
  promise closed = Resolved.
Proof.
  intros a window atClose closed.
  destruct (@close_decides_after_quiet_window fixtureEngine fixtureInjection
              fixtureScenario a window [] "ECONNRESET" eq_refl eq_refl)
    as (Hp & Hn & Hiff & _).
  split; [exact Hp|]. split; [exact Hn|].
  apply Hiff. exact Hn.
Defined.

(** C1, as stated, fails: one relevant message of one expected has arrived
    when a connection error is delivered; at the close the count equals the
    expected count and the invocation has failed all the same. *)
Example close_after_connection_error :
  let a := fixtureAction 1 None in
  let atClose :=
    @run fixtureEngine fixtureInjection fixtureScenario
      (@invoke fixtureEngine fixtureInjection fixtureScenario a)
      [Connect; SubscribeCallback None; Message (FromString "{}");
       ConnectionError "ECONNRESET"; Timeout] in
  let closed := @handle fixtureEngine fixtureInjection fixtureScenario
                  atClose Close in
  ~ (promise closed = Resolved <->
     numberOfReceivedMessages (this atClose) = expectedNumberOfMessages a).
Proof.
  cbn. intros [_ Hback]. specialize (Hback eq_refl). discriminate.
Qed.

Example relevant_iff_reached_truthy_filter_witness :
  let a := fixtureAction 1 (Some ["false"; "true"]) in
  let i := @invoke fixtureEngine fixtureInjection fixtureScenario a in
  let after := @handle fixtureEngine fixtureInjection fixtureScenario i
                 (Message (FromString "{}")) in
  numberOfReceivedMessages (this after) = 1.
Proof.
  intros a i after.
  destruct (@relevant_iff_reached_truthy_filter fixtureEngine
              fixtureInjection fixtureScenario i (FromString "{}")
              (JObject []) eq_refl eq_refl)
    as (_ & Hn & _).
  exact Hn.
Defined.

(** C6, as stated, fails: on the message [{}] the second filter evaluates
    truthy, but the first one throws (it reads a property of [msg.a], which
    is undefined), so the message is not counted. *)
Example truthy_filter_behind_throwing_filter :
  let filters := ["msg.a.b === 1"; "true"] in
  let a := fixtureAction 1 (Some filters) in
  let i := @invoke fixtureEngine fixtureInjection fixtureScenario a in
  let msgObj := JObject [] in
  let after := @handle fixtureEngine fixtureInjection fixtureScenario i
                 (Message (FromString "{}")) in
  @decodeMessage fixtureEngine a (FromString "{}") = Some msgObj /\
  (exists f, In f filters /\
     @evalFilter fixtureEngine fixtureInjection fixtureScenario msgObj f
       = Some true) /\
  @isMessageRelevant fixtureEngine fixtureInjection fixtureScenario
    (Some filters) msgObj <> Some true /\
  numberOfReceivedMessages (this after) = numberOfReceivedMessages (this i).
Proof.
  cbn. repeat split; try discriminate.
  exists "true". split; [right; left; reflexivity | reflexivity].
Qed.

(** ** The whole session, and actions built from a template *)

(** The keys of an MQTT definition, [None] for a key the definition does
    not have. *)
Record MqttActionDefinition : Type := {
  def_name : option string;
  def_description : option string;
  def_url : option string;
  def_username : option string;
  def_password : option string;
  def_allowInsecure : option bool;
  def_topic : option string;
  def_durationInSec : option Z;
  def_expectedNumberOfMessages : option Z;
  def_numberOfReceivedMessages : option Z;
  def_messageType : option string;
  def_messageFilter : option (list string);
  def_messageEncoding : option string;
  def_protoFile : option string;
  def_protoClass : option string;
  def_invokeEvenOnFail : option bool;
  def_allowFailure : option bool
}.

(** [{ ...template, ...mqttListenDefinition }] read at one key. *)
Definition over {A} (own : option A) (templated : A) : A :=
  default templated own.

Definition overOptional {A} (own templated : option A) : option A :=
  match own with Some v => Some v | None => templated end.

(** [fromTemplate]: the constructor is called with three arguments, so
    every other parameter takes its default, read from the merged object;
    [messageEncoding] has no default, and the counter is initialised by the
    class. *)
Definition fromTemplate (mqttListenDefinition : MqttActionDefinition)
    (template : MqttAction) : MqttAction :=
  let desc :=
    match def_description mqttListenDefinition with
    | Some d => if String.eqb d "" then def_name mqttListenDefinition
                else Some d
    | None => def_name mqttListenDefinition
    end in
  {| name := name template;
     description := default (name template) desc;
     invokeEvenOnFail :=
       over (def_invokeEvenOnFail mqttListenDefinition)
         (invokeEvenOnFail template);
     allowFailure :=
       over (def_allowFailure mqttListenDefinition) (allowFailure template);
     allowInsecure :=
       over (def_allowInsecure mqttListenDefinition) (allowInsecure template);
     url := over (def_url mqttListenDefinition) (url template);
     username :=
       overOptional (def_username mqttListenDefinition) (username template);
     password :=
       overOptional (def_password mqttListenDefinition) (password template);
     topic := over (def_topic mqttListenDefinition) (topic template);
     durationInSec :=
       over (def_durationInSec mqttListenDefinition) (durationInSec template);
     expectedNumberOfMessages :=
       over (def_expectedNumberOfMessages mqttListenDefinition)
         (expectedNumberOfMessages template);
     numberOfReceivedMessages := 0;
     messageType :=
       overOptional (def_messageType mqttListenDefinition)
         (messageType template);
     messageFilter :=
       overOptional (def_messageFilter mqttListenDefinition)
         (messageFilter template);
     messageEncoding := None;
     protoFile := over (def_protoFile mqttListenDefinition) (protoFile template);
     protoClass :=
       over (def_protoClass mqttListenDefinition) (protoClass template) |}.

Definition isMqttMessage (d : DiagramEntry) : bool :=
  match d with MqttMessage _ _ => true | MissingMQTTMessage _ _ _ _ => false end.

Definition isConnect (e : Event) : bool :=
  match e with Connect => true | _ => false end.

(** A definition that names the action and asks for a message encoding,
    and leaves everything else to the template. *)
Definition fixtureDefinition : MqttActionDefinition :=
  {| def_name := Some "derived"; def_description := None; def_url := None;
     def_username := None; def_password := None; def_allowInsecure := None;
     def_topic := None; def_durationInSec := None;
     def_expectedNumberOfMessages := None;
     def_numberOfReceivedMessages := None; def_messageType := None;
     def_messageFilter := None; def_messageEncoding := Some "hex";
     def_protoFile := None; def_protoClass := None;
     def_invokeEvenOnFail := None; def_allowFailure := None |}.

Section Session.

Context `{JsEngine} `{VariableInjection}.

Variable scenario : Scenario.

(** The diagram entry a message event leaves: that of a counted message. *)
Definition drawn (a : MqttAction) (topic : string) (e : Event)
    : option DiagramEntry :=
  match e with
  | Message message =>
      match decodeMessage a message with
      | Some msgObj =>
          match isMessageRelevant scenario (messageFilter a) msgObj with
          | Some true => Some (MqttMessage topic msgObj)
          | _ => None
          end
      | None => None
      end
  | _ => None
  end.

Lemma drawn_configuration (a b : MqttAction) (topic : string) (e : Event) :
  configuration a = configuration b -> drawn a topic e = drawn b topic e.
Proof.
  intros Hc. destruct e; try reflexivity.
  unfold drawn, decodeMessage, decodeProtoPayload.
  injection Hc as _ _ _ _ _ _ _ _ _ _ _ Hty Hflt Henc Hpf Hpc.
  now rewrite Hty, Hflt, Henc, Hpf, Hpc.
Qed.

(** What one event does to an invocation that has a client. *)
Definition stepped (i i' : Invocation) (e : Event) : Prop :=
  client i' = true /\ resolvedTopic i' = resolvedTopic i /\
  numberOfReceivedMessages (this i') =
    numberOfReceivedMessages (this i)
    + (if counted scenario (this i) e then 1 else 0) /\
  List.filter isMqttMessage (diagram i') =
    (List.filter isMqttMessage (diagram i)
     ++ option_list (drawn (this i) (resolvedTopic i) e))%list /\
  subscriptions i' =
    (subscriptions i ++ if isConnect e then [resolvedTopic i] else [])%list /\
  timers i' =
    (timers i ++ if isConnect e then [durationInSec (this i) * 1000] else [])%list.

Lemma handle_stepped (i : Invocation) (e : Event) :
  client i = true -> stepped i (handle scenario i e) e.
Proof.
  intros Hc. unfold stepped, handle. rewrite Hc.
  destruct e as [| [err|] | message | | | |]; cbn;
    rewrite ?List.filter_app, ?app_nil_r, ?Z.add_0_r; cbn;
    rewrite ?app_nil_r; try (repeat split; auto; fail).
  - unfold onMessage.
    destruct (decodeMessage (this i) message) as [msgObj|]; cbn;
      rewrite ?app_nil_r, ?Z.add_0_r; [|repeat split; auto].
    destruct (isMessageRelevant scenario _ msgObj) as [[|]|]; cbn;
      rewrite ?List.filter_app, ?app_nil_r, ?Z.add_0_r; repeat split; auto.
  - unfold onClose. destruct (negb _); cbn;
      rewrite ?List.filter_app, ?app_nil_r; cbn; rewrite ?app_nil_r;
      repeat split; auto.
Qed.

(** X11: in an invocation with a client, whatever events are delivered and
    whether the promise is settled or not, the counter grows by the number
    of messages that decode and pass the filter, and the diagram gets one
    message entry for each of them, in order, under the topic resolved at
    invocation; no other event adds a message entry. *)
Theorem relevant_messages_are_counted_and_drawn (events : list Event) :
  forall (i : Invocation),
  client i = true ->
  let final := run scenario i events in
  numberOfReceivedMessages (this final) =
    numberOfReceivedMessages (this i)
    + Z.of_nat (length (List.filter (counted scenario (this i)) events)) /\
  List.filter isMqttMessage (diagram final) =
    (List.filter isMqttMessage (diagram i)
     ++ omap (drawn (this i) (resolvedTopic i)) events)%list.
Proof.
  induction events as [|e events IH]; intros i Hc; cbn.
  - rewrite app_nil_r. split; [lia | reflexivity].
  - destruct (handle_stepped i e Hc) as (Hc' & Ht & Hn & Hd & _).
    destruct (IH _ Hc') as [Hn' Hd']. unfold run in *.
    pose proof (handle_configuration scenario i e) as Hcfg.
    split.
    + rewrite Hn', Hn.
      rewrite (List.filter_ext _ _
                 (fun x => counted_configuration scenario _ _ x Hcfg)).
      change (fun x => counted scenario (this i) x)
        with (counted scenario (this i)).
      destruct (counted scenario (this i) e); cbn [length]; lia.
    + rewrite Hd', Hd, Ht, <- app_assoc. f_equal.
      assert (Hsame : omap (drawn (this (handle scenario i e))
                              (resolvedTopic i)) events
                      = omap (drawn (this i) (resolvedTopic i)) events).
      { clear -Hcfg. induction events as [|e' events IH]; [reflexivity|].
        cbn. now rewrite IH, (drawn_configuration _ (this i) _ e' Hcfg). }
      rewrite Hsame.
      destruct (drawn (this i) (resolvedTopic i) e); reflexivity.
Qed.

(** X12: every connect of the client, the first one and every one after a
    reconnection, subscribes once to the topic resolved at invocation and
    arms one more timer of the configured duration; nothing else subscribes
    or arms a timer, and no timer is cleared. *)
Theorem one_subscription_and_timer_per_connect (events : list Event) :
  forall (i : Invocation),
  client i = true ->
  let final := run scenario i events in
  let connects := length (List.filter isConnect events) in
  subscriptions final
    = (subscriptions i ++ repeat (resolvedTopic i) connects)%list /\
  timers final
    = (timers i ++ repeat (durationInSec (this i) * 1000) connects)%list.
Proof.
  induction events as [|e events IH]; intros i Hc; cbn.
  - now rewrite !app_nil_r.
  - destruct (handle_stepped i e Hc) as (Hc' & Ht & _ & _ & Hs & Htm).
    destruct (IH _ Hc') as [Hs' Htm']. unfold run in *.
    assert (Hd : durationInSec (this (handle scenario i e))
                 = durationInSec (this i)).
    { change (durationInSec (configuration (this (handle scenario i e)))
              = durationInSec (configuration (this i))).
      now rewrite handle_configuration. }
    rewrite Hs', Htm', Hs, Htm, Ht, Hd, <- !app_assoc.
    destruct (isConnect e); cbn; now rewrite ?app_nil_r.
Qed.

(** X13: an action built from a template starts counting at zero, whatever
    the counter of the template has reached, so that after a window in
    which nothing fails its counter is the number of relevant messages of
    the window; it has the name of the template, not that of the
    definition, and no message encoding, whatever the template and the
    definition say, so that a proto message that arrives as a string is
    read with the default encoding. *)
Theorem derived_action_starts_fresh
    (mqttListenDefinition : MqttActionDefinition) (template : MqttAction)
    (window : list Event) :
  let derived := fromTemplate mqttListenDefinition template in
  client (invoke scenario derived) = true ->
  forallb quiet window = true ->
  numberOfReceivedMessages
    (this (run scenario (invoke scenario derived) window))
    = Z.of_nat (length (List.filter (counted scenario derived) window)) /\
  name derived = name template /\
  messageEncoding derived = None /\
  (forall s, messageType derived = Some "proto" ->
     decodeMessage derived (FromString s)
       = decodeProtoPayload derived (Buffer_from s None)).
Proof.
  intros derived Hclient Hquiet.
  destruct (run_quiet scenario window (invoke scenario derived) Hquiet)
    as (_ & _ & _ & Hn).
  rewrite Hclient in Hn.
  assert (Hthis : this (invoke scenario derived) = derived).
  { unfold invoke.
    destruct (expandParameters scenario derived) as [[[t u] pw]|];
      [destruct (Mqtt_connect (url derived))|]; reflexivity. }
  rewrite Hthis in Hn. split; [exact Hn|].
  split; [reflexivity|]. split; [reflexivity|].
  intros s Hty. unfold decodeMessage. rewrite Hty. reflexivity.
Qed.

End Session.

Example relevant_messages_are_counted_and_drawn_witness :
  let i := @invoke fixtureEngine fixtureInjection fixtureScenario
             (fixtureAction 1 None) in
  let final := @run fixtureEngine fixtureInjection fixtureScenario i
                 [Connect; Message (FromString "{}"); Close;
                  Message (FromString "{}"); Message (FromString "{")] in
  numberOfReceivedMessages (this final) = 2 /\
  List.filter isMqttMessage (diagram final)
    = [MqttMessage "t" (JObject []); MqttMessage "t" (JObject [])].
Proof.
  intros i final.
  destruct (@relevant_messages_are_counted_and_drawn fixtureEngine
              fixtureInjection fixtureScenario
              [Connect; Message (FromString "{}"); Close;
               Message (FromString "{}"); Message (FromString "{")]
              i eq_refl) as [Hn Hd].
  split; [exact Hn | exact Hd].
Defined.

Example one_subscription_and_timer_per_connect_witness :
  let i := @invoke fixtureEngine fixtureInjection fixtureScenario
             (fixtureAction 1 None) in
  let final := @run fixtureEngine fixtureInjection fixtureScenario i
                 [Connect; Reconnect; Connect; Timeout] in
  subscriptions final = ["t"; "t"] /\ timers final = [2000; 2000].
Proof.
  intros i final.
  exact (@one_subscription_and_timer_per_connect fixtureEngine
           fixtureInjection fixtureScenario
           [Connect; Reconnect; Connect; Timeout] i eq_refl).
Defined.

Example derived_action_starts_fresh_witness :
  let template := incrementReceived (fixtureAction 1 None) in
  let derived := fromTemplate fixtureDefinition template in
  numberOfReceivedMessages template = 1 /\
  numberOfReceivedMessages
    (this (@run fixtureEngine fixtureInjection fixtureScenario
             (@invoke fixtureEngine fixtureInjection fixtureScenario derived)
             [Connect; Message (FromString "{}")])) = 1 /\
  name derived = "listen".
Proof.
  intros template derived.
  destruct (@derived_action_starts_fresh fixtureEngine fixtureInjection
              fixtureScenario fixtureDefinition template
              [Connect; Message (FromString "{}")] eq_refl eq_refl)
    as (Hn & Hname & _).
  split; [reflexivity|]. split; [exact Hn | exact Hname].
Defined.

End Mqtt.

(** * MQTT publish: model/MqttPublishAction.ts *)

Module MqttPublish.

Record MqttPublishAction : Type := {
  name : string;
  url : string;
  username : option string;
  password : option string;
  topic : string;
  data : JsValue;
  protoFile : option string;
  protoClass : string
}.

Inductive Payload : Type :=
| Text (s : string)
| Binary (bytes : list Byte.byte).

(** What the diagram collaborator writes: the arrow of the publish, then
    the note with the parsed payload. *)
Inductive DiagramEntry : Type :=
| MqttPublishArrow (topic : string)
| MqttPublishNote (payload : JsValue).

Inductive ErrorLog : Type :=
| PublishFailed (topic error : string)
| ConnectionFailed (error : string).

(** The events delivered to the handlers of [invokeAsync] and to the
    callback of [client.publish]. *)
Inductive Event : Type :=
| Connect
| PublishCallback (error : option string)
| ConnectionError (error : string).

(** One invocation: the action, the promise of [invoke], whether
    [Mqtt.connect] has returned a client, and what the invocation has done
    with it. *)
Record Invocation : Type := {
  this : MqttPublishAction;
  promise : Promise;
  client : bool;
  published : list (string * Payload);
  ended : bool;
  diagram : list DiagramEntry;
  errors : list ErrorLog
}.

Definition logError (e : ErrorLog) (i : Invocation) : Invocation :=
  {| this := this i; promise := promise i; client := client i;
     published := published i; ended := ended i; diagram := diagram i;
     errors := errors i ++ [e] |}.

Definition record (d : DiagramEntry) (i : Invocation) : Invocation :=
  {| this := this i; promise := promise i; client := client i;
     published := published i; ended := ended i;
     diagram := diagram i ++ [d]; errors := errors i |}.

(** [client.end()] *)
Definition endClient (i : Invocation) : Invocation :=
  {| this := this i; promise := promise i; client := client i;
     published := published i; ended := true; diagram := diagram i;
     errors := errors i |}.

Section Handlers.

Context `{JsEngine} `{VariableInjection}.

(** [this.protoFile ? ... : ...]: a missing or empty path is falsy. *)
Definition hasProtoFile (a : MqttPublishAction) : option string :=
  match protoFile a with
  | Some f => if String.eqb f "" then None else Some f
  | None => None
  end.

Definition encodeProtoPayload (a : MqttPublishAction) (f : string)
    : option Payload :=
  data ← injectEvaluationToMap (data a);
  Binary <$> encodeProto f data (protoClass a).

(** [invoke]: the executor calls [invokeAsync], which connects and registers
    the handlers, and then resolves at once. When [Mqtt.connect] throws, the
    executor throws with it: the promise is rejected, and there is neither
    client nor handler. *)
Definition invoke (a : MqttPublishAction) : Invocation :=
  match Mqtt_connect (url a) with
  | Some _ =>
      {| this := a; promise := resolve Pending; client := true;
         published := []; ended := false; diagram := []; errors := [] |}
  | None =>
      {| this := a; promise := reject Pending; client := false;
         published := []; ended := false; diagram := []; errors := [] |}
  end.

(** The connect handler; [None] when building the payload throws. *)
Definition onConnect (i : Invocation) : option Invocation :=
  payload ← match hasProtoFile (this i) with
            | Some f => encodeProtoPayload (this i) f
            | None => (fun d => Text (JSON_stringify d))
                        <$> injectEvaluationToMap (data (this i))
            end;
  Some {| this := this i; promise := promise i; client := client i;
          published := published i ++ [(topic (this i), payload)];
          ended := ended i; diagram := diagram i; errors := errors i |}.

(** The text the publish callback hands to the diagram: an object with the
    one key [payload], written around [JSON.stringify(this.data)] as the
    template literal shows it ([undefined] for a value without JSON
    text). *)
Definition diagramPayload (a : MqttPublishAction) : string :=
  String.append "{"
    (String.append doubleQuote
       (String.append "payload"
          (String.append doubleQuote
             (String.append ":"
                (String.append (JSON_stringify (data a)) "}"))))).

(** [addMqttPublishMessage] of diagramDrawing.ts: the arrow is written,
    then the payload is parsed for the note. The boolean is false when
    [JSON.parse] throws, which leaves the arrow without its note. *)
Definition addMqttPublishMessage (topic payload : string) (i : Invocation)
    : Invocation * bool :=
  let i := record (MqttPublishArrow topic) i in
  match JSON_parse payload with
  | Some parsed => (record (MqttPublishNote parsed) i, true)
  | None => (i, false)
  end.

(** The callback of [client.publish]: [client.end()] comes after the call
    of the diagram and is not reached when that call throws. *)
Definition onPublishCallback (error : option string) (i : Invocation)
    : Invocation :=
  match error with
  | Some e => logError (PublishFailed (topic (this i)) e) i
  | None =>
      match addMqttPublishMessage (topic (this i)) (diagramPayload (this i)) i
      with
      | (i', true) => endClient i'
      | (i', false) => i'
      end
  end.

Definition onError (error : string) (i : Invocation) : Invocation :=
  logError (ConnectionFailed error) i.

(** Dispatch of one event; without a client there is no emitter. *)
Definition handle (i : Invocation) (e : Event) : Invocation :=
  if client i then
    match e with
    | Connect => default i (onConnect i)
    | PublishCallback error => onPublishCallback error i
    | ConnectionError error => onError error i
    end
  else i.

Definition run (i : Invocation) (events : list Event) : Invocation :=
  fold_left handle events i.

(** The error line an event leaves in the log. *)
Definition logged (a : MqttPublishAction) (e : Event) : list ErrorLog :=
  match e with
  | PublishCallback (Some error) => [PublishFailed (topic a) error]
  | ConnectionError error => [ConnectionFailed error]
  | _ => []
  end.

(** The payload the connect handler builds; [None] when building throws. *)
Definition payloadOf (a : MqttPublishAction) : option Payload :=
  match hasProtoFile a with
  | Some f => encodeProtoPayload a f
  | None => (fun d => Text (JSON_stringify d)) <$> injectEvaluationToMap (data a)
  end.

Definition publishedBy (a : MqttPublishAction) (e : Event)
    : list (string * Payload) :=
  match e with
  | Connect => match payloadOf a with Some p => [(topic a, p)] | None => [] end
  | _ => []
  end.

(** What a publish callback leaves in the diagram: on success the arrow,
    and the note when the text of the payload parses. *)
Definition drawnBy (a : MqttPublishAction) (e : Event) : list DiagramEntry :=
  match e with
  | PublishCallback None =>
      MqttPublishArrow (topic a)
      :: match JSON_parse (diagramPayload a) with
         | Some parsed => [MqttPublishNote parsed]
         | None => []
         end
  | _ => []
  end.

Definition isPublished (e : Event) : bool :=
  match e with PublishCallback None => true | _ => false end.

(** Whether the diagram can take the payload of the action. *)
Definition drawable (a : MqttPublishAction) : bool :=
  match JSON_parse (diagramPayload a) with Some _ => true | None => false end.

End Handlers.

(** Fixtures: an action that publishes the number 1, or nothing at all, to
    a broker at the given url. *)
Definition fixtureAction (url : string) (data : JsValue)
    : MqttPublishAction :=
  {| name := "publish"; url := url; username := None; password := None;
     topic := "t"; data := data; protoFile := None; protoClass := "" |}.

Section Properties.

Context `{JsEngine} `{VariableInjection}.

Lemma handle_keeps (i : Invocation) (e : Event) :
  promise (handle i e) = promise i /\ this (handle i e) = this i /\
  client (handle i e) = client i /\
  errors (handle i e)
    = errors i ++ (if client i then logged (this i) e else []) /\
  published (handle i e)
    = published i ++ (if client i then publishedBy (this i) e else []) /\
  diagram (handle i e)
    = diagram i ++ (if client i then drawnBy (this i) e else []) /\
  ended (handle i e)
    = ended i || (client i && isPublished e && drawable (this i)).
Proof.
  unfold handle. destruct (client i) eqn:Hc; cbn;
    [|rewrite !app_nil_r, orb_false_r; auto 10].
  destruct e as [| [error|] | error]; cbn;
    rewrite ?app_nil_r, ?orb_false_r; auto 10.
  - unfold onConnect, publishedBy, payloadOf.
    destruct (hasProtoFile (this i)) as [f|]; cbn.
    + destruct (encodeProtoPayload (this i) f); cbn;
        rewrite ?app_nil_r; auto 10.
    + destruct (injectEvaluationToMap (data (this i))); cbn;
        rewrite ?app_nil_r; auto 10.
  - unfold onPublishCallback, addMqttPublishMessage, drawable.
    destruct (JSON_parse (diagramPayload (this i))) as [parsed|]; cbn;
      rewrite ?orb_true_r, ?orb_false_r, ?Hc, <- ?app_assoc; auto 10.
Qed.

Lemma run_keeps (events : list Event) : forall (i : Invocation),
  promise (run i events) = promise i /\ this (run i events) = this i /\
  client (run i events) = client i /\
  errors (run i events)
    = errors i ++ (if client i then flat_map (logged (this i)) events
                   else []) /\
  published (run i events)
    = published i ++ (if client i then flat_map (publishedBy (this i)) events
                      else []) /\
  diagram (run i events)
    = diagram i ++ (if client i then flat_map (drawnBy (this i)) events
                    else []) /\
  ended (run i events)
    = ended i || (client i && existsb isPublished events && drawable (this i)).
Proof.
  induction events as [|e events IH]; intros i; cbn.
  - destruct (client i); rewrite !app_nil_r, ?orb_false_r; auto 10.
  - destruct (handle_keeps i e) as (Hp & Ht & Hc & He & Hpub & Hd & Hend).
    destruct (IH (handle i e)) as (Hp' & Ht' & Hc' & He' & Hpub' & Hd' & Hend').
    unfold run in *.
    rewrite Hp', Ht', Hc', He', Hpub', Hd', Hend',
      Hp, Ht, Hc, He, Hpub, Hd, Hend.
    destruct (client i); cbn;
      rewrite ?app_nil_r, <- ?app_assoc, ?orb_false_r; auto 10.
    repeat split; auto.
    destruct (ended i), (isPublished e), (existsb isPublished events),
      (drawable (this i)); reflexivity.
Qed.

Lemma invoke_client (a : MqttPublishAction) :
  (client (invoke a) = true <-> Mqtt_connect (url a) <> None) /\
  promise (invoke a) = (if client (invoke a) then Resolved else Rejected) /\
  this (invoke a) = a /\ errors (invoke a) = [] /\
  published (invoke a) = [] /\ diagram (invoke a) = [] /\
  ended (invoke a) = false.
Proof.
  unfold invoke. destruct (Mqtt_connect (url a)); cbn;
    repeat split; auto; congruence.
Qed.

(** C5 (amended): an MQTT publish invocation whose client is created, that
    is whose [Mqtt.connect] returns, is resolved at once, and whatever
    events it is delivered afterwards, publish errors and connection errors
    among them, it stays resolved; every publish error and every connection
    error leaves its line in the error log, in the order of delivery, and
    nothing else does. An invocation whose [Mqtt.connect] throws is
    rejected; it publishes nothing and logs nothing. *)
Theorem publish_errors_logged_never_reject
    (a : MqttPublishAction) (events : list Event) :
  (Mqtt_connect (url a) <> None ->
   promise (invoke a) = Resolved /\
   promise (run (invoke a) events) = Resolved /\
   errors (run (invoke a) events) = flat_map (logged a) events) /\
  (Mqtt_connect (url a) = None ->
   promise (invoke a) = Rejected /\
   promise (run (invoke a) events) = Rejected /\
   errors (run (invoke a) events) = [] /\
   published (run (invoke a) events) = []) /\
  (forall (i : Invocation) (error : string),
     client i = true ->
     promise (handle i (PublishCallback (Some error))) = promise i /\
     errors (handle i (PublishCallback (Some error)))
       = errors i ++ [PublishFailed (topic (this i)) error]) /\
  (forall (i : Invocation) (error : string),
     client i = true ->
     promise (handle i (ConnectionError error)) = promise i /\
     errors (handle i (ConnectionError error))
       = errors i ++ [ConnectionFailed error]).
Proof.
  destruct (run_keeps events (invoke a)) as (Hp & _ & _ & He & Hpub & _).
  destruct (invoke_client a) as (Hc & Hstart & Ht & He0 & Hpub0 & _).
  rewrite Hp, He, Hpub, Hstart, Ht, He0, Hpub0. cbn.
  split; [|split; [|split]].
  - intros Hconnect. apply Hc in Hconnect. now rewrite Hconnect.
  - intros Hthrow.
    destruct (client (invoke a)); [|auto].
    exfalso. exact (proj1 Hc eq_refl Hthrow).
  - intros i error Hi. unfold handle. rewrite Hi. auto.
  - intros i error Hi. unfold handle. rewrite Hi. auto.
Qed.

(** X14: whatever events a publish invocation with a client is delivered,
    it has published once per connect, always the same payload to the topic
    of the action, and nothing at a connect whose payload cannot be built;
    every successful publish callback leaves an arrow in the diagram, and
    the note with the payload when the text written around the data of the
    action parses; and the client is ended exactly when some publish
    callback has reported success and that text parses: never after a
    publish error or a connection error alone, and never for an action
    whose data has no JSON text. *)
Theorem publish_session (a : MqttPublishAction) (events : list Event) :
  client (invoke a) = true ->
  let i := run (invoke a) events in
  published i = flat_map (publishedBy a) events /\
  diagram i = flat_map (drawnBy a) events /\
  (ended i = true <->
   In (PublishCallback None) events /\ JSON_parse (diagramPayload a) <> None).
Proof.
  intros Hclient i.
  destruct (run_keeps events (invoke a)) as (_ & _ & _ & _ & Hp & Hd & He).
  destruct (invoke_client a) as (_ & _ & Ht & _ & Hp0 & Hd0 & He0).
  rewrite Hclient, Ht, Hp0 in Hp. rewrite Hclient, Ht, Hd0 in Hd.
  rewrite Hclient, Ht, He0 in He.
  split; [exact Hp|]. split; [exact Hd|].
  unfold i. rewrite He. cbn. rewrite andb_true_iff, existsb_exists.
  unfold drawable. split.
  - intros [(e & Hin & Hpub) Hdraw]. split.
    + destruct e as [| [error|] | error]; try discriminate. exact Hin.
    + destruct (JSON_parse (diagramPayload a)); [discriminate|].
      discriminate.
  - intros [Hin Hparse]. split.
    + exists (PublishCallback None). auto.
    + destruct (JSON_parse (diagramPayload a)); [reflexivity | congruence].
Qed.

End Properties.

Example publish_errors_logged_never_reject_witness :
  let i := @run fixtureEngine fixtureInjection
             (@invoke fixtureEngine (fixtureAction "mqtt://broker" (JNum 1)))
             [Connect; PublishCallback (Some "timeout");
              ConnectionError "ECONNRESET"] in
  promise i = Resolved /\
  errors i = [PublishFailed "t" "timeout"; ConnectionFailed "ECONNRESET"].
Proof.
  intros i.
  destruct (@publish_errors_logged_never_reject fixtureEngine
              fixtureInjection (fixtureAction "mqtt://broker" (JNum 1))
              [Connect; PublishCallback (Some "timeout");
               ConnectionError "ECONNRESET"]) as (Hconnected & _).
  destruct (Hconnected ltac:(discriminate)) as (_ & Hp & He).
  split; [exact Hp | exact He].
Defined.

(** C5, as stated, fails: the url of the action has no protocol,
    [Mqtt.connect] throws on it inside the executor of the promise, and the
    invocation is rejected, with nothing in the error log. *)
Example connect_throw_rejects_the_publish :
  let a := fixtureAction "broker" (JNum 1) in
  let i := @run fixtureEngine fixtureInjection (@invoke fixtureEngine a)
             [Connect; PublishCallback None] in
  @Mqtt_connect fixtureEngine (url a) = None /\
  promise (@invoke fixtureEngine a) = Rejected /\
  promise i = Rejected /\ errors i = [] /\ published i = [].
Proof. cbn. repeat split. Qed.

Example publish_session_witness :
  let i := @run fixtureEngine fixtureInjection
             (@invoke fixtureEngine (fixtureAction "mqtt://broker" (JNum 1)))
             [Connect; PublishCallback (Some "timeout"); Connect;
              PublishCallback None] in
  published i = [("t", Text "1"); ("t", Text "1")] /\
  diagram i = [MqttPublishArrow "t";
               MqttPublishNote (JObject [("payload", JNum 1)])] /\
  ended i = true.
Proof.
  intros i.
  destruct (@publish_session fixtureEngine fixtureInjection
              (fixtureAction "mqtt://broker" (JNum 1))
              [Connect; PublishCallback (Some "timeout"); Connect;
               PublishCallback None] eq_refl) as (Hp & Hd & He).
  split; [exact Hp|]. split; [exact Hd|].
  apply He. split; [cbn; auto | discriminate].
Defined.

(** An action without data: the text for the diagram does not parse, the
    arrow of a successful publish is left without note, and the client is
    not ended. *)
Example publish_without_data_keeps_the_client :
  let i := @run fixtureEngine fixtureInjection
             (@invoke fixtureEngine (fixtureAction "mqtt://broker" JUndefined))
             [Connect; PublishCallback None] in
  diagram i = [MqttPublishArrow "t"] /\ ended i = false /\
  promise i = Resolved.
Proof. cbn. repeat split. Qed.

End MqttPublish.

(** * WebSocket: model/WebSocketAction.ts *)

Module WebSocket.

Definition MAX_RECONNECTIONS : Z := 3.

(** The action object. [reconnected], [receivedMessages] and [wsInstance]
    are fields of the action itself; a socket is named by its rank among
    the sockets the invocation has created. *)
Record WebSocketAction : Type := {
  name : string;
  description : string;
  invokeEvenOnFail : bool;
  allowFailure : bool;
  reconnected : Z;
  serviceName : string;
  url : string;
  headers : option (JsObj string);
  data : JsValue;
  expectedNumberOfMessages : Z;
  messageFilter : option (list string);
  receivedMessages : gset string;
  wsInstance : option nat
}.

(** The fields execution writes, replaced. *)
Definition withState (r : Z) (m : gset string) (w : option nat)
    (a : WebSocketAction) : WebSocketAction :=
  {| name := name a; description := description a;
     invokeEvenOnFail := invokeEvenOnFail a; allowFailure := allowFailure a;
     reconnected := r; serviceName := serviceName a; url := url a;
     headers := headers a; data := data a;
     expectedNumberOfMessages := expectedNumberOfMessages a;
     messageFilter := messageFilter a; receivedMessages := m;
     wsInstance := w |}.

(** The configuration of an action: every field execution does not write. *)
Definition configuration (a : WebSocketAction) : WebSocketAction :=
  withState 0 ∅ None a.

Inductive DiagramEntry : Type :=
| WsMessage (source : string) (payload : JsValue).

Inductive ErrorLog : Type :=
| UnexpectedNumber (received expected : Z)
| SocketFailed (error : string).

(** The [readyState] of the current socket. *)
Inductive ReadyState : Type := CONNECTING | OPEN | CLOSED.

Inductive Event : Type :=
| Open
| Message (data : string)
| Close (closeCode : Z)
| Error (error : string).

(** One invocation: the action object, the promise of [invoke], the
    addresses of the sockets created so far, and what was sent on which
    socket. *)
Record Invocation : Type := {
  this : WebSocketAction;
  promise : Promise;
  sockets : list string;
  readyState : ReadyState;
  sent : list (nat * string);
  diagram : list DiagramEntry;
  errors : list ErrorLog
}.

Definition withPromise (p : Promise) (i : Invocation) : Invocation :=
  {| this := this i; promise := p; sockets := sockets i;
     readyState := readyState i; sent := sent i; diagram := diagram i;
     errors := errors i |}.

Definition withReadyState (s : ReadyState) (i : Invocation) : Invocation :=
  {| this := this i; promise := promise i; sockets := sockets i;
     readyState := s; sent := sent i; diagram := diagram i;
     errors := errors i |}.

Definition withThis (a : WebSocketAction) (i : Invocation) : Invocation :=
  {| this := a; promise := promise i; sockets := sockets i;
     readyState := readyState i; sent := sent i; diagram := diagram i;
     errors := errors i |}.

Definition logError (e : ErrorLog) (i : Invocation) : Invocation :=
  {| this := this i; promise := promise i; sockets := sockets i;
     readyState := readyState i; sent := sent i; diagram := diagram i;
     errors := errors i ++ [e] |}.

Section Handlers.

Context `{JsEngine} `{VariableInjection}.

Variable scenario : Scenario.

(** The address [invokeAsync] connects to: the resolved url and the resolved
    headers as a query string; [None] when resolving throws or when
    [new WebSocket] throws on the address. *)
Definition target (a : WebSocketAction) : option string :=
  resolvedUrl ← injectEvalAndVarsToString (url a) (scenario_cache scenario);
  queryParams ←
    injectEvalAndVarsToMap (optValue (headers a)) (scenario_cache scenario);
  let address :=
    String.append resolvedUrl
      (String.append "?" (querystring_stringify queryParams)) in
  _ ← new_WebSocket address;
  Some address.

(** [invokeAsync]: a new socket becomes [this.wsInstance] and gets the four
    handlers; [None] when resolving the parameters or creating the socket
    throws. *)
Definition invokeAsync (i : Invocation) : option Invocation :=
  address ← target (this i);
  Some {| this := withState (reconnected (this i)) (receivedMessages (this i))
                    (Some (length (sockets i))) (this i);
          promise := promise i;
          sockets := sockets i ++ [address];
          readyState := CONNECTING;
          sent := sent i; diagram := diagram i; errors := errors i |}.

(** [invoke]: an exception in the executor rejects the promise. *)
Definition invoke (a : WebSocketAction) : Invocation :=
  let start := {| this := a; promise := Pending; sockets := [];
                  readyState := CLOSED; sent := []; diagram := [];
                  errors := [] |} in
  match invokeAsync start with
  | Some i => i
  | None => withPromise Rejected start
  end.

Definition onOpen (i : Invocation) : Invocation :=
  let i := withReadyState OPEN i in
  if truthy (data (this i)) && Z.eqb (reconnected (this i)) 0 then
    match wsInstance (this i) with
    | Some socket =>
        {| this := this i; promise := promise i; sockets := sockets i;
           readyState := readyState i;
           sent := sent i ++ [(socket, JSON_stringify (data (this i)))];
           diagram := diagram i; errors := errors i |}
    | None => i
    end
  else i.

(** The message handler; [None] when parsing or a filter throws. *)
Definition onMessage (data : string) (i : Invocation) : option Invocation :=
  parsedMessage ← JSON_parse data;
  relevant ← isMessageRelevant scenario (messageFilter (this i)) parsedMessage;
  if (relevant : bool) then
    Some {| this := withState (reconnected (this i))
                      ({[data]} ∪ receivedMessages (this i))
                      (wsInstance (this i)) (this i);
            promise := promise i; sockets := sockets i;
            readyState := readyState i; sent := sent i;
            diagram := diagram i ++
              [WsMessage (serviceName (this i)) parsedMessage];
            errors := errors i |}
  else Some i.

Definition onClose (closeCode : Z) (i : Invocation) : Invocation :=
  let i := withReadyState CLOSED i in
  if Z.eqb closeCode 1006 && Z.leb (reconnected (this i)) MAX_RECONNECTIONS
  then
    let i := withThis (withState (reconnected (this i) + 1)
                         (receivedMessages (this i)) (wsInstance (this i))
                         (this i)) i in
    default i (invokeAsync i)
  else
    let received := Z.of_nat (size (receivedMessages (this i))) in
    let expected := expectedNumberOfMessages (this i) in
    if negb (Z.eqb received expected) then
      withPromise (reject (promise i))
        (logError (UnexpectedNumber received expected) i)
    else withPromise (resolve (promise i)) i.

Definition onError (error : string) (i : Invocation) : Invocation :=
  withPromise (reject (promise i)) (logError (SocketFailed error) i).

(** Dispatch of one event; an invocation that has created no socket has
    no emitter. *)
Definition handle (i : Invocation) (e : Event) : Invocation :=
  match sockets i with
  | [] => i
  | _ :: _ =>
      match e with
      | Open => onOpen i
      | Message data => default i (onMessage data i)
      | Close closeCode => onClose closeCode i
      | Error error => onError error i
      end
  end.

Definition run (i : Invocation) (events : list Event) : Invocation :=
  fold_left handle events i.

(** What the ws library can deliver to the current socket: it opens only
    while connecting, receives only while open, and closes once. *)
Definition deliverable (i : Invocation) (e : Event) : bool :=
  match e, readyState i with
  | Open, CONNECTING => true
  | Message _, OPEN => true
  | Close _, (CONNECTING | OPEN) => true
  | Error _, _ => true
  | _, _ => false
  end.

Fixpoint deliverableAll (i : Invocation) (events : list Event) : bool :=
  match events with
  | [] => true
  | e :: rest => deliverable i e && deliverableAll (handle i e) rest
  end.

End Handlers.

Definition fixtureAction (expected : Z) (payload : JsValue)
    : WebSocketAction :=
  {| name := "ws"; description := "ws"; invokeEvenOnFail := false;
     allowFailure := false; reconnected := 0; serviceName := "service";
     url := "ws://service/socket"; headers := None; data := payload;
     expectedNumberOfMessages := expected; messageFilter := None;
     receivedMessages := ∅; wsInstance := None |}.

Section Properties.

Context `{JsEngine} `{VariableInjection}.

Variable scenario : Scenario.

Lemma target_configuration (a b : WebSocketAction) :
  configuration a = configuration b ->
  target scenario a = target scenario b.
Proof.
  intros Hc. unfold target.
  injection Hc as _ _ _ _ _ Hu Hh _ _ _. now rewrite Hu, Hh.
Qed.

Lemma invokeAsync_configuration (i i' : Invocation) :
  invokeAsync scenario i = Some i' ->
  configuration (this i') = configuration (this i).
Proof.
  unfold invokeAsync. destruct (target scenario (this i)); cbn; [|discriminate].
  intros [= <-]. reflexivity.
Qed.

(** No handler writes a configuration field of the action. *)
Lemma socket_handle_configuration (i : Invocation) (e : Event) :
  configuration (this (handle scenario i e)) = configuration (this i).
Proof.
  unfold handle. destruct (sockets i); [reflexivity|].
  destruct e as [| data | closeCode | error]; cbn.
  - unfold onOpen. cbn.
    destruct (truthy _ && _); [destruct (wsInstance (this i))|]; reflexivity.
  - unfold onMessage. destruct (JSON_parse data) as [parsed|]; cbn;
      [|reflexivity].
    destruct (isMessageRelevant scenario _ parsed) as [[|]|]; reflexivity.
  - unfold onClose. cbn.
    destruct (Z.eqb closeCode 1006 && _).
    + destruct (invokeAsync scenario _) as [i'|] eqn:Hi; cbn; [|reflexivity].
      now rewrite (invokeAsync_configuration _ _ Hi).
    + destruct (negb _); reflexivity.
  - reflexivity.
Qed.

Lemma socket_run_configuration (events : list Event) : forall (i : Invocation),
  configuration (this (run scenario i events)) = configuration (this i).
Proof.
  induction events as [|e events IH]; intros i; [reflexivity|].
  cbn. unfold run in IH. now rewrite IH, socket_handle_configuration.
Qed.

(** What holds of the payload along an invocation of an action that has not
    reconnected before: nothing is sent while the first socket connects, and
    afterwards at most the one payload of the first socket is on record. *)
Definition payloadOnce (a : WebSocketAction) (i : Invocation) : Prop :=
  let once := sent i = [] \/ sent i = [(0%nat, JSON_stringify (data a))] in
  (sockets i = [] /\ sent i = []) \/
  (sockets i <> [] /\ reconnected (this i) = 0 /\
   wsInstance (this i) = Some 0%nat /\
   (readyState i = CONNECTING -> sent i = []) /\ once) \/
  (sockets i <> [] /\ 0 < reconnected (this i) /\ once).

Lemma payloadOnce_invoke (a : WebSocketAction) :
  reconnected a = 0 -> payloadOnce a (invoke scenario a).
Proof.
  intros Hr. unfold invoke, invokeAsync. cbn.
  destruct (target scenario a) as [address|]; cbn.
  - right. left. cbn. repeat split; auto; discriminate.
  - left. auto.
Qed.

Lemma payloadOnce_handle (a : WebSocketAction) (i : Invocation) (e : Event) :
  data (this i) = data a ->
  deliverable i e = true ->
  payloadOnce a i -> payloadOnce a (handle scenario i e).
Proof.
  intros Hd Hdel Hinv. unfold handle.
  destruct (sockets i) as [|s0 ss] eqn:Hs; [exact Hinv|].
  assert (Hne : s0 :: ss <> []) by discriminate.
  destruct Hinv as [[Hnil _]|Hinv]; [congruence|].
  destruct e as [| msg | closeCode | error]; cbn.
  - (* open *)
    unfold deliverable in Hdel.
    destruct (readyState i) eqn:Hrs; try discriminate.
    unfold onOpen. cbn. right.
    destruct Hinv as [(_ & Hr & Hw & Hc & _)|(_ & Hr & Honce)].
    + left. rewrite Hr, Hw, (Hc eq_refl), Hd. cbn.
      rewrite andb_true_r.
      destruct (truthy (data a)); cbn; rewrite ?Hs, ?Hr, ?Hw;
        repeat split; auto; discriminate.
    + right. replace (Z.eqb (reconnected (this i)) 0) with false
        by (symmetry; apply Z.eqb_neq; lia).
      rewrite andb_false_r. cbn. rewrite Hs. auto.
  - (* message *)
    unfold onMessage. destruct (JSON_parse msg) as [parsed|]; cbn;
      [|right; exact Hinv].
    destruct (isMessageRelevant scenario _ parsed) as [[|]|]; cbn;
      right; exact Hinv.
  - (* close *)
    assert (Honce : sent i = [] \/ sent i = [(0%nat, JSON_stringify (data a))])
      by (destruct Hinv as [(_ & _ & _ & _ & Ho)|(_ & _ & Ho)]; exact Ho).
    assert (Hpos : 0 <= reconnected (this i))
      by (destruct Hinv as [(_ & Hr & _)|(_ & Hr & _)]; lia).
    unfold onClose. cbn.
    destruct (Z.eqb closeCode 1006 && _).
    + right. right. unfold invokeAsync. cbn.
      destruct (target scenario _); cbn; rewrite Hs;
        repeat split; auto; try lia; try discriminate;
        destruct ss; discriminate.
    + right.
      destruct Hinv as [(_ & Hr & Hw & _ & _)|(_ & Hr & _)]; [left | right];
        destruct (negb _); cbn; rewrite Hs; repeat split; auto; discriminate.
  - (* error *)
    right. destruct Hinv as [(_ & Hr & Hw & Hc & Ho)|(_ & Hr & Ho)];
      [left | right]; cbn; rewrite Hs; auto.
Qed.

Lemma handle_data (i : Invocation) (e : Event) :
  data (this (handle scenario i e)) = data (this i).
Proof.
  change (data (configuration (this (handle scenario i e)))
          = data (configuration (this i))).
  now rewrite socket_handle_configuration.
Qed.

Lemma payloadOnce_run (a : WebSocketAction) (events : list Event) :
  forall (i : Invocation),
  data (this i) = data a ->
  deliverableAll scenario i events = true ->
  payloadOnce a i -> payloadOnce a (run scenario i events).
Proof.
  induction events as [|e events IH]; intros i Hd Hdel Hinv; [exact Hinv|].
  cbn in *. apply andb_prop in Hdel as [He Hrest].
  apply IH; [now rewrite handle_data | exact Hrest |].
  now apply payloadOnce_handle.
Qed.

Lemma handle_sockets (i : Invocation) (e : Event) :
  sockets i <> [] -> sockets (handle scenario i e) <> [].
Proof.
  intros Hne. unfold handle. destruct (sockets i) as [|s0 ss] eqn:Hs;
    [congruence|].
  destruct e as [| msg | closeCode | error]; cbn; try (rewrite Hs; discriminate).
  - unfold onOpen. cbn.
    destruct (truthy _ && _); [destruct (wsInstance (this i))|]; cbn;
      rewrite Hs; discriminate.
  - unfold onMessage. destruct (JSON_parse msg) as [parsed|]; cbn;
      [|rewrite Hs; discriminate].
    destruct (isMessageRelevant scenario _ parsed) as [[|]|]; cbn;
      rewrite Hs; discriminate.
  - unfold onClose, invokeAsync. cbn.
    destruct (Z.eqb closeCode 1006 && _).
    + destruct (target scenario _); cbn; rewrite Hs; discriminate.
    + destruct (negb _); cbn; rewrite Hs; discriminate.
Qed.

Lemma run_sockets (events : list Event) : forall (i : Invocation),
  sockets i <> [] -> sockets (run scenario i events) <> [].
Proof.
  induction events as [|e events IH]; intros i Hne; [exact Hne|].
  cbn. apply IH, handle_sockets, Hne.
Qed.

(** Once the action has reconnected, no handler sends anything. *)
Lemma handle_after_reconnect (i : Invocation) (e : Event) :
  0 < reconnected (this i) ->
  sent (handle scenario i e) = sent i /\
  0 < reconnected (this (handle scenario i e)).
Proof.
  intros Hr. unfold handle. destruct (sockets i); [auto|].
  destruct e as [| msg | closeCode | error]; cbn; auto.
  - unfold onOpen. cbn.
    replace (Z.eqb (reconnected (this i)) 0) with false
      by (symmetry; apply Z.eqb_neq; lia).
    rewrite andb_false_r. auto.
  - unfold onMessage. destruct (JSON_parse msg) as [parsed|]; cbn; [|auto].
    destruct (isMessageRelevant scenario _ parsed) as [[|]|]; cbn; auto.
  - unfold onClose, invokeAsync. cbn.
    destruct (Z.eqb closeCode 1006 && _).
    + destruct (target scenario _); cbn; split; auto; lia.
    + destruct (negb _); cbn; auto.
Qed.

Lemma run_after_reconnect (events : list Event) : forall (i : Invocation),
  0 < reconnected (this i) -> sent (run scenario i events) = sent i.
Proof.
  induction events as [|e events IH]; intros i Hr; [reflexivity|].
  cbn. destruct (handle_after_reconnect i e Hr) as [Hs Hr'].
  unfold run in IH. now rewrite IH.
Qed.

Lemma invoke_connected (a : WebSocketAction) (address : string) :
  target scenario a = Some address ->
  invoke scenario a =
    {| this := withState (reconnected a) (receivedMessages a) (Some 0%nat) a;
       promise := Pending; sockets := [address]; readyState := CONNECTING;
       sent := []; diagram := []; errors := [] |}.
Proof.
  intros Ht. unfold invoke, invokeAsync. cbn. now rewrite Ht.
Qed.

Lemma run_app (events later : list Event) (i : Invocation) :
  run scenario i (events ++ later)
    = run scenario (run scenario i events) later.
Proof. unfold run. apply fold_left_app. Qed.

(** C4 (amended): take a WebSocket invocation whose socket is created, at
    any point the ws library can bring it to. A close with code 1006 there
    is decided by the reconnection count of the action, which [invoke] does
    not reset: with at most 3 reconnections used (fewer than 3 included) it
    adds one to the count and opens exactly one new socket to the same
    address, leaving the promise and the payload record untouched; with
    more than 3 used it opens no socket and settles the promise. For an
    action that has not reconnected before, the payload is on record at
    most once, on the first socket; it is sent by an open that comes while
    the count is still 0, when one is configured, and no event after a
    1006 close sends anything. For an action that has reconnected in an
    earlier invocation, nothing is sent at all, not even on the first
    open. *)
Theorem abnormal_closure_reconnects_once
    (a : WebSocketAction) (address : string) (events later : list Event) :
  target scenario a = Some address ->
  deliverableAll scenario (invoke scenario a) events = true ->
  let i := run scenario (invoke scenario a) events in
  let i' := handle scenario i (Close 1006) in
  (reconnected (this i) <= MAX_RECONNECTIONS ->
   reconnected (this i') = reconnected (this i) + 1 /\
   sockets i' = sockets i ++ [address] /\
   promise i' = promise i /\
   sent i' = sent i) /\
  (MAX_RECONNECTIONS < reconnected (this i) ->
   reconnected (this i') = reconnected (this i) /\
   sockets i' = sockets i /\
   sent i' = sent i /\
   promise i' <> Pending) /\
  (reconnected a = 0 ->
   (sent i = [] \/ sent i = [(0%nat, JSON_stringify (data a))]) /\
   sent (run scenario i' later) = sent i' /\
   (truthy (data a) = true ->
    reconnected (this i) = 0 -> readyState i = CONNECTING ->
    sent (handle scenario i Open) = [(0%nat, JSON_stringify (data a))])) /\
  (0 < reconnected a ->
   sent i = [] /\ sent (run scenario i (Open :: later)) = []).
Proof.
  intros Htarget Hdel i i'.
  assert (Hcfg : configuration (this i) = configuration a).
  { unfold i. rewrite socket_run_configuration, (invoke_connected _ _ Htarget).
    reflexivity. }
  assert (Hdata : data (this i) = data a).
  { change (data (configuration (this i)) = data (configuration a)).
    now rewrite Hcfg. }
  assert (Hne : sockets i <> []).
  { apply run_sockets. rewrite (invoke_connected _ _ Htarget). discriminate. }
  assert (Hreconnect : reconnected (this i) <= MAX_RECONNECTIONS ->
            i' = {| this := withState (reconnected (this i) + 1)
                              (receivedMessages (this i))
                              (Some (length (sockets i))) (this i);
                    promise := promise i; sockets := sockets i ++ [address];
                    readyState := CONNECTING; sent := sent i;
                    diagram := diagram i; errors := errors i |}).
  { intros Hfew. unfold i', handle.
    destruct (sockets i) as [|s0 ss] eqn:Hs; [congruence|].
    unfold onClose, invokeAsync. cbn.
    replace (Z.leb (reconnected (this i)) MAX_RECONNECTIONS) with true
      by (symmetry; apply Z.leb_le; lia).
    cbn.
    rewrite (target_configuration _ a) by (rewrite <- Hcfg; reflexivity).
    rewrite Htarget. cbn. rewrite Hs. reflexivity. }
  assert (Hexhausted : MAX_RECONNECTIONS < reconnected (this i) ->
            reconnected (this i') = reconnected (this i) /\
            sockets i' = sockets i /\ sent i' = sent i /\
            promise i' <> Pending).
  { intros Hmany. unfold i', handle.
    destruct (sockets i) as [|s0 ss] eqn:Hs; [congruence|].
    unfold onClose. cbn.
    replace (Z.leb (reconnected (this i)) MAX_RECONNECTIONS) with false
      by (symmetry; apply Z.leb_gt; lia).
    cbn. destruct (negb _); cbn; rewrite ?Hs;
      (repeat split; auto; destruct (promise i); cbn; discriminate). }
  split; [intros Hfew; rewrite (Hreconnect Hfew); cbn; auto|].
  split; [exact Hexhausted|].
  split.
  - intros Hfresh.
    assert (Hinv : payloadOnce a i).
    { apply payloadOnce_run; [|exact Hdel|apply payloadOnce_invoke, Hfresh].
      rewrite (invoke_connected _ _ Htarget). reflexivity. }
    assert (Hpos : 0 <= reconnected (this i)).
    { destruct Hinv as [[Hnil _]|[(_ & Hr & _)|(_ & Hr & _)]];
        [congruence | lia | lia]. }
    split.
    { destruct Hinv as [[Hnil _]|[(_ & _ & _ & _ & Ho)|(_ & _ & Ho)]];
        [congruence | exact Ho | exact Ho]. }
    split.
    { apply run_after_reconnect.
      destruct (Z.leb_spec (reconnected (this i)) MAX_RECONNECTIONS)
        as [Hfew|Hmany].
      - rewrite (Hreconnect Hfew). cbn. lia.
      - destruct (Hexhausted Hmany) as (Hr & _). rewrite Hr.
        unfold MAX_RECONNECTIONS in Hmany. lia. }
    intros Htruthy Hzero Hconnecting.
    destruct Hinv as [[Hnil _]|[(_ & _ & Hw & Hc & _)|(_ & Hr & _)]];
      [congruence | | lia].
    unfold handle. destruct (sockets i) as [|s0 ss]; [congruence|].
    unfold onOpen. cbn. rewrite Hdata, Htruthy, Hzero, Hw, (Hc Hconnecting).
    reflexivity.
  - intros Hused.
    assert (Hstart : 0 < reconnected (this (invoke scenario a)) /\
                     sent (invoke scenario a) = []).
    { rewrite (invoke_connected _ _ Htarget). cbn. auto. }
    destruct Hstart as [Hr Hs]. split.
    + unfold i. now rewrite run_after_reconnect.
    + unfold i. rewrite <- run_app. now rewrite run_after_reconnect.
Qed.

End Properties.

(** The bound is tested with [<=]: the close handler still reconnects when
    three reconnections have been used, and stops at four. *)
Example reconnects_with_three_used :
  let closedAt (used : Z) :=
    @handle fixtureEngine fixtureInjection fixtureScenario
      {| this := withState used ∅ (Some 0%nat)
                   (fixtureAction 0 JUndefined);
         promise := Pending; sockets := ["ws://service/socket?"];
         readyState := OPEN; sent := []; diagram := []; errors := [] |}
      (Close 1006) in
  length (sockets (closedAt 3)) = 2%nat /\ promise (closedAt 3) = Pending /\
  length (sockets (closedAt 4)) = 1%nat /\ promise (closedAt 4) = Resolved.
Proof. vm_compute. auto. Qed.

Example abnormal_closure_reconnects_once_witness :
  let a := fixtureAction 1 (JNum 1) in
  let i := @run fixtureEngine fixtureInjection fixtureScenario
             (@invoke fixtureEngine fixtureInjection fixtureScenario a)
             [Open; Message "{}"; Close 1006; Open] in
  let i' := @handle fixtureEngine fixtureInjection fixtureScenario i
              (Close 1006) in
  reconnected (this i') = 2 /\ length (sockets i') = 3%nat /\
  sent i' = [(0%nat, "1")].
Proof.
  intros a i i'.
  destruct (@abnormal_closure_reconnects_once fixtureEngine fixtureInjection
              fixtureScenario a "ws://service/socket?"
              [Open; Message "{}"; Close 1006; Open] []
              eq_refl eq_refl)
    as (Hreconnect & _).
  destruct (Hreconnect ltac:(vm_compute; discriminate))
    as (Hr & Hs & _ & Hsent).
  fold i in Hr, Hs, Hsent. fold i' in Hr, Hs, Hsent.
  rewrite Hr, Hs, Hsent. vm_compute. auto.
Defined.

(** C4, as stated, fails for an action that is invoked again. The first
    invocation loses its first socket with code 1006, reconnects once and
    succeeds; the payload was sent on its first open. The action keeps the
    reconnection count 1, so in the second invocation the first open sends
    nothing. And after an invocation that has used its four reconnections,
    a 1006 close of the next invocation does not reconnect: it settles the
    promise on its one socket. *)
Example reinvoked_action_neither_sends_nor_reconnects :
  let a := fixtureAction 1 (JNum 1) in
  let first :=
    @run fixtureEngine fixtureInjection fixtureScenario
      (@invoke fixtureEngine fixtureInjection fixtureScenario a)
      [Open; Message "{}"; Close 1006; Open; Close 1000] in
  let second :=
    @run fixtureEngine fixtureInjection fixtureScenario
      (@invoke fixtureEngine fixtureInjection fixtureScenario (this first))
      [Open] in
  let worn :=
    @run fixtureEngine fixtureInjection fixtureScenario
      (@invoke fixtureEngine fixtureInjection fixtureScenario a)
      [Close 1006; Close 1006; Close 1006; Close 1006; Open; Message "{}";
       Close 1000] in
  let third :=
    @run fixtureEngine fixtureInjection fixtureScenario
      (@invoke fixtureEngine fixtureInjection fixtureScenario (this worn))
      [Open; Close 1006] in
  promise first = Resolved /\ sent first = [(0%nat, "1")] /\
  reconnected (this first) = 1 /\
  truthy (data (this first)) = true /\ readyState second = OPEN /\
  sent second = [] /\
  promise worn = Resolved /\ reconnected (this worn) = 4 /\
  length (sockets third) = 1%nat /\ promise third <> Pending.
Proof. vm_compute. repeat split; discriminate. Qed.

(** ** The session beyond the reconnect *)

Section Session.

Context `{JsEngine} `{VariableInjection}.

Variable scenario : Scenario.

(** The text a message event adds to [receivedMessages]: that of a message
    that parses and is relevant. *)
Definition relevantText (a : WebSocketAction) (e : Event) : option string :=
  match e with
  | Message data =>
      match JSON_parse data with
      | Some parsedMessage =>
          match isMessageRelevant scenario (messageFilter a) parsedMessage with
          | Some true => Some data
          | _ => None
          end
      | None => None
      end
  | _ => None
  end.

Lemma relevantText_configuration (a b : WebSocketAction) (e : Event) :
  configuration a = configuration b ->
  relevantText a e = relevantText b e.
Proof.
  intros Hc. unfold relevantText.
  injection Hc as _ _ _ _ _ _ _ _ _ Hf. now rewrite Hf.
Qed.

#[local] Set Warnings "-clear-no-such-hyp".

Lemma handle_received (i : Invocation) (e : Event) :
  sockets i <> [] ->
  receivedMessages (this (handle scenario i e)) =
    receivedMessages (this i)
    ∪ list_to_set (omap (relevantText (this i)) [e]).
Proof.
  intros Hne. unfold handle. destruct (sockets i) as [|s0 ss]; [congruence|].
  destruct e as [| data | closeCode | error]; cbn.
  - unfold onOpen. cbn.
    destruct (truthy _ && _); [destruct (wsInstance (this i))|]; cbn;
      set_solver.
  - unfold onMessage. destruct (JSON_parse data) as [parsed|]; cbn;
      [|set_solver].
    destruct (isMessageRelevant scenario _ parsed) as [[|]|]; cbn; set_solver.
  - unfold onClose, invokeAsync. cbn.
    destruct (Z.eqb closeCode 1006 && _).
    + destruct (target scenario _); cbn; set_solver.
    + destruct (negb _); cbn; set_solver.
  - set_solver.
Qed.

Lemma run_received (events : list Event) : forall (i : Invocation),
  sockets i <> [] ->
  receivedMessages (this (run scenario i events)) =
    receivedMessages (this i)
    ∪ list_to_set (omap (relevantText (this i)) events).
Proof.
  induction events as [|e events IH]; intros i Hne.
  - cbn. set_solver.
  - cbn [run fold_left]. unfold run in IH.
    rewrite IH by now apply handle_sockets.
    rewrite handle_received by exact Hne.
    assert (Hsame : omap (relevantText (this (handle scenario i e))) events
                    = omap (relevantText (this i)) events).
    { clear. induction events as [|e' events IH]; [reflexivity|].
      cbn. rewrite IH.
      now rewrite (relevantText_configuration _ (this i) e')
        by apply socket_handle_configuration. }
    rewrite Hsame. cbn.
    destruct (relevantText (this i) e); cbn; set_solver.
Qed.

#[local] Set Warnings "clear-no-such-hyp".

Lemma handle_reconnected (i : Invocation) (e : Event) :
  0 <= reconnected (this i) <= MAX_RECONNECTIONS + 1 ->
  Z.of_nat (length (sockets i)) <= reconnected (this i) + 1 ->
  0 <= reconnected (this (handle scenario i e)) <= MAX_RECONNECTIONS + 1 /\
  Z.of_nat (length (sockets (handle scenario i e)))
    <= reconnected (this (handle scenario i e)) + 1.
Proof.
  intros Hr Hs. unfold handle. destruct (sockets i) as [|s0 ss] eqn:Hsock;
    [rewrite Hsock; auto|].
  destruct e as [| data | closeCode | error]; cbn; rewrite ?Hsock; auto.
  - unfold onOpen. cbn.
    destruct (truthy _ && _); [destruct (wsInstance (this i))|]; cbn;
      rewrite ?Hsock; auto.
  - unfold onMessage. destruct (JSON_parse data) as [parsed|]; cbn;
      [|rewrite ?Hsock; auto].
    destruct (isMessageRelevant scenario _ parsed) as [[|]|]; cbn;
      rewrite ?Hsock; auto.
  - unfold onClose, invokeAsync. cbn.
    destruct (Z.eqb closeCode 1006) eqn:Hcode; cbn.
    + destruct (Z.leb_spec (reconnected (this i)) MAX_RECONNECTIONS); cbn.
      * destruct (target scenario _); cbn; rewrite ?Hsock;
          rewrite ?length_app; cbn in *; lia.
      * destruct (negb _); cbn; rewrite ?Hsock; auto.
    + destruct (negb _); cbn; rewrite ?Hsock; auto.
Qed.

(** A promise that is settled stays as it is. *)
Lemma socket_handle_settled (i : Invocation) (e : Event) :
  promise i <> Pending -> promise (handle scenario i e) = promise i.
Proof.
  intros Hp. unfold handle. destruct (sockets i); [reflexivity|].
  destruct e as [| data | closeCode | error]; cbn.
  - unfold onOpen. cbn.
    destruct (truthy _ && _); [destruct (wsInstance (this i))|]; reflexivity.
  - unfold onMessage. destruct (JSON_parse data) as [parsed|]; cbn;
      [|reflexivity].
    destruct (isMessageRelevant scenario _ parsed) as [[|]|]; reflexivity.
  - unfold onClose, invokeAsync. cbn.
    destruct (Z.eqb closeCode 1006 && _).
    + destruct (target scenario _); reflexivity.
    + destruct (negb _); cbn; destruct (promise i); cbn; congruence.
  - destruct (promise i); cbn; congruence.
Qed.

Lemma socket_run_settled (events : list Event) : forall (i : Invocation),
  promise i <> Pending -> promise (run scenario i events) = promise i.
Proof.
  induction events as [|e events IH]; intros i Hp; [reflexivity|].
  cbn. unfold run in IH. rewrite IH; rewrite socket_handle_settled; auto.
Qed.

(** X7: along an invocation of an action that has not reconnected before,
    the reconnection count stays between 0 and 4 and the invocation has
    created at most one socket more than it has reconnected, so at most
    five; once four reconnections are used, a close with code 1006 settles
    the promise instead of reconnecting. *)
Theorem reconnections_are_bounded (a : WebSocketAction) (events : list Event) :
  reconnected a = 0 ->
  let i := run scenario (invoke scenario a) events in
  0 <= reconnected (this i) <= MAX_RECONNECTIONS + 1 /\
  (length (sockets i) <= 5)%nat /\
  (reconnected (this i) = MAX_RECONNECTIONS + 1 -> sockets i <> [] ->
   promise (handle scenario i (Close 1006)) <> Pending /\
   sockets (handle scenario i (Close 1006)) = sockets i).
Proof.
  intros Hfresh i.
  assert (Hrun : forall (events : list Event) (j : Invocation),
            0 <= reconnected (this j) <= MAX_RECONNECTIONS + 1 /\
            Z.of_nat (length (sockets j)) <= reconnected (this j) + 1 ->
            0 <= reconnected (this (run scenario j events))
              <= MAX_RECONNECTIONS + 1 /\
            Z.of_nat (length (sockets (run scenario j events)))
              <= reconnected (this (run scenario j events)) + 1).
  { clear. induction events as [|e events IH]; intros j Hj; [exact Hj|].
    cbn. apply IH. destruct Hj. now apply handle_reconnected. }
  assert (Hinv : 0 <= reconnected (this i) <= MAX_RECONNECTIONS + 1 /\
                 Z.of_nat (length (sockets i)) <= reconnected (this i) + 1).
  { apply Hrun. unfold invoke, invokeAsync. cbn.
    destruct (target scenario a); cbn; rewrite Hfresh;
      unfold MAX_RECONNECTIONS; lia. }
  destruct Hinv as [Hr Hs]. split; [exact Hr|].
  split; [unfold MAX_RECONNECTIONS in *; lia|].
  intros Hmax Hne. unfold handle.
  destruct (sockets i) as [|s0 ss] eqn:Hsock; [congruence|].
  unfold onClose. cbn. rewrite Hmax.
  change (Z.leb (MAX_RECONNECTIONS + 1) MAX_RECONNECTIONS) with false. cbn.
  destruct (negb _); cbn; rewrite ?Hsock;
    (split; [destruct (promise i); cbn; discriminate | reflexivity]).
Qed.

(** X8: the received messages of the action after any events are those it
    had, together with the texts of the delivered messages that parse and
    are relevant: a text delivered twice is in the set once, and nothing is
    lost when the invocation reconnects. *)
Theorem received_messages_are_the_relevant_texts
    (a : WebSocketAction) (address : string) (events : list Event) :
  target scenario a = Some address ->
  receivedMessages (this (run scenario (invoke scenario a) events)) =
    receivedMessages a ∪ list_to_set (omap (relevantText a) events).
Proof.
  intros Ht. rewrite run_received.
  - rewrite (invoke_connected _ _ _ Ht). reflexivity.
  - rewrite (invoke_connected _ _ _ Ht). discriminate.
Qed.

(** X9: a close that does not reconnect (any code but 1006, or 1006 with
    all reconnections used) decides a pending invocation by the size of the
    set of received messages: it resolves if and only if that size equals
    the expected number, and rejects otherwise. *)
Theorem final_close_decides (i : Invocation) (closeCode : Z) :
  sockets i <> [] ->
  promise i = Pending ->
  closeCode <> 1006 \/ MAX_RECONNECTIONS < reconnected (this i) ->
  let closed := handle scenario i (Close closeCode) in
  let received := Z.of_nat (size (receivedMessages (this i))) in
  (promise closed = Resolved <->
   received = expectedNumberOfMessages (this i)) /\
  (received <> expectedNumberOfMessages (this i) ->
   promise closed = Rejected) /\
  sockets closed = sockets i.
Proof.
  intros Hne Hp Hfinal closed received. unfold closed, handle.
  destruct (sockets i) as [|s0 ss] eqn:Hsock; [congruence|].
  unfold onClose. cbn.
  replace (Z.eqb closeCode 1006
           && Z.leb (reconnected (this i)) MAX_RECONNECTIONS) with false.
  - fold received.
    destruct (Z.eqb_spec received (expectedNumberOfMessages (this i)));
      cbn; rewrite Hp, Hsock; cbn; repeat split; auto; congruence.
  - symmetry. apply andb_false_iff.
    destruct Hfinal as [Hcode|Hmax];
      [left; now apply Z.eqb_neq | right; apply Z.leb_gt; lia].
Qed.

(** X10: an error event fails an invocation that has not succeeded yet, for
    good: whatever is delivered afterwards, a close with the expected
    number of messages included, the promise stays rejected. *)
Theorem socket_error_fails_for_good
    (i : Invocation) (error : string) (later : list Event) :
  sockets i <> [] ->
  promise i <> Resolved ->
  promise (run scenario (handle scenario i (Error error)) later) = Rejected.
Proof.
  intros Hne Hp.
  assert (Hrej : promise (handle scenario i (Error error)) = Rejected).
  { unfold handle. destruct (sockets i); [congruence|]. cbn.
    destruct (promise i); cbn; congruence. }
  rewrite socket_run_settled; [exact Hrej | rewrite Hrej; discriminate].
Qed.

End Session.

Example reconnections_are_bounded_witness :
  let i := @run fixtureEngine fixtureInjection fixtureScenario
             (@invoke fixtureEngine fixtureInjection fixtureScenario
                (fixtureAction 0 JUndefined))
             [Close 1006; Close 1006; Close 1006; Close 1006; Close 1006] in
  0 <= reconnected (this i) <= 4 /\ (length (sockets i) <= 5)%nat /\
  promise i = Resolved.
Proof.
  intros i.
  destruct (@reconnections_are_bounded fixtureEngine fixtureInjection
              fixtureScenario (fixtureAction 0 JUndefined)
              [Close 1006; Close 1006; Close 1006; Close 1006; Close 1006]
              eq_refl) as (Hr & Hs & _).
  split; [exact Hr|]. split; [exact Hs|]. vm_compute. reflexivity.
Defined.

Example received_messages_are_the_relevant_texts_witness :
  size (receivedMessages
          (this (@run fixtureEngine fixtureInjection fixtureScenario
                   (@invoke fixtureEngine fixtureInjection fixtureScenario
                      (fixtureAction 1 JUndefined))
                   [Open; Message "{}"; Close 1006; Open; Message "{}"])))
    = 1%nat.
Proof.
  rewrite (@received_messages_are_the_relevant_texts fixtureEngine
             fixtureInjection fixtureScenario (fixtureAction 1 JUndefined)
             "ws://service/socket?" _ eq_refl).
  vm_compute. reflexivity.
Defined.

Example final_close_decides_witness :
  let i := @run fixtureEngine fixtureInjection fixtureScenario
             (@invoke fixtureEngine fixtureInjection fixtureScenario
                (fixtureAction 1 JUndefined))
             [Open; Message "{}"; Message "{}"] in
  promise (@handle fixtureEngine fixtureInjection fixtureScenario i
             (Close 1000)) = Resolved.
Proof.
  intros i.
  destruct (@final_close_decides fixtureEngine fixtureInjection
              fixtureScenario i 1000 ltac:(discriminate) eq_refl
              ltac:(left; discriminate)) as (Hiff & _).
  apply Hiff. vm_compute. reflexivity.
Defined.

Example socket_error_fails_for_good_witness :
  let i := @run fixtureEngine fixtureInjection fixtureScenario
             (@invoke fixtureEngine fixtureInjection fixtureScenario
                (fixtureAction 1 JUndefined))
             [Open; Message "{}"] in
  promise (@run fixtureEngine fixtureInjection fixtureScenario
             (@handle fixtureEngine fixtureInjection fixtureScenario i
                (Error "ECONNRESET"))
             [Close 1000]) = Rejected.
Proof.
  intros i.
  apply (@socket_error_fails_for_good fixtureEngine fixtureInjection
           fixtureScenario i "ECONNRESET" [Close 1000]); discriminate.
Defined.

End WebSocket.

(** * REST: model/RestAction.ts *)

Module Rest.

(** [data] of an action: [loadData] tells an array from a dictionary. *)
Inductive Data : Type :=
| DataArray (items : list JsValue)
| DataObject (fields : JsObj JsValue).

(** [RestActionDefinition]: the keys of a definition, [None] for a key the
    definition does not have. *)
Record RestActionDefinition : Type := {
  def_name : string;
  def_description : option string;
  def_method : option string;
  def_queryParameters : option (JsObj string);
  def_headers : option (JsObj string);
  def_data : option Data;
  def_dataBinary : option string;
  def_form : option (JsObj string);
  def_variableAsPayload : option string;
  def_responseValidation : option (list string);
  def_variables : option (JsObj string);
  def_expectedStatusCodes : option (list Z);
  def_invokeEvenOnFail : option bool;
  def_allowFailure : option bool;
  def_clientCertificate : option string;
  def_clientKey : option string;
  def_expectBinaryResponse : option bool;
  def_diagramConfiguration : option JsValue
}.

(** The action; every field is [readonly]. [None] in an optional field is
    [undefined] or [null], which the code never tells apart once the action
    is built. The constructor always stores an array in
    [responseValidation]. *)
Record RestAction : Type := {
  serviceName : string;
  name : string;
  description : string;
  url : string;
  method : option string;
  queryParameters : JsObj string;
  restHead : option (JsObj string);
  data : option Data;
  dataBinary : option string;
  form : option (JsObj string);
  variableAsPayload : option string;
  responseValidation : list string;
  variables : option (JsObj string);
  expectedStatusCodes : list Z;
  invokeEvenOnFail : bool;
  allowFailure : bool;
  clientCertificate : option string;
  clientKey : option string;
  expectBinaryResponse : bool;
  diagramConfiguration : JsValue
}.

(** An argument of the constructor: a default parameter value is taken
    exactly when the argument is [undefined]; [null] is an argument like
    any other. *)
Inductive Arg (A : Type) : Type :=
| Undefined
| Given (a : A).

Arguments Undefined {A}.
Arguments Given {A} a.

Definition orDefault {A} (arg : Arg A) (d : A) : A :=
  match arg with Undefined => d | Given a => a end.

(** An expression that is [undefined] when it has no value. *)
Definition ofOption {A} (o : option A) : Arg (option A) :=
  match o with Some a => Given (Some a) | None => Undefined end.

(** [a ?? b] *)
Definition nullish {A} (a b : option A) : option A :=
  match a with Some _ => a | None => b end.

(** The constructor, with its default parameter values. *)
Definition new_RestAction (name : string) (desc : Arg string)
    (actionDef : RestActionDefinition) (url serviceName : string)
    (restMethod : Arg (option string))
    (queryParameters : Arg (JsObj string))
    (restHeaders : Arg (option (JsObj string)))
    (restData : Arg (option Data))
    (restDataBinary : Arg (option string))
    (restForm : Arg (option (JsObj string)))
    (variableAsPayload : Arg (option string))
    (validators : Arg (list string))
    (vars : Arg (option (JsObj string)))
    (expectedStatusCodes : Arg (list Z))
    (invokeOnFail allowFailure : Arg bool)
    (clientCertificate clientKey : Arg (option string))
    (expectBinaryResponse : Arg bool)
    (diagramConfiguration : Arg JsValue) : RestAction :=
  {| name := name;
     description := orDefault desc name;
     url := url;
     serviceName := serviceName;
     method := orDefault restMethod (def_method actionDef);
     queryParameters :=
       orDefault queryParameters (default [] (def_queryParameters actionDef));
     restHead := orDefault restHeaders (def_headers actionDef);
     data := orDefault restData (def_data actionDef);
     dataBinary := orDefault restDataBinary (def_dataBinary actionDef);
     form := orDefault restForm (def_form actionDef);
     variableAsPayload :=
       orDefault variableAsPayload (def_variableAsPayload actionDef);
     responseValidation :=
       orDefault validators (default [] (def_responseValidation actionDef));
     variables := orDefault vars (def_variables actionDef);
     expectedStatusCodes :=
       orDefault expectedStatusCodes
         (default [200; 201; 204] (def_expectedStatusCodes actionDef));
     invokeEvenOnFail :=
       orDefault invokeOnFail (default false (def_invokeEvenOnFail actionDef));
     allowFailure :=
       orDefault allowFailure (default false (def_allowFailure actionDef));
     clientCertificate :=
       orDefault clientCertificate (def_clientCertificate actionDef);
     clientKey := orDefault clientKey (def_clientKey actionDef);
     expectBinaryResponse :=
       orDefault expectBinaryResponse
         (default false (def_expectBinaryResponse actionDef));
     diagramConfiguration :=
       orDefault diagramConfiguration
         (default (JObject []) (def_diagramConfiguration actionDef)) |}.

(** The constructor called with the arguments that have no default: every
    other one takes its default parameter value. *)
Definition fromDefinition (actionDef : RestActionDefinition)
    (url serviceName : string) : RestAction :=
  new_RestAction (def_name actionDef)
    (match def_description actionDef with
     | Some d => Given d
     | None => Undefined
     end)
    actionDef url serviceName Undefined Undefined Undefined Undefined
    Undefined Undefined Undefined Undefined Undefined Undefined Undefined
    Undefined Undefined Undefined Undefined Undefined.

(** The keys of an array spread into an object: its indices. *)
Definition arrayEntries (items : list JsValue) : JsObj JsValue :=
  imap (fun i v => (pretty i, v)) items.

Definition dataEntries (d : option Data) : JsObj JsValue :=
  match d with
  | Some (DataObject o) => o
  | Some (DataArray items) => arrayEntries items
  | None => []
  end.

(** [loadData]; the result is [undefined] when neither side has data. *)
Definition loadData (template : RestAction) (actionDef : RestActionDefinition)
    : Arg (option Data) :=
  match data template with
  | Some (DataArray items) =>
      Given (Some (DataArray
        (items ++ match def_data actionDef with
                  | Some (DataArray more) => more
                  | Some (DataObject o) => [JObject o]
                  | None => []
                  end)))
  | Some (DataObject o) =>
      Given (Some (DataObject (obj_assign o (dataEntries (def_data actionDef)))))
  | None => ofOption (def_data actionDef)
  end.

(** [fromTemplate]. A definition has no [restHead] key, so without
    templated headers the header argument is [undefined]; without a
    templated form the form argument is [null]. *)
Definition fromTemplate (actionDef : RestActionDefinition)
    (template : RestAction) : RestAction :=
  new_RestAction
    (def_name actionDef)
    (Given (default (def_name actionDef) (def_description actionDef)))
    actionDef
    (url template)
    (serviceName template)
    (ofOption (nullish (def_method actionDef) (method template)))
    (Given (obj_assign (queryParameters template)
              (spread (def_queryParameters actionDef))))
    (match restHead template with
     | Some head => Given (Some (obj_assign head (spread (def_headers actionDef))))
     | None => Undefined
     end)
    (loadData template actionDef)
    (ofOption (nullish (def_dataBinary actionDef) (dataBinary template)))
    (match form template with
     | Some f => Given (Some (obj_assign f (spread (def_form actionDef))))
     | None => Given None
     end)
    (ofOption (nullish (def_variableAsPayload actionDef)
                 (variableAsPayload template)))
    (Given (responseValidation template
            ++ default [] (def_responseValidation actionDef)))
    (Given (Some (obj_assign (spread (variables template))
                    (spread (def_variables actionDef)))))
    (Given (default (expectedStatusCodes template)
              (def_expectedStatusCodes actionDef)))
    (Given (default (invokeEvenOnFail template) (def_invokeEvenOnFail actionDef)))
    (Given (default (allowFailure template) (def_allowFailure actionDef)))
    (ofOption (nullish (def_clientCertificate actionDef)
                 (clientCertificate template)))
    (ofOption (nullish (def_clientKey actionDef) (clientKey template)))
    (Given (default (expectBinaryResponse template)
              (def_expectBinaryResponse actionDef)))
    (Given (default (diagramConfiguration template)
              (def_diagramConfiguration actionDef))).

(** ** Invocation *)

Inductive Body : Type :=
| Str (s : string)
| Buf (bytes : list Byte.byte).

(** A response of the request library ([fullResponse: true]); the body is
    [None] when it is [null] or [undefined]. *)
Record Response : Type := {
  statusCode : Z;
  statusMessage : string;
  headers : JsObj string;
  body : option Body
}.

Inductive RequestBody : Type :=
| BodyText (s : string)
| BodyStream (path : string)
| BodyValue (v : JsValue)
| BodyNull.

Record ClientCertificate : Type := {
  cert : list Byte.byte;
  key : list Byte.byte;
  rejectUnauthorized : bool
}.

Record RequestOptions : Type := {
  req_method : option string;
  req_url : string;
  req_headers : option JsValue;
  req_body : RequestBody;
  req_binary : bool;
  req_form : option JsValue;
  maxAttempts : Z;
  retryDelay : Z;
  fullResponse : bool;
  req_certificate : option ClientCertificate
}.

(** What the request library hands back: a response, whatever its status,
    or the failure it gave up on. *)
Inductive Network : Type :=
| Responded (response : Response)
| Failed (error : string).

Inductive DiagramEntry : Type :=
| Request (target : string) (request : RequestOptions)
    (bodyForDiagram : option JsValue)
| SuccessfulResponseArrow (target statusMessage : string) (status : Z)
| SuccessfulResponseBody (parsed : JsValue)
| ValidationFailureResponseBody (parsed : JsValue)
| SuccessfulResponse (target statusMessage : string) (status : Z)
| FailedResponse (target statusMessage : string) (status : Z)
    (body : option Body).

Inductive ErrorLog : Type :=
| HeaderValidationFailed (validation : string)
| HeaderValidationThrew (validation : string)
| BodyValidationFailed (validation : string)
| BodyValidationThrew (validation : string)
| UnexpectedStatus (status : Z) (statusMessage : string) (body : option Body)
| UnexpectedError
| CertificateError.

(** What an invocation has done so far: the scenario cache it writes, the
    promise of [invoke], the requests handed to the request library, the
    diagram and the error log. *)
Record Run : Type := {
  cache : gmap string JsValue;
  promise : Promise;
  requests : list RequestOptions;
  diagram : list DiagramEntry;
  errors : list ErrorLog
}.

(** Code that works on a [Run] and may throw: the state survives the
    exception, [None] is the throw. *)
Definition Eff (A : Type) : Type := Run -> Run * option A.

Definition pure {A} (a : A) : Eff A := fun r => (r, Some a).

Definition throw {A} : Eff A := fun r => (r, None).

Definition bind {A B} (c : Eff A) (k : A -> Eff B) : Eff B :=
  fun r => match c r with
           | (r', Some a) => k a r'
           | (r', None) => (r', None)
           end.

(** [try { c } catch (e) { handler }] *)
Definition tryCatch {A} (c handler : Eff A) : Eff A :=
  fun r => match c r with
           | (r', Some a) => (r', Some a)
           | (r', None) => handler r'
           end.

(** A partial operation of the engine, as a step that throws on [None]. *)
Definition orThrow {A} (o : option A) : Eff A :=
  match o with Some a => pure a | None => throw end.

Declare Scope eff_scope.
Delimit Scope eff_scope with eff.
Notation "x ← y ; z" := (bind y (fun x => z))
  (at level 20, y at level 100, z at level 200, only parsing) : eff_scope.
Notation "y ;; z" := (bind y (fun _ => z))
  (at level 100, z at level 200, only parsing, right associativity) : eff_scope.

Definition readCache : Eff (gmap string JsValue) := fun r => (r, Some (cache r)).

Definition setCache (k : string) (v : JsValue) : Eff unit :=
  fun r => ({| cache := <[k := v]> (cache r); promise := promise r;
               requests := requests r; diagram := diagram r;
               errors := errors r |}, Some tt).

Definition rejectP : Eff unit :=
  fun r => ({| cache := cache r; promise := reject (promise r);
               requests := requests r; diagram := diagram r;
               errors := errors r |}, Some tt).

Definition resolveP : Eff unit :=
  fun r => ({| cache := cache r; promise := resolve (promise r);
               requests := requests r; diagram := diagram r;
               errors := errors r |}, Some tt).

Definition record (d : DiagramEntry) : Eff unit :=
  fun r => ({| cache := cache r; promise := promise r;
               requests := requests r; diagram := diagram r ++ [d];
               errors := errors r |}, Some tt).

Definition logError (e : ErrorLog) : Eff unit :=
  fun r => ({| cache := cache r; promise := promise r;
               requests := requests r; diagram := diagram r;
               errors := errors r ++ [e] |}, Some tt).

Definition request (o : RequestOptions) : Eff unit :=
  fun r => ({| cache := cache r; promise := promise r;
               requests := requests r ++ [o]; diagram := diagram r;
               errors := errors r |}, Some tt).

(** [forEach] *)
Fixpoint forEach {A} (f : A -> Eff unit) (l : list A) : Eff unit :=
  match l with
  | [] => pure tt
  | x :: rest => bind (f x) (fun _ => forEach f rest)
  end.

Definition includes (codes : list Z) (status : Z) : bool :=
  existsb (Z.eqb status) codes.

Definition dataValue (d : Data) : JsValue :=
  match d with DataArray items => JArray items | DataObject o => JObject o end.

Section Invoke.

Context `{JsEngine} `{VariableInjection}.

Local Open Scope eff_scope.

Variable this : RestAction.

(** [updateScenarioCache({ res, head })]; a key that is left out of the
    argument is bound to [undefined]. *)
Definition updateScenarioCache (res head : JsValue) : Eff unit :=
  match variables this with
  | Some scenarioVariables =>
      forEach (fun pair : string * string =>
        let scope := {| scope_res := Some res; scope_head := Some head |} in
        if String.prefix "res" (snd pair) && negb (is_undefined res) then
          v ← orThrow (js_eval (snd pair) scope); setCache (fst pair) v
        else if String.prefix "head" (snd pair) && negb (is_undefined head)
        then v ← orThrow (js_eval (snd pair) scope); setCache (fst pair) v
        else pure tt) scenarioVariables
  | None => pure tt
  end.

(** [validateHeaders(head, reject)]: every [head.] validation is evaluated;
    a falsy or throwing one rejects and the loop goes on. *)
Definition validateHeaders (head : JsValue) : Eff unit :=
  forEach (fun validation =>
    match js_eval validation {| scope_res := None; scope_head := Some head |} with
    | Some validationResult =>
        if truthy validationResult then pure tt
        else (logError (HeaderValidationFailed validation);; rejectP)
    | None => logError (HeaderValidationThrew validation);; rejectP
    end)
    (List.filter (String.prefix "head.") (responseValidation this)).

(** [validateBody(res)]: throws at the first [res.] validation that is
    falsy or throws. *)
Definition validateBody (res : JsValue) : Eff unit :=
  forEach (fun validation =>
    match js_eval validation {| scope_res := Some res; scope_head := None |} with
    | Some validationResult =>
        if truthy validationResult then pure tt
        else (logError (BodyValidationFailed validation);; throw)
    | None => logError (BodyValidationThrew validation);; throw
    end)
    (List.filter (String.prefix "res.") (responseValidation this)).

(** [parseResponseBody]: a string is parsed as JSON under a JSON content
    type and kept as it is otherwise; a buffer is copied. [None] when
    [JSON.parse] throws. *)
Definition parseResponseBody (body : Body) (contentType : option string)
    : option JsValue :=
  match body with
  | Str s =>
      match contentType with
      | Some ct =>
          if String.prefix "application/json" ct then JSON_parse s
          else Some (JStr s)
      | None => Some (JStr s)
      end
  | Buf bytes => Some (JBuffer bytes)
  end.

Definition isPayload (v : option JsValue) : bool :=
  match v with
  | Some (JStr _) | Some (JBuffer _) | Some (JStream _) => true
  | _ => false
  end.

(** [generateRequestBody(reject)] *)
Definition generateRequestBody : Eff (RequestBody * option JsValue) :=
  match data this, dataBinary this, variableAsPayload this with
  | Some d, _, _ =>
      cache ← readCache;
      data ← orThrow (injectEvalAndVarsToMap (dataValue d) cache);
      pure (BodyText (JSON_stringify data), Some data)
  | None, Some path, _ => pure (BodyStream path, None)
  | None, None, Some variable =>
      cache ← readCache;
      let body := cache !! variable in
      if isPayload body then pure (BodyValue (default JUndefined body), body)
      else (rejectP;; pure (BodyNull, None))
  | None, None, None => pure (BodyNull, None)
  end.

Definition nonEmpty (s : option string) : option string :=
  match s with
  | Some x => if String.eqb x "" then None else Some x
  | None => None
  end.

Definition readFromFileOrInput (input : string) : option (list Byte.byte) :=
  if String.prefix "file:" input
  then readFileSync (String.substring 5 (String.length input - 5) input)
  else Some (Buffer_from input None).

(** [getClientCertificateConfiguration]: any exception is logged and
    leaves the request without certificate. *)
Definition getClientCertificateConfiguration : Eff (option ClientCertificate) :=
  tryCatch
    (cache ← readCache;
     clientCertificate ←
       match nonEmpty (clientCertificate this) with
       | Some c => orThrow (Some <$> injectEvalAndVarsToString c cache)
       | None => pure None
       end;
     clientKey ←
       match nonEmpty (clientKey this) with
       | Some k => orThrow (Some <$> injectEvalAndVarsToString k cache)
       | None => pure None
       end;
     match nonEmpty clientCertificate, nonEmpty clientKey with
     | Some c, Some k =>
         cert ← orThrow (readFromFileOrInput c);
         key ← orThrow (readFromFileOrInput k);
         pure (Some {| cert := cert; key := key; rejectUnauthorized := false |})
     | _, _ => pure None
     end)
    (logError CertificateError;; pure None).

(** The executor of the promise, up to the call of the request library. *)
Definition prepare : Eff (RequestOptions * option JsValue) :=
  cache ← readCache;
  requestHeaders ←
    match restHead this with
    | Some head => orThrow (Some <$> injectEvalAndVarsToMap (objValue head) cache)
    | None => pure None
    end;
  requestBody ← generateRequestBody;
  requestForm ←
    match form this with
    | Some f => orThrow (Some <$> injectEvalAndVarsToMap (objValue f) cache)
    | None => pure None
    end;
  baseURL ← orThrow (injectEvalAndVarsToString (url this) cache);
  url ←
    match queryParameters this with
    | [] => pure baseURL
    | _ :: _ =>
        queryParameters ←
          orThrow (injectEvalAndVarsToMap
                     (objValue (queryParameters this)) cache);
        pure (if truthy queryParameters
              then String.append baseURL
                     (String.append "?" (querystring_stringify queryParameters))
              else baseURL)
    end;
  certificate ← getClientCertificateConfiguration;
  pure ({| req_method := method this; req_url := url;
           req_headers := requestHeaders; req_body := fst requestBody;
           req_binary := expectBinaryResponse this; req_form := requestForm;
           maxAttempts := 3; retryDelay := 1000; fullResponse := true;
           req_certificate := certificate |}, snd requestBody).

(** The [try] block around [validateBody] with its [catch]. *)
Definition validatedBody (parsed : JsValue) : Eff unit :=
  tryCatch
    (validateBody parsed;; record (SuccessfulResponseBody parsed))
    (record (ValidationFailureResponseBody parsed);; rejectP).

(** The handler of the response. *)
Definition onResponse (options : RequestOptions)
    (bodyForDiagram : option JsValue) (response : Response) : Eff unit :=
  record (Request (serviceName this) options bodyForDiagram);;
  if includes (expectedStatusCodes this) (statusCode response) then
    let head := objValue (headers response) in
    validateHeaders head;;
    updateScenarioCache JUndefined head;;
    let contentType := obj_get "content-type" (headers response) in
    match body response with
    | Some body =>
        parsedResponseBody ← orThrow (parseResponseBody body contentType);
        record (SuccessfulResponseArrow (serviceName this)
                  (statusMessage response) (statusCode response));;
        validatedBody parsedResponseBody;;
        updateScenarioCache parsedResponseBody JUndefined
    | None =>
        record (SuccessfulResponse (serviceName this)
                  (statusMessage response) (statusCode response))
    end;;
    resolveP
  else
    logError (UnexpectedStatus (statusCode response) (statusMessage response)
                (body response));;
    record (FailedResponse (serviceName this) (statusMessage response)
              (statusCode response) (body response));;
    rejectP.

(** The handler of [.catch]: a failed request, or an exception out of the
    response handler. *)
Definition onFailure : Eff unit := logError UnexpectedError;; rejectP.

(** The executor of the promise with the handlers of the request: an
    exception in the executor rejects the promise before any request is
    made. *)
Definition invocation (network : RequestOptions -> Network) : Eff unit :=
  tryCatch
    (prepared ← prepare;
     request (fst prepared);;
     tryCatch
       (match network (fst prepared) with
        | Responded response =>
            onResponse (fst prepared) (snd prepared) response
        | Failed _ => throw
        end)
       onFailure)
    rejectP.

(** [invoke(scenario)] against what the network answers. *)
Definition invoke (scenario : Scenario) (network : RequestOptions -> Network)
    : Run :=
  fst (invocation network
         {| cache := scenario_cache scenario; promise := Pending;
            requests := []; diagram := []; errors := [] |}).

End Invoke.

(** The shallow merge of two optional dictionaries, key by key: the
    override's entry if it has one, the template's otherwise. *)
Definition merged (template override : option (JsObj string)) (k : string)
    : option string :=
  match obj_get k (spread override) with
  | Some v => Some v
  | None => obj_get k (spread template)
  end.

(** Fixtures: a templated POST with two headers and no form, and a
    definition that overrides one header and brings a form. *)
Definition fixtureTemplateDefinition : RestActionDefinition :=
  {| def_name := "token"; def_description := None;
     def_method := Some "POST"; def_queryParameters := None;
     def_headers := Some [("Accept", "application/json");
                          ("Authorization", "Basic dGVtcGxhdGU=")];
     def_data := None; def_dataBinary := None; def_form := None;
     def_variableAsPayload := None; def_responseValidation := None;
     def_variables := None; def_expectedStatusCodes := None;
     def_invokeEvenOnFail := None; def_allowFailure := None;
     def_clientCertificate := None; def_clientKey := None;
     def_expectBinaryResponse := None; def_diagramConfiguration := None |}.

Definition fixtureTemplate : RestAction :=
  fromDefinition fixtureTemplateDefinition "https://idp/token" "idp".

Definition fixtureOverride : RestActionDefinition :=
  {| def_name := "token-for-alice"; def_description := None;
     def_method := None; def_queryParameters := None;
     def_headers := Some [("Authorization", "Basic YWxpY2U=")];
     def_data := None; def_dataBinary := None;
     def_form := Some [("grant_type", "password")];
     def_variableAsPayload := None; def_responseValidation := None;
     def_variables := None; def_expectedStatusCodes := None;
     def_invokeEvenOnFail := None; def_allowFailure := None;
     def_clientCertificate := None; def_clientKey := None;
     def_expectBinaryResponse := None; def_diagramConfiguration := None |}.

(** An action that validates the body, keeps the body in the cache and
    expects the default status codes. *)
Definition fixtureAction (validation : string) : RestAction :=
  fromDefinition
    {| def_name := "get"; def_description := None;
       def_method := Some "GET"; def_queryParameters := None;
       def_headers := None; def_data := None; def_dataBinary := None;
       def_form := None; def_variableAsPayload := None;
       def_responseValidation := Some [validation];
       def_variables := Some [("body", "res")];
       def_expectedStatusCodes := None;
       def_invokeEvenOnFail := None; def_allowFailure := None;
       def_clientCertificate := None; def_clientKey := None;
       def_expectBinaryResponse := None; def_diagramConfiguration := None |}
    "http://localhost:8080/" "service".

Definition fixtureResponse (status : Z) : Response :=
  {| statusCode := status; statusMessage := "";
     headers := [("content-type", "application/json")];
     body := Some (Str "{}") |}.

(** The action without its response validations. *)
Definition withoutValidation (a : RestAction) : RestAction :=
  {| serviceName := serviceName a; name := name a;
     description := description a; url := url a; method := method a;
     queryParameters := queryParameters a; restHead := restHead a;
     data := data a; dataBinary := dataBinary a; form := form a;
     variableAsPayload := variableAsPayload a; responseValidation := [];
     variables := variables a; expectedStatusCodes := expectedStatusCodes a;
     invokeEvenOnFail := invokeEvenOnFail a; allowFailure := allowFailure a;
     clientCertificate := clientCertificate a; clientKey := clientKey a;
     expectBinaryResponse := expectBinaryResponse a;
     diagramConfiguration := diagramConfiguration a |}.

Section Validation.

Context `{JsEngine}.

(** Whether a validation predicate fails in a scope: it is falsy or it
    throws. *)
Definition fails (scope : Scope) (validation : string) : bool :=
  match js_eval validation scope with
  | Some validationResult => negb (truthy validationResult)
  | None => true
  end.

Definition headerValidationFails (a : RestAction) (response : Response)
    : bool :=
  existsb
    (fails {| scope_res := None;
              scope_head := Some (objValue (headers response)) |})
    (List.filter (String.prefix "head.") (responseValidation a)).

Definition bodyValidationFails (a : RestAction) (response : Response)
    : bool :=
  match body response with
  | Some b =>
      match parseResponseBody b (obj_get "content-type" (headers response))
      with
      | Some parsed =>
          existsb (fails {| scope_res := Some parsed; scope_head := None |})
            (List.filter (String.prefix "res.") (responseValidation a))
      | None => false
      end
  | None => false
  end.

End Validation.

(** ** The promise and the cache along an invocation *)

(** The promise has moved from [p] to [q] without being resolved. *)
Definition unresolved (p q : Promise) : Prop :=
  p = q \/ (p = Pending /\ q = Rejected).

(** [c] never resolves the promise. *)
Definition quiet {A} (c : Eff A) : Prop :=
  forall r, unresolved (promise r) (promise (fst (c r))).

(** [c] never resolves the promise and, unless it throws, leaves it
    rejected. *)
Definition rejecting {A} (c : Eff A) : Prop :=
  forall r, promise r <> Resolved ->
    promise (fst (c r)) <> Resolved /\
    (snd (c r) <> None -> promise (fst (c r)) = Rejected).

(** [c] leaves a rejected promise rejected. *)
Definition steady {A} (c : Eff A) : Prop :=
  forall r, promise r = Rejected -> promise (fst (c r)) = Rejected.

(** [c] hands nothing to the request library. *)
Definition silent {A} (c : Eff A) : Prop :=
  forall r, requests (fst (c r)) = requests r.

(** [c] leaves the cache alone and does not throw. *)
Definition neutral (c : Eff unit) : Prop :=
  forall r, cache (fst (c r)) = cache r /\ snd (c r) = Some tt.

(** [c1] and [c2] do the same to the cache and throw together. *)
Definition alike {A} (c1 c2 : Eff A) : Prop :=
  forall r1 r2, cache r1 = cache r2 ->
    cache (fst (c1 r1)) = cache (fst (c2 r2)) /\ snd (c1 r1) = snd (c2 r2).

Create HintDb eff discriminated.

Section MergeProperties.

Lemma obj_get_set {V} (k k' : string) (v : V) (o : JsObj V) :
  obj_get k (obj_set k' v o) = if String.eqb k k' then Some v else obj_get k o.
Proof.
  induction o as [|[k0 v0] o IH]; cbn.
  - destruct (String.eqb k k'); reflexivity.
  - destruct (String.eqb_spec k' k0) as [->|Hne]; cbn.
    + destruct (String.eqb k k0); reflexivity.
    + rewrite IH. destruct (String.eqb_spec k k0) as [->|Hne'].
      * destruct (String.eqb_spec k0 k'); congruence.
      * reflexivity.
Qed.

Lemma obj_get_absent {V} (k : string) (o : JsObj V) :
  k ∉ map fst o -> obj_get k o = None.
Proof.
  induction o as [|[k0 v0] o IH]; cbn; [reflexivity|].
  intros [Hne Hn]%not_elem_of_cons.
  destruct (String.eqb_spec k k0) as [->|_]; [congruence|].
  apply IH, Hn.
Qed.

(** [{ ...a, ...b }] read key by key: the entry of [b], else that of [a]. *)
Lemma obj_get_assign {V} (b : JsObj V) : forall (a : JsObj V) (k : string),
  NoDup (map fst b) ->
  obj_get k (obj_assign a b) =
    match obj_get k b with Some v => Some v | None => obj_get k a end.
Proof.
  induction b as [|[k0 v0] b IH]; intros a k Hnd; cbn; [reflexivity|].
  inversion Hnd as [|x l Hnotin Hnd']; subst.
  unfold obj_assign in *. cbn. rewrite IH by assumption.
  rewrite obj_get_set.
  destruct (String.eqb_spec k k0) as [->|Hne]; [|reflexivity].
  now rewrite (obj_get_absent k0 b Hnotin).
Qed.

Definition uniqueKeys (o : option (JsObj string)) : Prop :=
  NoDup (map fst (spread o)).

(** What [fromTemplate] does merge: the query parameters, the headers and
    the variables of every template, and the form of a template that has
    one. *)
Lemma fromTemplate_merges (actionDef : RestActionDefinition)
    (template : RestAction) (k : string) :
  uniqueKeys (def_queryParameters actionDef) ->
  uniqueKeys (def_headers actionDef) ->
  uniqueKeys (def_variables actionDef) ->
  uniqueKeys (def_form actionDef) ->
  let result := fromTemplate actionDef template in
  obj_get k (queryParameters result)
    = merged (Some (queryParameters template))
        (def_queryParameters actionDef) k /\
  obj_get k (spread (restHead result))
    = merged (restHead template) (def_headers actionDef) k /\
  obj_get k (spread (variables result))
    = merged (variables template) (def_variables actionDef) k /\
  (form template <> None ->
   obj_get k (spread (form result))
     = merged (form template) (def_form actionDef) k).
Proof.
  unfold uniqueKeys, merged. intros Hq Hh Hv Hf. cbn.
  repeat split.
  - now apply obj_get_assign.
  - destruct (restHead template) as [head|]; cbn.
    + now apply obj_get_assign.
    + destruct (obj_get k (spread (def_headers actionDef))); reflexivity.
  - now apply obj_get_assign.
  - destruct (form template) as [f|]; [|congruence]. intros _. cbn.
    now apply obj_get_assign.
Qed.

(** Without a templated form the result has no form, whatever form the
    definition brings. *)
Lemma fromTemplate_form_without_templated_form
    (actionDef : RestActionDefinition) (template : RestAction) :
  form template = None -> form (fromTemplate actionDef template) = None.
Proof. intros Hf. cbn. now rewrite Hf. Qed.

(** C8, at the input where the code departs from it: the template has no
    form, the definition brings one; the action that [fromTemplate] builds
    has no form at all, where the shallow merge has the definition's entry.
    The headers of the same pair are merged, and the template is the value
    it was. *)
Example fromTemplate_drops_form_without_templated_form :
  let result := fromTemplate fixtureOverride fixtureTemplate in
  form fixtureTemplate = None /\
  form result = None /\
  merged (form fixtureTemplate) (def_form fixtureOverride) "grant_type"
    = Some "password" /\
  obj_get "grant_type" (spread (form result)) = None /\
  restHead result = Some [("Accept", "application/json");
                          ("Authorization", "Basic YWxpY2U=")].
Proof. repeat split. Qed.

End MergeProperties.

(** ** Lemmas on computations *)

Section EffProperties.

Lemma unresolved_refl (p : Promise) : unresolved p p.
Proof. now left. Qed.

Lemma unresolved_trans (p q s : Promise) :
  unresolved p q -> unresolved q s -> unresolved p s.
Proof. unfold unresolved. intuition congruence. Qed.

Lemma unresolved_reject (p : Promise) : unresolved p (reject p).
Proof. destruct p; cbn; unfold unresolved; auto. Qed.

Lemma unresolved_keeps (p q : Promise) :
  unresolved p q -> p <> Resolved -> q <> Resolved.
Proof. unfold unresolved. intuition congruence. Qed.

Lemma unresolved_rejected (q : Promise) : unresolved Rejected q -> q = Rejected.
Proof. unfold unresolved. intuition congruence. Qed.

Lemma reject_unresolved (p : Promise) : p <> Resolved -> reject p = Rejected.
Proof. destruct p; cbn; congruence. Qed.

Lemma quiet_pure {A} (a : A) : quiet (pure a).
Proof. intros r. apply unresolved_refl. Qed.

Lemma quiet_throw {A} : quiet (@throw A).
Proof. intros r. apply unresolved_refl. Qed.

Lemma quiet_orThrow {A} (o : option A) : quiet (orThrow o).
Proof. destruct o; [apply quiet_pure | apply quiet_throw]. Qed.

Lemma quiet_readCache : quiet readCache.
Proof. intros r. apply unresolved_refl. Qed.

Lemma quiet_setCache (k : string) (v : JsValue) : quiet (setCache k v).
Proof. intros r. apply unresolved_refl. Qed.

Lemma quiet_record (d : DiagramEntry) : quiet (record d).
Proof. intros r. apply unresolved_refl. Qed.

Lemma quiet_logError (e : ErrorLog) : quiet (logError e).
Proof. intros r. apply unresolved_refl. Qed.

Lemma quiet_request (o : RequestOptions) : quiet (request o).
Proof. intros r. apply unresolved_refl. Qed.

Lemma quiet_rejectP : quiet rejectP.
Proof. intros r. apply unresolved_reject. Qed.

Lemma quiet_bind {A B} (c : Eff A) (k : A -> Eff B) :
  quiet c -> (forall a, quiet (k a)) -> quiet (bind c k).
Proof.
  intros Hc Hk r. unfold bind. specialize (Hc r).
  destruct (c r) as [r' [a|]]; cbn in *; [|exact Hc].
  eapply unresolved_trans; [exact Hc | apply Hk].
Qed.

Lemma quiet_tryCatch {A} (c handler : Eff A) :
  quiet c -> quiet handler -> quiet (tryCatch c handler).
Proof.
  intros Hc Hh r. unfold tryCatch. specialize (Hc r).
  destruct (c r) as [r' [a|]]; cbn in *; [exact Hc|].
  eapply unresolved_trans; [exact Hc | apply Hh].
Qed.

Lemma quiet_forEach {A} (f : A -> Eff unit) (l : list A) :
  (forall x, quiet (f x)) -> quiet (forEach f l).
Proof.
  intros Hf. induction l as [|x l IH]; cbn; [apply quiet_pure|].
  apply quiet_bind; auto.
Qed.

Lemma rejecting_rejectP : rejecting rejectP.
Proof.
  intros r Hr. cbn. rewrite (reject_unresolved _ Hr). split; congruence.
Qed.

Lemma rejecting_throw {A} : rejecting (@throw A).
Proof. intros r Hr. cbn. split; congruence. Qed.

Lemma rejecting_after {A B} (c : Eff A) (k : A -> Eff B) :
  quiet c -> (forall a, rejecting (k a)) -> rejecting (bind c k).
Proof.
  intros Hc Hk r Hr. unfold bind. specialize (Hc r).
  pose proof (unresolved_keeps _ _ Hc Hr) as Hr'.
  destruct (c r) as [r' [a|]]; cbn in *; [now apply Hk|].
  split; congruence.
Qed.

Lemma steady_quiet {A} (c : Eff A) : quiet c -> steady c.
Proof.
  intros Hc r Hr. specialize (Hc r). rewrite Hr in Hc.
  now apply unresolved_rejected.
Qed.

Lemma steady_resolveP : steady resolveP.
Proof. intros r Hr. cbn. now rewrite Hr. Qed.

Lemma steady_bind {A B} (c : Eff A) (k : A -> Eff B) :
  steady c -> (forall a, steady (k a)) -> steady (bind c k).
Proof.
  intros Hc Hk r Hr. unfold bind. specialize (Hc r Hr).
  destruct (c r) as [r' [a|]]; cbn in *; [now apply Hk | exact Hc].
Qed.

Lemma rejecting_before {A B} (c : Eff A) (k : A -> Eff B) :
  rejecting c -> (forall a, steady (k a)) -> rejecting (bind c k).
Proof.
  intros Hc Hk r Hr. unfold bind. destruct (Hc r Hr) as [Hne Hdone].
  destruct (c r) as [r' [a|]]; cbn in *; [|split; congruence].
  specialize (Hdone ltac:(congruence)).
  rewrite (Hk a r' Hdone). split; congruence.
Qed.

Lemma rejecting_pure {A B} (a : A) (k : A -> Eff B) :
  rejecting (k a) -> rejecting (bind (pure a) k).
Proof. intros Hk r Hr. exact (Hk r Hr). Qed.

(** A block that always throws, under a handler that rejects. *)
Lemma rejecting_caught {A} (c handler : Eff A) :
  (forall r, snd (c r) = None) -> quiet c -> rejecting handler ->
  rejecting (tryCatch c handler).
Proof.
  intros Hthrows Hc Hh r Hr. unfold tryCatch.
  specialize (Hthrows r). specialize (Hc r).
  destruct (c r) as [r' [a|]]; cbn in *; [discriminate|].
  apply Hh. now apply (unresolved_keeps _ _ Hc).
Qed.

(** Under the [.catch] handler a rejecting computation ends rejected. *)
Lemma rejecting_handled (c : Eff unit) (r : Run) :
  rejecting c -> promise r <> Resolved ->
  promise (fst (tryCatch c onFailure r)) = Rejected.
Proof.
  intros Hc Hr. unfold tryCatch. destruct (Hc r Hr) as [Hne Hdone].
  destruct (c r) as [r' [[]|]]; cbn in *.
  - apply Hdone. congruence.
  - now apply reject_unresolved.
Qed.

Lemma neutral_alike (c1 c2 : Eff unit) :
  neutral c1 -> neutral c2 -> alike c1 c2.
Proof.
  intros H1 H2 r1 r2 Hc. destruct (H1 r1) as [-> ->], (H2 r2) as [-> ->].
  auto.
Qed.

Lemma neutral_pure : neutral (pure tt).
Proof. intros r. auto. Qed.

Lemma neutral_record (d : DiagramEntry) : neutral (record d).
Proof. intros r. auto. Qed.

Lemma neutral_logError (e : ErrorLog) : neutral (logError e).
Proof. intros r. auto. Qed.

Lemma neutral_rejectP : neutral rejectP.
Proof. intros r. auto. Qed.

Lemma neutral_resolveP : neutral resolveP.
Proof. intros r. auto. Qed.

Lemma neutral_request (o : RequestOptions) : neutral (request o).
Proof. intros r. auto. Qed.

Lemma alike_readCache : alike readCache readCache.
Proof. intros r1 r2 Hc. cbn. now rewrite Hc. Qed.

Lemma alike_throw {A} : alike (@throw A) (@throw A).
Proof. intros r1 r2 Hc. auto. Qed.

Lemma neutral_bind (c : Eff unit) (k : unit -> Eff unit) :
  neutral c -> (forall a, neutral (k a)) -> neutral (bind c k).
Proof.
  intros Hc Hk r. unfold bind. destruct (Hc r) as [Hcache Hsome].
  destruct (c r) as [r' [a|]]; cbn in *; [|discriminate].
  destruct (Hk a r') as [-> ->]. auto.
Qed.

Lemma neutral_forEach {A} (f : A -> Eff unit) (l : list A) :
  (forall x, neutral (f x)) -> neutral (forEach f l).
Proof.
  intros Hf. induction l as [|x l IH]; cbn; [apply neutral_pure|].
  apply neutral_bind; auto.
Qed.

(** A computation that only changes the log, the diagram or the promise,
    under a handler that is neutral: neutral, whether it throws or not. *)
Lemma neutral_tryCatch (c handler : Eff unit) :
  (forall r, cache (fst (c r)) = cache r) -> neutral handler ->
  neutral (tryCatch c handler).
Proof.
  intros Hc Hh r. unfold tryCatch. specialize (Hc r).
  destruct (c r) as [r' [[]|]]; cbn in *; [auto|].
  destruct (Hh r') as [-> ->]. auto.
Qed.

Lemma alike_refl_orThrow {A} (o : option A) : alike (orThrow o) (orThrow o).
Proof. intros r1 r2 Hc. destruct o; cbn; auto. Qed.

Lemma alike_setCache (k : string) (v : JsValue) :
  alike (setCache k v) (setCache k v).
Proof. intros r1 r2 Hc. cbn. now rewrite Hc. Qed.

Lemma alike_pure {A} (a : A) : alike (pure a) (pure a).
Proof. intros r1 r2 Hc. auto. Qed.

Lemma alike_bind {A B} (c1 c2 : Eff A) (k1 k2 : A -> Eff B) :
  alike c1 c2 -> (forall a, alike (k1 a) (k2 a)) ->
  alike (bind c1 k1) (bind c2 k2).
Proof.
  intros Hc Hk r1 r2 Hr. unfold bind. destruct (Hc r1 r2 Hr) as [Hcache Hres].
  destruct (c1 r1) as [r1' [a1|]], (c2 r2) as [r2' [a2|]]; cbn in *;
    try discriminate; [|auto].
  injection Hres as ->. now apply Hk.
Qed.

Lemma alike_tryCatch {A} (c1 c2 h1 h2 : Eff A) :
  alike c1 c2 -> alike h1 h2 -> alike (tryCatch c1 h1) (tryCatch c2 h2).
Proof.
  intros Hc Hh r1 r2 Hr. unfold tryCatch.
  destruct (Hc r1 r2 Hr) as [Hcache Hres].
  destruct (c1 r1) as [r1' [a1|]], (c2 r2) as [r2' [a2|]]; cbn in *;
    try discriminate; [auto|].
  now apply Hh.
Qed.

Lemma alike_forEach {A} (f : A -> Eff unit) (l : list A) :
  (forall x, alike (f x) (f x)) -> alike (forEach f l) (forEach f l).
Proof.
  intros Hf. induction l as [|x l IH]; cbn; [apply alike_pure|].
  apply alike_bind; auto.
Qed.

Lemma silent_pure {A} (a : A) : silent (pure a).
Proof. intros r. reflexivity. Qed.

Lemma silent_throw {A} : silent (@throw A).
Proof. intros r. reflexivity. Qed.

Lemma silent_orThrow {A} (o : option A) : silent (orThrow o).
Proof. destruct o; intros r; reflexivity. Qed.

Lemma silent_readCache : silent readCache.
Proof. intros r. reflexivity. Qed.

Lemma silent_setCache (k : string) (v : JsValue) : silent (setCache k v).
Proof. intros r. reflexivity. Qed.

Lemma silent_record (d : DiagramEntry) : silent (record d).
Proof. intros r. reflexivity. Qed.

Lemma silent_logError (e : ErrorLog) : silent (logError e).
Proof. intros r. reflexivity. Qed.

Lemma silent_rejectP : silent rejectP.
Proof. intros r. reflexivity. Qed.

Lemma silent_resolveP : silent resolveP.
Proof. intros r. reflexivity. Qed.

Lemma silent_bind {A B} (c : Eff A) (k : A -> Eff B) :
  silent c -> (forall a, silent (k a)) -> silent (bind c k).
Proof.
  intros Hc Hk r. unfold bind. specialize (Hc r).
  destruct (c r) as [r' [a|]]; cbn in *; [|exact Hc].
  now rewrite Hk.
Qed.

Lemma silent_tryCatch {A} (c handler : Eff A) :
  silent c -> silent handler -> silent (tryCatch c handler).
Proof.
  intros Hc Hh r. unfold tryCatch. specialize (Hc r).
  destruct (c r) as [r' [a|]]; cbn in *; [exact Hc|].
  now rewrite Hh.
Qed.

Lemma silent_forEach {A} (f : A -> Eff unit) (l : list A) :
  (forall x, silent (f x)) -> silent (forEach f l).
Proof.
  intros Hf. induction l as [|x l IH]; cbn; [apply silent_pure|].
  apply silent_bind; auto.
Qed.

End EffProperties.

#[local] Hint Resolve quiet_pure quiet_throw quiet_orThrow quiet_readCache
  quiet_setCache quiet_record quiet_logError quiet_request quiet_rejectP
  quiet_bind quiet_tryCatch quiet_forEach : eff.
#[local] Hint Resolve neutral_pure neutral_record neutral_logError
  neutral_rejectP neutral_resolveP neutral_request neutral_bind
  neutral_forEach : eff.
#[local] Hint Resolve alike_refl_orThrow alike_setCache alike_pure alike_bind
  alike_tryCatch alike_forEach alike_readCache alike_throw neutral_alike : eff.
#[local] Hint Resolve steady_quiet steady_resolveP steady_bind : eff.
#[local] Hint Resolve silent_pure silent_throw silent_orThrow silent_readCache
  silent_setCache silent_record silent_logError silent_rejectP
  silent_resolveP silent_bind silent_tryCatch silent_forEach : eff.

Section InvokeProperties.

Context `{JsEngine} `{VariableInjection}.

Local Open Scope eff_scope.

Lemma quiet_generateRequestBody (this : RestAction) :
  quiet (generateRequestBody this).
Proof.
  unfold generateRequestBody.
  destruct (data this), (dataBinary this), (variableAsPayload this);
    auto 10 with eff.
  apply quiet_bind; [auto with eff|]. intros cache.
  destruct (isPayload _); auto 10 with eff.
Qed.

Lemma quiet_getClientCertificateConfiguration (this : RestAction) :
  quiet (getClientCertificateConfiguration this).
Proof.
  unfold getClientCertificateConfiguration.
  apply quiet_tryCatch; [|auto 10 with eff].
  apply quiet_bind; [auto with eff|]. intros cache.
  apply quiet_bind; [destruct (nonEmpty _); auto with eff|]. intros c.
  apply quiet_bind; [destruct (nonEmpty _); auto with eff|]. intros k.
  destruct (nonEmpty c), (nonEmpty k); auto 10 with eff.
Qed.

Lemma quiet_prepare (this : RestAction) : quiet (prepare this).
Proof.
  unfold prepare.
  apply quiet_bind; [auto with eff|]. intros cache.
  apply quiet_bind; [destruct (restHead this); auto with eff|]. intros hs.
  apply quiet_bind; [apply quiet_generateRequestBody|]. intros b.
  apply quiet_bind; [destruct (form this); auto with eff|]. intros f.
  apply quiet_bind; [auto with eff|]. intros baseURL.
  apply quiet_bind; [destruct (queryParameters this); auto 10 with eff|].
  intros u.
  apply quiet_bind; [apply quiet_getClientCertificateConfiguration|].
  auto with eff.
Qed.

Lemma quiet_updateScenarioCache (this : RestAction) (res head : JsValue) :
  quiet (updateScenarioCache this res head).
Proof.
  unfold updateScenarioCache. destruct (variables this); [|auto with eff].
  apply quiet_forEach. intros [k e]. cbn.
  destruct (_ && _); [auto 10 with eff|].
  destruct (_ && _); auto 10 with eff.
Qed.

Lemma alike_updateScenarioCache (this : RestAction) (res head : JsValue) :
  alike (updateScenarioCache this res head)
        (updateScenarioCache (withoutValidation this) res head).
Proof.
  unfold updateScenarioCache. cbn. destruct (variables this); [|auto with eff].
  apply alike_forEach. intros [k e]. cbn.
  destruct (_ && _); [auto 10 with eff|].
  destruct (_ && _); auto 10 with eff.
Qed.

Lemma quiet_validateHeaders (this : RestAction) (head : JsValue) :
  quiet (validateHeaders this head).
Proof.
  unfold validateHeaders. apply quiet_forEach. intros v.
  destruct (js_eval v _) as [x|]; [destruct (truthy x)|]; auto 10 with eff.
Qed.

Lemma neutral_validateHeaders (this : RestAction) (head : JsValue) :
  neutral (validateHeaders this head).
Proof.
  unfold validateHeaders. apply neutral_forEach. intros v.
  destruct (js_eval v _) as [x|]; [destruct (truthy x)|]; auto 10 with eff.
Qed.

(** With a failing header validation, [validateHeaders] leaves the promise
    rejected. *)
Lemma rejecting_validateHeaders (this : RestAction) (response : Response) :
  headerValidationFails this response = true ->
  rejecting (validateHeaders this (objValue (headers response))).
Proof.
  unfold headerValidationFails, validateHeaders.
  set (scope := {| scope_res := None; scope_head := _ |}).
  induction (List.filter _ _) as [|v l IH]; cbn; [discriminate|].
  intros Hex. apply orb_prop in Hex as [Hv|Hl].
  - apply rejecting_before.
    + unfold fails in Hv. destruct (js_eval v scope) as [x|].
      * apply negb_true_iff in Hv. rewrite Hv.
        apply rejecting_after; [auto with eff|].
        intros _. apply rejecting_rejectP.
      * apply rejecting_after; [auto with eff|].
        intros _. apply rejecting_rejectP.
    + intros _. apply steady_quiet, quiet_forEach. intros w.
      destruct (js_eval w _) as [x|]; [destruct (truthy x)|]; auto 10 with eff.
  - apply rejecting_after; [|intros _; apply IH, Hl].
    destruct (js_eval v _) as [x|]; [destruct (truthy x)|]; auto 10 with eff.
Qed.

Lemma quiet_validateBody (this : RestAction) (res : JsValue) :
  quiet (validateBody this res).
Proof.
  unfold validateBody. apply quiet_forEach. intros v.
  destruct (js_eval v _) as [x|]; [destruct (truthy x)|]; auto 10 with eff.
Qed.

Lemma validateBody_cache (this : RestAction) (res : JsValue) (r : Run) :
  cache (fst (validateBody this res r)) = cache r.
Proof.
  unfold validateBody. revert r.
  induction (List.filter _ _) as [|v l IH]; intros r; cbn; [reflexivity|].
  unfold bind. destruct (js_eval v _) as [x|]; [destruct (truthy x)|]; cbn;
    auto.
Qed.

(** With a failing body validation, [validateBody] throws. *)
Lemma validateBody_throws (this : RestAction) (res : JsValue) (r : Run) :
  existsb (fails {| scope_res := Some res; scope_head := None |})
    (List.filter (String.prefix "res.") (responseValidation this)) = true ->
  snd (validateBody this res r) = None.
Proof.
  unfold validateBody. revert r.
  induction (List.filter _ _) as [|v l IH]; intros r; cbn; [discriminate|].
  intros Hex. unfold bind, fails in *.
  destruct (js_eval v _) as [x|]; [destruct (truthy x)|]; cbn in *; auto.
Qed.

Lemma quiet_validatedBody (this : RestAction) (parsed : JsValue) :
  quiet (validatedBody this parsed).
Proof.
  unfold validatedBody.
  apply quiet_tryCatch; [|auto with eff].
  apply quiet_bind; [apply quiet_validateBody | auto with eff].
Qed.

Lemma neutral_validatedBody (a : RestAction) (parsed : JsValue) :
  neutral (validatedBody a parsed).
Proof.
  unfold validatedBody. apply neutral_tryCatch; [|auto with eff].
  intros r. unfold bind.
  pose proof (validateBody_cache a parsed r) as Hc.
  destruct (validateBody a parsed r) as [r' [[]|]]; cbn in *; exact Hc.
Qed.

Lemma rejecting_validatedBody (this : RestAction) (parsed : JsValue) :
  existsb (fails {| scope_res := Some parsed; scope_head := None |})
    (List.filter (String.prefix "res.") (responseValidation this)) = true ->
  rejecting (validatedBody this parsed).
Proof.
  intros Hex. unfold validatedBody. apply rejecting_caught.
  - intros r. unfold bind.
    pose proof (validateBody_throws this parsed r Hex) as Ht.
    destruct (validateBody this parsed r) as [r' [[]|]]; cbn in *;
      [discriminate | reflexivity].
  - apply quiet_bind; [apply quiet_validateBody | auto with eff].
  - apply rejecting_after; [auto with eff|]. intros _. apply rejecting_rejectP.
Qed.

(** A response outside the expected status codes: the handler rejects. *)
Lemma rejecting_unexpected_status (this : RestAction)
    (options : RequestOptions) (bodyForDiagram : option JsValue)
    (response : Response) :
  includes (expectedStatusCodes this) (statusCode response) = false ->
  rejecting (onResponse this options bodyForDiagram response).
Proof.
  intros Hout. unfold onResponse. rewrite Hout.
  repeat (apply rejecting_after; [auto with eff|]; intros _).
  apply rejecting_rejectP.
Qed.

(** A response within the expected status codes and a validation that
    fails: the handler rejects, by [validateHeaders] or by the handler
    around [validateBody]. *)
Lemma rejecting_failed_validation (this : RestAction)
    (options : RequestOptions) (bodyForDiagram : option JsValue)
    (response : Response) :
  includes (expectedStatusCodes this) (statusCode response) = true ->
  headerValidationFails this response || bodyValidationFails this response
    = true ->
  rejecting (onResponse this options bodyForDiagram response).
Proof.
  intros Hin Hfail. unfold onResponse. rewrite Hin.
  apply rejecting_after; [auto with eff|]. intros _.
  destruct (headerValidationFails this response) eqn:Hhead.
  - apply rejecting_before; [now apply rejecting_validateHeaders|].
    intros _. apply steady_bind;
      [apply steady_quiet, quiet_updateScenarioCache|].
    intros _. cbn. apply steady_bind; [|auto with eff].
    destruct (body response) as [b|]; [|auto with eff].
    apply steady_quiet.
    apply quiet_bind; [auto with eff|]. intros parsed.
    apply quiet_bind; [auto with eff|]. intros _.
    apply quiet_bind; [apply quiet_validatedBody|]. intros _.
    apply quiet_updateScenarioCache.
  - cbn in Hfail. unfold bodyValidationFails in Hfail.
    apply rejecting_after; [apply quiet_validateHeaders|]. intros _.
    apply rejecting_after; [apply quiet_updateScenarioCache|]. intros _.
    cbn. apply rejecting_before; [|auto with eff].
    destruct (body response) as [b|]; [|discriminate].
    destruct (parseResponseBody b _) as [parsed|]; [|discriminate]. cbn.
    apply rejecting_pure.
    apply rejecting_after; [auto with eff|]. intros _.
    apply rejecting_before; [|intros _; apply steady_quiet,
                                quiet_updateScenarioCache].
    apply rejecting_validatedBody.
    exact Hfail.
Qed.

(** An invocation whose response handler rejects, whatever request was
    prepared, ends rejected: also when the executor throws or the request
    fails. *)
Lemma invoke_rejected (this : RestAction) (scenario : Scenario)
    (network : RequestOptions -> Network) :
  (forall options bodyForDiagram response,
     network options = Responded response ->
     rejecting (onResponse this options bodyForDiagram response)) ->
  promise (invoke this scenario network) = Rejected.
Proof.
  intros Hhandler. unfold invoke, invocation.
  set (start := {| cache := _; promise := Pending |}).
  unfold tryCatch at 1. unfold bind at 1.
  pose proof (quiet_prepare this start) as Hq.
  assert (Hne : promise (fst (prepare this start)) <> Resolved)
    by (apply (unresolved_keeps _ _ Hq); discriminate).
  destruct (prepare this start) as [r1 [[options bodyForDiagram]|]];
    cbn [fst snd] in *.
  - unfold bind. cbn [request fst snd].
    set (r2 := {| cache := cache r1; promise := promise r1 |}).
    assert (Hr2 : promise r2 <> Resolved) by exact Hne.
    match goal with
    | |- promise (fst (match ?t with _ => _ end)) = _ =>
        assert (Hdone : promise (fst t) = Rejected /\ snd t = Some tt)
    end.
    { split.
      - apply rejecting_handled; [|exact Hr2].
        destruct (network options) as [response|error] eqn:Hnet.
        + now apply Hhandler.
        + apply rejecting_throw.
      - unfold tryCatch.
        destruct (match network options with
                  | Responded response =>
                      onResponse this options bodyForDiagram response
                  | Failed _ => throw
                  end r2) as [r3 [[]|]]; reflexivity. }
    destruct Hdone as [Hp Hs].
    match goal with
    | |- promise (fst (match ?t with _ => _ end)) = _ =>
        destruct t as [r3 [[]|]]
    end; cbn in *; [exact Hp | discriminate].
  - cbn. now apply reject_unresolved.
Qed.

(** The cache an invocation leaves does not depend on the response
    validations of the action. *)
Lemma alike_invocation (this : RestAction)
    (network : RequestOptions -> Network) :
  alike (invocation this network)
        (invocation (withoutValidation this) network).
Proof.
  unfold invocation. apply alike_tryCatch; [|auto with eff].
  apply alike_bind.
  { unfold prepare. cbn.
    apply alike_bind; [auto with eff|]. intros cache.
    apply alike_bind; [destruct (restHead this); auto with eff|]. intros hs.
    apply alike_bind.
    { unfold generateRequestBody. cbn.
      destruct (data this), (dataBinary this), (variableAsPayload this);
        auto 10 with eff.
      apply alike_bind; [auto with eff|]. intros c.
      destruct (isPayload _); auto 10 with eff. }
    intros b.
    apply alike_bind; [destruct (form this); auto with eff|]. intros f.
    apply alike_bind; [auto with eff|]. intros baseURL.
    apply alike_bind; [destruct (queryParameters this); auto 10 with eff|].
    intros u.
    apply alike_bind; [|auto with eff].
    unfold getClientCertificateConfiguration. cbn.
    apply alike_tryCatch; [|auto 10 with eff].
    apply alike_bind; [auto with eff|]. intros c.
    apply alike_bind; [destruct (nonEmpty _); auto with eff|]. intros cc.
    apply alike_bind; [destruct (nonEmpty _); auto with eff|]. intros ck.
    destruct (nonEmpty cc), (nonEmpty ck); auto 10 with eff. }
  intros [options bodyForDiagram]. cbn [fst snd].
  apply alike_bind; [auto with eff|]. intros _.
  apply alike_tryCatch; [|auto 10 with eff].
  destruct (network options) as [response|error]; [|auto with eff].
  unfold onResponse.
  change (expectedStatusCodes (withoutValidation this))
    with (expectedStatusCodes this).
  change (serviceName (withoutValidation this)) with (serviceName this).
  apply alike_bind; [auto with eff|]. intros _.
  destruct (includes _ _); [|auto 10 with eff].
  apply alike_bind;
    [apply neutral_alike; apply neutral_validateHeaders|]. intros _.
  apply alike_bind; [apply alike_updateScenarioCache|]. intros _.
  apply alike_bind; [|auto with eff].
  destruct (body response) as [b|]; [|auto with eff].
  apply alike_bind; [auto with eff|]. intros parsed.
  apply alike_bind; [auto with eff|]. intros _.
  apply alike_bind;
    [apply neutral_alike; apply neutral_validatedBody|]. intros _.
  apply alike_updateScenarioCache.
Qed.

Lemma bind_done {A B} (c : Eff A) (k : A -> Eff B) (r r' : Run) (b : B) :
  bind c k r = (r', Some b) ->
  exists a r1, c r = (r1, Some a) /\ k a r1 = (r', Some b).
Proof.
  unfold bind. destruct (c r) as [r1 [a|]]; [eauto | discriminate].
Qed.

(** The retry configuration of every request the action prepares: three
    attempts, 1000 ms apart, and no retry strategy of its own, so that what
    is retried is what the requestretry library retries by default. *)
Lemma prepare_retry_options (this : RestAction) (r r' : Run)
    (options : RequestOptions) (bodyForDiagram : option JsValue) :
  prepare this r = (r', Some (options, bodyForDiagram)) ->
  maxAttempts options = 3 /\ retryDelay options = 1000 /\
  fullResponse options = true.
Proof.
  unfold prepare. intros Hp.
  repeat (apply bind_done in Hp as (? & ? & _ & Hp)).
  injection Hp as _ <- _. auto.
Qed.

Lemma silent_prepare (this : RestAction) : silent (prepare this).
Proof.
  unfold prepare, generateRequestBody, getClientCertificateConfiguration.
  apply silent_bind; [auto with eff|]. intros cache.
  apply silent_bind; [destruct (restHead this); auto with eff|]. intros hs.
  apply silent_bind.
  { destruct (data this), (dataBinary this), (variableAsPayload this);
      auto 10 with eff.
    apply silent_bind; [auto with eff|]. intros c.
    destruct (isPayload _); auto 10 with eff. }
  intros b.
  apply silent_bind; [destruct (form this); auto with eff|]. intros f.
  apply silent_bind; [auto with eff|]. intros baseURL.
  apply silent_bind; [destruct (queryParameters this); auto 10 with eff|].
  intros u.
  apply silent_bind; [|auto with eff].
  apply silent_tryCatch; [|auto 10 with eff].
  apply silent_bind; [auto with eff|]. intros c.
  apply silent_bind; [destruct (nonEmpty _); auto with eff|]. intros cc.
  apply silent_bind; [destruct (nonEmpty _); auto with eff|]. intros ck.
  destruct (nonEmpty cc), (nonEmpty ck); auto 10 with eff.
Qed.

Lemma silent_onResponse (this : RestAction) (options : RequestOptions)
    (bodyForDiagram : option JsValue) (response : Response) :
  silent (onResponse this options bodyForDiagram response).
Proof.
  unfold onResponse, validateHeaders, updateScenarioCache, validatedBody,
    validateBody.
  apply silent_bind; [auto with eff|]. intros _.
  destruct (includes _ _); [|auto 10 with eff].
  assert (Hupdate : forall res head,
            silent (match variables this with
                    | Some scenarioVariables =>
                        forEach (fun pair : string * string =>
                          let scope := {| scope_res := Some res;
                                          scope_head := Some head |} in
                          if String.prefix "res" (snd pair)
                             && negb (is_undefined res)
                          then bind (orThrow (js_eval (snd pair) scope))
                                 (fun v => setCache (fst pair) v)
                          else if String.prefix "head" (snd pair)
                                  && negb (is_undefined head)
                          then bind (orThrow (js_eval (snd pair) scope))
                                 (fun v => setCache (fst pair) v)
                          else pure tt) scenarioVariables
                    | None => pure tt
                    end)).
  { intros res head. destruct (variables this); [|auto with eff].
    apply silent_forEach. intros [k e]. cbn.
    destruct (_ && _); [auto 10 with eff|].
    destruct (_ && _); auto 10 with eff. }
  apply silent_bind.
  { apply silent_forEach. intros v.
    destruct (js_eval v _) as [x|]; [destruct (truthy x)|]; auto 10 with eff. }
  intros _. apply silent_bind; [apply Hupdate|]. intros _.
  apply silent_bind; [|auto with eff].
  destruct (body response) as [b|]; [|auto with eff].
  apply silent_bind; [auto with eff|]. intros parsed.
  apply silent_bind; [auto with eff|]. intros _.
  apply silent_bind; [|intros _; apply Hupdate].
  apply silent_tryCatch; [|auto 10 with eff].
  apply silent_bind; [|auto with eff].
  apply silent_forEach. intros v.
  destruct (js_eval v _) as [x|]; [destruct (truthy x)|]; auto 10 with eff.
Qed.

(** An invocation hands at most one request to the request library, with
    the retry configuration above: the action itself never issues a request
    again, whatever the response. *)
Lemma invoke_requests_once (this : RestAction) (scenario : Scenario)
    (network : RequestOptions -> Network) :
  requests (invoke this scenario network) = [] \/
  exists options,
    requests (invoke this scenario network) = [options] /\
    maxAttempts options = 3 /\ retryDelay options = 1000.
Proof.
  remember (invoke this scenario network) as final eqn:Hfinal.
  unfold invoke, invocation in Hfinal.
  set (start := {| cache := _; promise := Pending |}) in Hfinal.
  unfold tryCatch at 1 in Hfinal. unfold bind at 1 in Hfinal.
  pose proof (silent_prepare this start) as Hsilent.
  destruct (prepare this start) as [r1 [[options bodyForDiagram]|]] eqn:Hp;
    cbn [fst snd] in *.
  - right. exists options.
    destruct (prepare_retry_options _ _ _ _ _ Hp) as (Hm & Hd & _).
    split; [|auto].
    assert (Hhandled : silent
              (tryCatch
                 (match network options with
                  | Responded response =>
                      onResponse this options bodyForDiagram response
                  | Failed _ => throw
                  end) onFailure)).
    { apply silent_tryCatch; [|unfold onFailure; auto with eff].
      destruct (network options); [apply silent_onResponse | auto with eff]. }
    unfold bind in Hfinal. cbn [request fst snd] in Hfinal.
    match type of Hfinal with
    | context [tryCatch _ onFailure ?r] => specialize (Hhandled r)
    end.
    destruct (tryCatch _ onFailure _) as [r3 [[]|]]; cbn in *;
      subst final; rewrite Hhandled, Hsilent; reflexivity.
  - left. subst final. cbn. exact Hsilent.
Qed.

(** C3: a REST invocation whose every response has a status code outside
    [expectedStatusCodes] ends rejected, whatever the body and whatever the
    validation predicates evaluate to; and an action built from a
    definition without [expectedStatusCodes], the argument left out, expects
    200, 201 and 204. *)
Theorem status_outside_expected_fails (this : RestAction)
    (scenario : Scenario) (network : RequestOptions -> Network)
    (actionDef : RestActionDefinition) (url serviceName : string) :
  (forall options response,
     network options = Responded response ->
     includes (expectedStatusCodes this) (statusCode response) = false) ->
  def_expectedStatusCodes actionDef = None ->
  promise (invoke this scenario network) = Rejected /\
  expectedStatusCodes (fromDefinition actionDef url serviceName)
    = [200; 201; 204].
Proof.
  intros Hout Hdef. split.
  - apply invoke_rejected. intros options bodyForDiagram response Hnet.
    apply rejecting_unexpected_status. eauto.
  - cbn. now rewrite Hdef.
Qed.


End InvokeProperties.

Example status_outside_expected_fails_witness :
  promise (@invoke fixtureEngine fixtureInjection
             (fixtureAction "res.code === undefined") fixtureScenario
             (fun _ => Responded (fixtureResponse 404))) = Rejected /\
  expectedStatusCodes (fixtureAction "res.code === undefined") = [200; 201; 204].
Proof.
  apply (@status_outside_expected_fails fixtureEngine fixtureInjection
           (fixtureAction "res.code === undefined") fixtureScenario
           (fun _ => Responded (fixtureResponse 404))).
  - intros options response [= <-]. reflexivity.
  - reflexivity.
Defined.


(** ** What an invocation writes, and when it resolves *)

(** [c] writes the cache at keys of [K] only. *)
Definition framed {A} (K : string -> Prop) (c : Eff A) : Prop :=
  forall r k, ~ K k -> cache (fst (c r)) !! k = cache r !! k.

(** The run an invocation starts from. *)
Definition start (scenario : Scenario) : Run :=
  {| cache := scenario_cache scenario; promise := Pending; requests := [];
     diagram := []; errors := [] |}.

(** The keys [updateScenarioCache] can write. *)
Definition variableKeys (a : RestAction) (k : string) : Prop :=
  In k (map fst (spread (variables a))).

(** An action that sends the value of a scenario variable as its body. *)
Definition fixturePayloadAction (variable : string) : RestAction :=
  fromDefinition
    {| def_name := "put"; def_description := None;
       def_method := Some "PUT"; def_queryParameters := None;
       def_headers := None; def_data := None; def_dataBinary := None;
       def_form := None; def_variableAsPayload := Some variable;
       def_responseValidation := None; def_variables := None;
       def_expectedStatusCodes := None;
       def_invokeEvenOnFail := None; def_allowFailure := None;
       def_clientCertificate := None; def_clientKey := None;
       def_expectBinaryResponse := None; def_diagramConfiguration := None |}
    "http://localhost:8080/" "service".

(** A definition that adds nothing to its template. *)
Definition fixtureBareDefinition : RestActionDefinition :=
  {| def_name := "derived"; def_description := None;
     def_method := None; def_queryParameters := None;
     def_headers := None; def_data := None; def_dataBinary := None;
     def_form := None; def_variableAsPayload := None;
     def_responseValidation := None; def_variables := None;
     def_expectedStatusCodes := None;
     def_invokeEvenOnFail := None; def_allowFailure := None;
     def_clientCertificate := None; def_clientKey := None;
     def_expectBinaryResponse := None; def_diagramConfiguration := None |}.

Section FrameProperties.

Context (K : string -> Prop).

Lemma framed_pure {A} (a : A) : framed K (pure a).
Proof. intros r k _. reflexivity. Qed.

Lemma framed_throw {A} : framed K (@throw A).
Proof. intros r k _. reflexivity. Qed.

Lemma framed_orThrow {A} (o : option A) : framed K (orThrow o).
Proof. destruct o; intros r k _; reflexivity. Qed.

Lemma framed_readCache : framed K readCache.
Proof. intros r k _. reflexivity. Qed.

Lemma framed_record (d : DiagramEntry) : framed K (record d).
Proof. intros r k _. reflexivity. Qed.

Lemma framed_logError (e : ErrorLog) : framed K (logError e).
Proof. intros r k _. reflexivity. Qed.

Lemma framed_request (o : RequestOptions) : framed K (request o).
Proof. intros r k _. reflexivity. Qed.

Lemma framed_rejectP : framed K rejectP.
Proof. intros r k _. reflexivity. Qed.

Lemma framed_resolveP : framed K resolveP.
Proof. intros r k _. reflexivity. Qed.

Lemma framed_setCache (k0 : string) (v : JsValue) :
  K k0 -> framed K (setCache k0 v).
Proof.
  intros Hk0 r k Hk. cbn. apply lookup_insert_ne. intros ->. contradiction.
Qed.

Lemma framed_bind {A B} (c : Eff A) (f : A -> Eff B) :
  framed K c -> (forall a, framed K (f a)) -> framed K (bind c f).
Proof.
  intros Hc Hf r k Hk. unfold bind. specialize (Hc r k Hk).
  destruct (c r) as [r' [a|]]; cbn in *; [|exact Hc].
  now rewrite (Hf a r' k Hk).
Qed.

Lemma framed_tryCatch {A} (c handler : Eff A) :
  framed K c -> framed K handler -> framed K (tryCatch c handler).
Proof.
  intros Hc Hh r k Hk. unfold tryCatch. specialize (Hc r k Hk).
  destruct (c r) as [r' [a|]]; cbn in *; [exact Hc|].
  now rewrite (Hh r' k Hk).
Qed.

Lemma framed_forEach {A} (f : A -> Eff unit) (l : list A) :
  (forall x, In x l -> framed K (f x)) -> framed K (forEach f l).
Proof.
  induction l as [|x l IH]; intros Hf; cbn; [apply framed_pure|].
  apply framed_bind; [apply Hf; now left|].
  intros _. apply IH. intros y Hy. apply Hf. now right.
Qed.

Lemma neutral_framed (c : Eff unit) : neutral c -> framed K c.
Proof. intros Hc r k _. now rewrite (proj1 (Hc r)). Qed.

End FrameProperties.

#[local] Hint Resolve framed_pure framed_throw framed_orThrow framed_readCache
  framed_record framed_logError framed_request framed_rejectP framed_resolveP
  framed_bind framed_tryCatch : eff.

Section Outcomes.

Context `{JsEngine} `{VariableInjection}.

Lemma steady_tryCatch {A} (c handler : Eff A) :
  steady c -> steady handler -> steady (tryCatch c handler).
Proof.
  intros Hc Hh r Hr. unfold tryCatch. specialize (Hc r Hr).
  destruct (c r) as [r' [a|]]; cbn in *; [exact Hc|]. now apply Hh.
Qed.

(** [getClientCertificateConfiguration] never throws and writes nothing but
    the error log. *)
Lemma certificate_done (this : RestAction) (r : Run) :
  exists r' certificate,
    getClientCertificateConfiguration this r = (r', Some certificate) /\
    cache r' = cache r /\ promise r' = promise r /\
    requests r' = requests r /\ diagram r' = diagram r /\
    (errors r' = errors r \/
     errors r' = errors r ++ [CertificateError] /\ certificate = None) /\
    (forall c, certificate = Some c ->
       nonEmpty (clientCertificate this) <> None /\
       nonEmpty (clientKey this) <> None /\
       rejectUnauthorized c = false).
Proof.
  unfold getClientCertificateConfiguration, tryCatch, bind, readCache, orThrow.
  destruct (nonEmpty (clientCertificate this)) as [c|] eqn:Hc;
    destruct (nonEmpty (clientKey this)) as [k|] eqn:Hk; cbn;
    repeat match goal with
           | |- context [match ?x with _ => _ end] =>
               lazymatch x with
               | context [match _ with _ => _ end] => fail
               | _ => destruct x eqn:?; cbn
               end
           end;
    eexists _, _; (split; [reflexivity|]); cbn;
    do 4 (split; [reflexivity|]);
    (split; [first [left; reflexivity | right; split; reflexivity]|]);
    intros c0 Hc0; inversion Hc0; repeat split; congruence.
Qed.

Lemma framed_generateRequestBody (K : string -> Prop) (this : RestAction) :
  framed K (generateRequestBody this).
Proof.
  unfold generateRequestBody.
  destruct (data this), (dataBinary this), (variableAsPayload this);
    auto 10 with eff.
  apply framed_bind; [auto with eff|]. intros c.
  destruct (isPayload _); auto 10 with eff.
Qed.

Lemma framed_getClientCertificateConfiguration (K : string -> Prop)
    (this : RestAction) :
  framed K (getClientCertificateConfiguration this).
Proof.
  intros r k _.
  destruct (certificate_done this r) as (r' & c & Heq & Hc & _).
  now rewrite Heq, <- Hc.
Qed.

Lemma framed_prepare (K : string -> Prop) (this : RestAction) :
  framed K (prepare this).
Proof.
  unfold prepare.
  apply framed_bind; [auto with eff|]. intros cache.
  apply framed_bind; [destruct (restHead this); auto with eff|]. intros hs.
  apply framed_bind; [apply framed_generateRequestBody|]. intros b.
  apply framed_bind; [destruct (form this); auto with eff|]. intros f.
  apply framed_bind; [auto with eff|]. intros baseURL.
  apply framed_bind; [destruct (queryParameters this); auto 10 with eff|].
  intros u.
  apply framed_bind; [apply framed_getClientCertificateConfiguration|].
  auto with eff.
Qed.

Lemma framed_updateScenarioCache (this : RestAction) (res head : JsValue) :
  framed (variableKeys this) (updateScenarioCache this res head).
Proof.
  unfold updateScenarioCache, variableKeys.
  destruct (variables this) as [vs|]; [|auto with eff]. cbn.
  apply framed_forEach. intros [k e] Hin. cbn.
  assert (Hk : In k (map fst vs)) by (apply (in_map fst _ _ Hin)).
  destruct (String.prefix "res" e && _);
    [|destruct (String.prefix "head" e && _)]; auto with eff;
    (apply framed_bind; [auto with eff|]; intros v;
     now apply framed_setCache).
Qed.

Lemma framed_onResponse (this : RestAction) (options : RequestOptions)
    (bodyForDiagram : option JsValue) (response : Response) :
  framed (variableKeys this)
    (onResponse this options bodyForDiagram response).
Proof.
  unfold onResponse.
  apply framed_bind; [auto with eff|]. intros _.
  destruct (includes _ _); [|auto 10 with eff].
  apply framed_bind; [apply neutral_framed, neutral_validateHeaders|].
  intros _.
  apply framed_bind; [apply framed_updateScenarioCache|]. intros _.
  apply framed_bind; [|auto with eff].
  destruct (body response) as [b|]; [|auto with eff].
  apply framed_bind; [auto with eff|]. intros parsed.
  apply framed_bind; [auto with eff|]. intros _.
  apply framed_bind; [apply neutral_framed, neutral_validatedBody|].
  intros _. apply framed_updateScenarioCache.
Qed.

Lemma framed_unexpected_status (K : string -> Prop) (this : RestAction)
    (options : RequestOptions) (bodyForDiagram : option JsValue)
    (response : Response) :
  includes (expectedStatusCodes this) (statusCode response) = false ->
  framed K (onResponse this options bodyForDiagram response).
Proof. intros Hout. unfold onResponse. rewrite Hout. auto 10 with eff. Qed.

Lemma framed_invocation (K : string -> Prop) (this : RestAction)
    (network : RequestOptions -> Network) :
  (forall options bodyForDiagram response,
     network options = Responded response ->
     framed K (onResponse this options bodyForDiagram response)) ->
  framed K (invocation this network).
Proof.
  intros Hhandler. unfold invocation.
  apply framed_tryCatch; [|auto with eff].
  apply framed_bind; [apply framed_prepare|]. intros [options b].
  cbn [fst snd].
  apply framed_bind; [auto with eff|]. intros _.
  apply framed_tryCatch; [|unfold onFailure; auto with eff].
  destruct (network options) as [response|error] eqn:Hnet;
    [now apply Hhandler | auto with eff].
Qed.

(** The handler of the request never throws. *)
Lemma handled_done (c : Eff unit) (r : Run) :
  snd (tryCatch c onFailure r) = Some tt.
Proof. unfold tryCatch. destruct (c r) as [r' [[]|]]; reflexivity. Qed.

(** An invocation is what its executor prepares, handed to the request
    library once; when the executor throws, nothing is requested. *)
Lemma invoke_cases (this : RestAction) (scenario : Scenario)
    (network : RequestOptions -> Network) :
  (exists r1,
     prepare this (start scenario) = (r1, None) /\
     invoke this scenario network = fst (rejectP r1)) \/
  (exists r1 options bodyForDiagram,
     prepare this (start scenario) = (r1, Some (options, bodyForDiagram)) /\
     invoke this scenario network =
       fst (tryCatch
              (match network options with
               | Responded response =>
                   onResponse this options bodyForDiagram response
               | Failed _ => throw
               end) onFailure (fst (request options r1)))).
Proof.
  assert (Heq : invoke this scenario network =
            match prepare this (start scenario) with
            | (r1, Some (options, bodyForDiagram)) =>
                fst (tryCatch
                       (match network options with
                        | Responded response =>
                            onResponse this options bodyForDiagram response
                        | Failed _ => throw
                        end) onFailure (fst (request options r1)))
            | (r1, None) => fst (rejectP r1)
            end).
  { unfold invoke, invocation. fold (start scenario).
    unfold tryCatch at 1. unfold bind at 1.
    destruct (prepare this (start scenario))
      as [r1 [[options bodyForDiagram]|]]; [|reflexivity].
    unfold bind. cbn [request fst snd].
    pose proof (handled_done
                  (match network options with
                   | Responded response =>
                       onResponse this options bodyForDiagram response
                   | Failed _ => throw
                   end)
                  (fst (request options r1))) as Hdone.
    cbn [request fst] in Hdone.
    destruct (tryCatch _ onFailure _) as [r3 [[]|]];
      [reflexivity | discriminate]. }
  destruct (prepare this (start scenario))
    as [r1 [[options bodyForDiagram]|]].
  - right. exists r1, options, bodyForDiagram. auto.
  - left. exists r1. auto.
Qed.

Lemma prepared_requests (this : RestAction) (r : Run) :
  requests (fst (prepare this r)) = requests r.
Proof. apply silent_prepare. Qed.

(** The requests of an invocation whose executor has prepared [options]. *)
Lemma handled_requests (this : RestAction)
    (network : RequestOptions -> Network) (options : RequestOptions)
    (bodyForDiagram : option JsValue) (r1 : Run) :
  requests
    (fst (tryCatch
            (match network options with
             | Responded response =>
                 onResponse this options bodyForDiagram response
             | Failed _ => throw
             end) onFailure (fst (request options r1))))
    = requests r1 ++ [options].
Proof.
  assert (Hsilent : silent
            (tryCatch
               (match network options with
                | Responded response =>
                    onResponse this options bodyForDiagram response
                | Failed _ => throw
                end) onFailure)).
  { apply silent_tryCatch; [|unfold onFailure; auto with eff].
    destruct (network options); [apply silent_onResponse | auto with eff]. }
  now rewrite Hsilent.
Qed.

(** A response whose body does not parse: the handler throws before it
    resolves. *)
Lemma rejecting_unparsed (this : RestAction) (options : RequestOptions)
    (bodyForDiagram : option JsValue) (response : Response) (b : Body) :
  includes (expectedStatusCodes this) (statusCode response) = true ->
  body response = Some b ->
  parseResponseBody b (obj_get "content-type" (headers response)) = None ->
  rejecting (onResponse this options bodyForDiagram response).
Proof.
  intros Hin Hb Hparse. unfold onResponse. rewrite Hin, Hb.
  apply rejecting_after; [auto with eff|]. intros _.
  apply rejecting_after; [apply quiet_validateHeaders|]. intros _.
  apply rejecting_after; [apply quiet_updateScenarioCache|]. intros _.
  cbn. rewrite Hparse. intros r Hr. cbn. split; congruence.
Qed.

Lemma steady_onResponse (this : RestAction) (options : RequestOptions)
    (bodyForDiagram : option JsValue) (response : Response) :
  steady (onResponse this options bodyForDiagram response).
Proof.
  unfold onResponse. apply steady_bind; [auto with eff|]. intros _.
  destruct (includes _ _); [|auto 10 with eff].
  apply steady_bind; [apply steady_quiet, quiet_validateHeaders|]. intros _.
  apply steady_bind; [apply steady_quiet, quiet_updateScenarioCache|].
  intros _. apply steady_bind; [|auto with eff].
  destruct (body response) as [b|]; [|auto with eff].
  apply steady_quiet.
  apply quiet_bind; [auto with eff|]. intros parsed.
  apply quiet_bind; [auto with eff|]. intros _.
  apply quiet_bind; [apply quiet_validatedBody|]. intros _.
  apply quiet_updateScenarioCache.
Qed.

Lemma prepared_unresolved (this : RestAction) (scenario : Scenario) :
  promise (fst (prepare this (start scenario))) <> Resolved.
Proof.
  apply (unresolved_keeps _ _ (quiet_prepare this (start scenario))).
  discriminate.
Qed.

(** The body and the certificate of the options the executor prepares are
    those [generateRequestBody] and [getClientCertificateConfiguration]
    return, and the promise is where [generateRequestBody] has left it. *)
Lemma prepare_parts (this : RestAction) (r r1 : Run)
    (options : RequestOptions) (bodyForDiagram : option JsValue) :
  prepare this r = (r1, Some (options, bodyForDiagram)) ->
  exists r2 r3 r4 body,
    generateRequestBody this r = (r2, Some (body, bodyForDiagram)) /\
    req_body options = body /\
    getClientCertificateConfiguration this r3
      = (r4, Some (req_certificate options)) /\
    promise r1 = promise r2.
Proof.
  unfold prepare. intros Hp.
  apply bind_done in Hp as (c & ra & Hc & Hp). injection Hc as <- <-.
  apply bind_done in Hp as (hs & rb & Hh & Hp).
  assert (rb = r) as ->.
  { destruct (restHead this); [|injection Hh as <- _; reflexivity].
    destruct (injectEvalAndVarsToMap _ _); cbn in Hh;
      [injection Hh as <- _; reflexivity | discriminate]. }
  apply bind_done in Hp as ([body forDiagram] & r2 & Hg & Hp).
  apply bind_done in Hp as (f & rc & Hf & Hp).
  assert (rc = r2) as ->.
  { destruct (form this); [|injection Hf as <- _; reflexivity].
    destruct (injectEvalAndVarsToMap _ _); cbn in Hf;
      [injection Hf as <- _; reflexivity | discriminate]. }
  apply bind_done in Hp as (baseURL & rd & Hu & Hp).
  assert (rd = r2) as ->.
  { destruct (injectEvalAndVarsToString _ _); cbn in Hu;
      [injection Hu as <- _; reflexivity | discriminate]. }
  apply bind_done in Hp as (u & re & Hq & Hp).
  assert (re = r2) as ->.
  { destruct (queryParameters this); [injection Hq as <- _; reflexivity|].
    apply bind_done in Hq as (q & rq & Hq & Hq').
    destruct (injectEvalAndVarsToMap _ _); cbn in Hq; [|discriminate].
    injection Hq as <- _. injection Hq' as <- _. reflexivity. }
  apply bind_done in Hp as (certificate & r4 & Hcert & Hp).
  injection Hp as <- <- <-. cbn.
  exists r2, r2, r4, body. repeat split; [exact Hg | exact Hcert |].
  destruct (certificate_done this r2) as (r' & c' & Heq & _ & Hpr & _).
  rewrite Heq in Hcert. injection Hcert as <- _. exact Hpr.
Qed.

Lemma requests_prepared (this : RestAction) (scenario : Scenario)
    (network : RequestOptions -> Network) (r1 : Run)
    (options : RequestOptions) (bodyForDiagram : option JsValue) :
  prepare this (start scenario) = (r1, Some (options, bodyForDiagram)) ->
  requests (invoke this scenario network) = [options].
Proof.
  intros Hp.
  destruct (invoke_cases this scenario network)
    as [(r & Hp' & _)|(r & o & b & Hp' & Heq)];
    rewrite Hp in Hp'; [discriminate|].
  injection Hp' as <- <- <-.
  rewrite Heq, handled_requests.
  pose proof (prepared_requests this (start scenario)) as Hreq.
  rewrite Hp in Hreq. cbn in Hreq. now rewrite Hreq.
Qed.

Lemma requests_thrown (this : RestAction) (scenario : Scenario)
    (network : RequestOptions -> Network) (r1 : Run) :
  prepare this (start scenario) = (r1, None) ->
  requests (invoke this scenario network) = [].
Proof.
  intros Hp.
  destruct (invoke_cases this scenario network)
    as [(r & Hp' & Heq)|(r & o & b & Hp' & _)];
    rewrite Hp in Hp'; [|discriminate].
  injection Hp' as <-. rewrite Heq. cbn.
  pose proof (prepared_requests this (start scenario)) as Hreq.
  rewrite Hp in Hreq. exact Hreq.
Qed.

(** X15: whatever the network answers, an invocation changes the scenario
    cache at no key but those of the [variables] of the action. *)
Theorem cache_written_only_at_variables (this : RestAction)
    (scenario : Scenario) (network : RequestOptions -> Network)
    (k : string) :
  ~ variableKeys this k ->
  cache (invoke this scenario network) !! k = scenario_cache scenario !! k.
Proof.
  intros Hk. unfold invoke.
  apply (framed_invocation (variableKeys this)); [|exact Hk].
  intros options bodyForDiagram response _. apply framed_onResponse.
Qed.

(** X16: an invocation that gets no response with an expected status code,
    because the executor throws, the request fails or every response has
    another status, leaves the scenario cache as it was. *)
Theorem cache_untouched_without_expected_response (this : RestAction)
    (scenario : Scenario) (network : RequestOptions -> Network) :
  (forall options response,
     network options = Responded response ->
     includes (expectedStatusCodes this) (statusCode response) = false) ->
  cache (invoke this scenario network) = scenario_cache scenario.
Proof.
  intros Hout. apply map_eq. intros k. unfold invoke.
  apply (framed_invocation (fun _ => False)); [|tauto].
  intros options bodyForDiagram response Hnet.
  apply framed_unexpected_status. eauto.
Qed.

(** X17: an invocation resolves only if exactly one request was handed to
    the request library and was answered by a response with an expected
    status code, a body that parses if there is one, and no failing header
    or body validation. *)
Theorem resolved_only_by_expected_valid_response (this : RestAction)
    (scenario : Scenario) (network : RequestOptions -> Network) :
  promise (invoke this scenario network) = Resolved ->
  exists options response,
    requests (invoke this scenario network) = [options] /\
    network options = Responded response /\
    includes (expectedStatusCodes this) (statusCode response) = true /\
    headerValidationFails this response = false /\
    bodyValidationFails this response = false /\
    (forall b, body response = Some b ->
       parseResponseBody b (obj_get "content-type" (headers response))
         <> None).
Proof.
  intros Hres.
  pose proof (prepared_unresolved this scenario) as Hne.
  destruct (invoke_cases this scenario network)
    as [(r1 & Hp & Heq)|(r1 & options & b & Hp & Heq)];
    rewrite Hp in Hne; cbn in Hne.
  - rewrite Heq in Hres. cbn in Hres.
    rewrite (reject_unresolved _ Hne) in Hres. discriminate.
  - assert (Hhandled : forall c, rejecting c ->
              promise (fst (tryCatch c onFailure (fst (request options r1))))
                = Rejected)
      by (intros c Hc; now apply rejecting_handled).
    rewrite Heq in Hres. exists options.
    destruct (network options) as [response|error] eqn:Hnet;
      [|rewrite (Hhandled _ rejecting_throw) in Hres; discriminate].
    exists response.
    split; [exact (requests_prepared _ _ _ _ _ _ Hp)|].
    split; [reflexivity|].
    destruct (includes (expectedStatusCodes this) (statusCode response))
      eqn:Hin.
    2:{ rewrite (Hhandled _ (rejecting_unexpected_status this options b
                               response Hin)) in Hres. discriminate. }
    split; [reflexivity|].
    destruct (headerValidationFails this response
              || bodyValidationFails this response) eqn:Hfail.
    { rewrite (Hhandled _ (rejecting_failed_validation this options b
                             response Hin Hfail)) in Hres. discriminate. }
    apply orb_false_elim in Hfail as [Hh Hb].
    split; [exact Hh|]. split; [exact Hb|].
    intros body0 Hbody Hparse.
    rewrite (Hhandled _ (rejecting_unparsed this options b response body0
                           Hin Hbody Hparse)) in Hres.
    discriminate.
Qed.

(** X18: an action that sends a scenario variable as its body, invoked when
    the cache holds no string, buffer or stream at that variable, ends
    rejected; the request is not held back for that: if the executor gets
    through, it is made, with no body. *)
Theorem missing_payload_variable_rejects (this : RestAction)
    (scenario : Scenario) (network : RequestOptions -> Network)
    (variable : string) :
  data this = None -> dataBinary this = None ->
  variableAsPayload this = Some variable ->
  isPayload (scenario_cache scenario !! variable) = false ->
  promise (invoke this scenario network) = Rejected /\
  (snd (prepare this (start scenario)) <> None ->
   exists options,
     requests (invoke this scenario network) = [options] /\
     req_body options = BodyNull).
Proof.
  intros Hd Hb Hv Hpay.
  pose proof (prepared_unresolved this scenario) as Hne.
  destruct (invoke_cases this scenario network)
    as [(r1 & Hp & Heq)|(r1 & options & b & Hp & Heq)];
    rewrite Hp in *; cbn in Hne.
  - split; [|cbn; congruence].
    rewrite Heq. cbn. now apply reject_unresolved.
  - destruct (prepare_parts _ _ _ _ _ Hp)
      as (r2 & _ & _ & body & Hg & Hbody & _ & Hpr).
    unfold generateRequestBody in Hg. rewrite Hd, Hb, Hv in Hg.
    unfold bind, readCache in Hg. cbn in Hg. rewrite Hpay in Hg.
    cbn in Hg. injection Hg as <- <- _. cbn in Hpr.
    split.
    + rewrite Heq. apply steady_tryCatch.
      * destruct (network options);
          [apply steady_onResponse | auto with eff].
      * unfold onFailure. auto with eff.
      * exact Hpr.
    + intros _. exists options. split; [|exact Hbody].
      exact (requests_prepared _ _ _ _ _ _ Hp).
Qed.

(** X19: a request carries a client certificate only if the action has
    both a certificate and a key, and then the verification of the server
    certificate is switched off. *)
Theorem certificate_needs_both_and_disables_verification
    (this : RestAction) (scenario : Scenario)
    (network : RequestOptions -> Network) (options : RequestOptions)
    (certificate : ClientCertificate) :
  In options (requests (invoke this scenario network)) ->
  req_certificate options = Some certificate ->
  nonEmpty (clientCertificate this) <> None /\
  nonEmpty (clientKey this) <> None /\
  rejectUnauthorized certificate = false.
Proof.
  intros Hin Hcert.
  destruct (invoke_cases this scenario network)
    as [(r1 & Hp & Heq)|(r1 & prepared & b & Hp & Heq)].
  - rewrite (requests_thrown _ _ _ _ Hp) in Hin. destruct Hin.
  - rewrite (requests_prepared _ _ _ _ _ _ Hp) in Hin.
    destruct Hin as [<-|[]].
    destruct (prepare_parts _ _ _ _ _ Hp)
      as (_ & r3 & r4 & _ & _ & _ & Hc & _).
    destruct (certificate_done this r3) as (r' & c' & Heq' & _ & _ & _ & _
                                            & _ & Hboth).
    rewrite Heq' in Hc. injection Hc as _ ->. now apply Hboth.
Qed.

(** X20: an action built from a template validates what the template
    validates: a response with an expected status code that fails a header
    or body validation of the template fails the derived action, whatever
    the definition adds. *)
Theorem derived_action_inherits_template_validations
    (actionDef : RestActionDefinition) (template : RestAction)
    (scenario : Scenario) (network : RequestOptions -> Network)
    (response : Response) :
  let derived := fromTemplate actionDef template in
  (forall options, network options = Responded response) ->
  includes (expectedStatusCodes derived) (statusCode response) = true ->
  headerValidationFails template response
    || bodyValidationFails template response = true ->
  responseValidation derived
    = responseValidation template
      ++ default [] (def_responseValidation actionDef) /\
  promise (invoke derived scenario network) = Rejected.
Proof.
  intros derived Hnet Hin Hfail. split; [reflexivity|].
  apply invoke_rejected. intros options bodyForDiagram response' Hnet'.
  rewrite Hnet in Hnet'. injection Hnet' as <-.
  apply rejecting_failed_validation; [exact Hin|].
  unfold headerValidationFails, bodyValidationFails in *.
  change (responseValidation derived)
    with (responseValidation template
          ++ default [] (def_responseValidation actionDef)).
  rewrite !List.filter_app, existsb_app.
  apply orb_true_iff in Hfail as [Hh|Hb];
    [rewrite Hh; reflexivity|].
  apply orb_true_iff. right.
  destruct (body response) as [body0|]; [|discriminate].
  destruct (parseResponseBody body0 _) as [parsed|]; [|discriminate].
  rewrite existsb_app, Hb. reflexivity.
Qed.

End Outcomes.

(** [c] leaves the promise alone and does not throw. *)
Definition calm {A} (c : Eff A) : Prop :=
  forall r, promise (fst (c r)) = promise r /\ exists a, snd (c r) = Some a.

(** [c] resolves the promise and does not throw. *)
Definition resolving {A} (c : Eff A) : Prop :=
  forall r, promise (fst (c r)) = resolve (promise r) /\
            exists a, snd (c r) = Some a.

Lemma calm_pure {A} (a : A) : calm (pure a).
Proof. intros r. cbn. eauto. Qed.

Lemma calm_record (d : DiagramEntry) : calm (record d).
Proof. intros r. cbn. eauto. Qed.

Lemma calm_setCache (k : string) (v : JsValue) : calm (setCache k v).
Proof. intros r. cbn. eauto. Qed.

Lemma calm_bind {A B} (c : Eff A) (f : A -> Eff B) :
  calm c -> (forall a, calm (f a)) -> calm (bind c f).
Proof.
  intros Hc Hf r. unfold bind. destruct (Hc r) as [Hp [a Ha]].
  destruct (c r) as [r' o]. cbn in *. subst o.
  destruct (Hf a r') as [Hp' Ha']. now rewrite Hp' , Hp.
Qed.

Lemma calm_bind_pure {A B} (a : A) (f : A -> Eff B) :
  calm (f a) -> calm (bind (pure a) f).
Proof. intros Hf r. exact (Hf r). Qed.

Lemma calm_tryCatch {A} (c handler : Eff A) :
  calm c -> calm (tryCatch c handler).
Proof.
  intros Hc r. unfold tryCatch. destruct (Hc r) as [Hp [a Ha]].
  destruct (c r) as [r' o]. cbn in *. subst o. cbn. eauto.
Qed.

Lemma calm_forEach {A} (f : A -> Eff unit) (l : list A) :
  (forall x, In x l -> calm (f x)) -> calm (forEach f l).
Proof.
  induction l as [|x l IH]; intros Hf; cbn; [apply calm_pure|].
  apply calm_bind; [apply Hf; now left|].
  intros _. apply IH. intros y Hy. apply Hf. now right.
Qed.

Lemma resolving_after {A B} (c : Eff A) (f : A -> Eff B) :
  calm c -> (forall a, resolving (f a)) -> resolving (bind c f).
Proof.
  intros Hc Hf r. unfold bind. destruct (Hc r) as [Hp [a Ha]].
  destruct (c r) as [r' o]. cbn in *. subst o.
  destruct (Hf a r') as [Hp' Ha']. now rewrite Hp', Hp.
Qed.

Lemma resolving_resolveP : resolving resolveP.
Proof. intros r. cbn. eauto. Qed.

Section Resolution.

Context `{JsEngine} `{VariableInjection}.

(** Whether evaluating an expression in a scope throws. *)
Definition throwsAt (scope : Scope) (expression : string) : bool :=
  match js_eval expression scope with Some _ => false | None => true end.

(** Whether [updateScenarioCache({ res, head })] throws: at a variable it
    evaluates, the expression throws. *)
Definition updateThrows (a : RestAction) (res head : JsValue) : bool :=
  existsb (fun pair : string * string =>
    (String.prefix "res" (snd pair) && negb (is_undefined res)
     || String.prefix "head" (snd pair) && negb (is_undefined head))
    && throwsAt {| scope_res := Some res; scope_head := Some head |}
         (snd pair))
    (spread (variables a)).

Lemma calm_validateHeaders (this : RestAction) (response : Response) :
  headerValidationFails this response = false ->
  calm (validateHeaders this (objValue (headers response))).
Proof.
  unfold headerValidationFails, validateHeaders. intros Hok.
  apply calm_forEach. intros v Hv.
  assert (Hf : fails {| scope_res := None;
                        scope_head := Some (objValue (headers response)) |} v
               = false).
  { destruct (fails _ v) eqn:Hf; [|reflexivity].
    rewrite <- Hok. symmetry. apply existsb_exists. eauto. }
  unfold fails in Hf. destruct (js_eval v _) as [x|]; [|discriminate].
  apply negb_false_iff in Hf. rewrite Hf. apply calm_pure.
Qed.

Lemma calm_validateBody (this : RestAction) (res : JsValue) :
  existsb (fails {| scope_res := Some res; scope_head := None |})
    (List.filter (String.prefix "res.") (responseValidation this)) = false ->
  calm (validateBody this res).
Proof.
  unfold validateBody. intros Hok.
  apply calm_forEach. intros v Hv.
  assert (Hf : fails {| scope_res := Some res; scope_head := None |} v
               = false).
  { destruct (fails _ v) eqn:Hf; [|reflexivity].
    rewrite <- Hok. symmetry. apply existsb_exists. eauto. }
  unfold fails in Hf. destruct (js_eval v _) as [x|]; [|discriminate].
  apply negb_false_iff in Hf. rewrite Hf. apply calm_pure.
Qed.

Lemma calm_updateScenarioCache (this : RestAction) (res head : JsValue) :
  updateThrows this res head = false ->
  calm (updateScenarioCache this res head).
Proof.
  unfold updateThrows, updateScenarioCache. intros Hok.
  destruct (variables this) as [vs|]; [|apply calm_pure]. cbn in Hok.
  apply calm_forEach. intros [k e] Hin. cbn.
  assert (He : (String.prefix "res" e && negb (is_undefined res)
                || String.prefix "head" e && negb (is_undefined head))
               && throwsAt {| scope_res := Some res;
                              scope_head := Some head |} e = false).
  { match goal with |- ?b = false => destruct b eqn:Hb end; [|reflexivity].
    rewrite <- Hok. symmetry. apply existsb_exists. exists (k, e). auto. }
  unfold throwsAt in He.
  destruct (String.prefix "res" e && negb (is_undefined res));
    [|destruct (String.prefix "head" e && negb (is_undefined head))];
    cbn in He; try apply calm_pure;
    (destruct (js_eval e _) as [v|]; [|discriminate]);
    cbn; (apply calm_bind; [apply calm_pure|]); intros v';
    apply calm_setCache.
Qed.

(** X21: when the executor has prepared a request without rejecting, and
    the request is answered by a response with an expected status code,
    headers that pass every header validation, a body (if any) that parses
    and passes every body validation, and no variable expression throws,
    the invocation resolves. *)
Theorem expected_valid_response_resolves (this : RestAction)
    (scenario : Scenario) (network : RequestOptions -> Network)
    (r1 : Run) (options : RequestOptions) (bodyForDiagram : option JsValue)
    (response : Response) :
  prepare this (start scenario) = (r1, Some (options, bodyForDiagram)) ->
  promise r1 = Pending ->
  network options = Responded response ->
  includes (expectedStatusCodes this) (statusCode response) = true ->
  headerValidationFails this response = false ->
  bodyValidationFails this response = false ->
  updateThrows this JUndefined (objValue (headers response)) = false ->
  (forall b, body response = Some b ->
     exists parsed,
       parseResponseBody b (obj_get "content-type" (headers response))
         = Some parsed /\
       updateThrows this parsed JUndefined = false) ->
  promise (invoke this scenario network) = Resolved.
Proof.
  intros Hp Hpending Hnet Hin Hhead Hbody Hupdate Hparsed.
  assert (Hres : resolving (onResponse this options bodyForDiagram response)).
  { unfold onResponse. rewrite Hin.
    apply resolving_after; [apply calm_record|]. intros _.
    apply resolving_after; [now apply calm_validateHeaders|]. intros _.
    apply resolving_after; [now apply calm_updateScenarioCache|]. intros _.
    cbn. apply resolving_after; [|intros _; apply resolving_resolveP].
    unfold bodyValidationFails in Hbody.
    destruct (body response) as [b|]; [|apply calm_record].
    destruct (Hparsed b eq_refl) as (parsed & Hparse & Hupdate').
    rewrite Hparse in *. cbn.
    apply calm_bind_pure.
    apply calm_bind; [apply calm_record|]. intros _.
    apply calm_bind; [|intros _; now apply calm_updateScenarioCache].
    unfold validatedBody. apply calm_tryCatch.
    apply calm_bind; [now apply calm_validateBody|].
    intros _. apply calm_record. }
  destruct (invoke_cases this scenario network)
    as [(r & Hp' & _)|(r & o & b & Hp' & Heq)];
    rewrite Hp in Hp'; [discriminate|].
  injection Hp' as <- <- <-. rewrite Heq, Hnet.
  unfold tryCatch. destruct (Hres (fst (request options r1))) as [Hpr [a Ha]].
  destruct (onResponse this options bodyForDiagram response _) as [r' o].
  cbn in *. subst o. cbn. now rewrite Hpr, Hpending.
Qed.

End Resolution.

(** An action with a client certificate and key given inline. *)
Definition fixtureCertificateAction : RestAction :=
  fromDefinition
    {| def_name := "get"; def_description := None;
       def_method := Some "GET"; def_queryParameters := None;
       def_headers := None; def_data := None; def_dataBinary := None;
       def_form := None; def_variableAsPayload := None;
       def_responseValidation := None; def_variables := None;
       def_expectedStatusCodes := None;
       def_invokeEvenOnFail := None; def_allowFailure := None;
       def_clientCertificate := Some "CERTIFICATE";
       def_clientKey := Some "KEY";
       def_expectBinaryResponse := None; def_diagramConfiguration := None |}
    "http://localhost:8080/" "service".

Definition fixtureCertificate : ClientCertificate :=
  {| cert := []; key := []; rejectUnauthorized := false |}.

Definition fixtureCertificateOptions : RequestOptions :=
  {| req_method := Some "GET"; req_url := "http://localhost:8080/";
     req_headers := None; req_body := BodyNull; req_binary := false;
     req_form := None; maxAttempts := 3; retryDelay := 1000;
     fullResponse := true; req_certificate := Some fixtureCertificate |}.

Example cache_written_only_at_variables_witness :
  let final := @invoke fixtureEngine fixtureInjection
                 (fixtureAction "res.code === undefined") fixtureScenario
                 (fun _ => Responded (fixtureResponse 200)) in
  cache final !! "body" = Some (JObject []) /\ cache final !! "other" = None.
Proof.
  intros final. split; [vm_compute; reflexivity|]. unfold final.
  rewrite (@cache_written_only_at_variables fixtureEngine fixtureInjection
             (fixtureAction "res.code === undefined") fixtureScenario
             (fun _ => Responded (fixtureResponse 200)) "other");
    [reflexivity|].
  intros [Heq|[]]. discriminate.
Defined.

Example cache_untouched_without_expected_response_witness :
  cache (@invoke fixtureEngine fixtureInjection
           (fixtureAction "res.code === undefined") fixtureScenario
           (fun _ => Responded (fixtureResponse 404))) = ∅.
Proof.
  apply (@cache_untouched_without_expected_response fixtureEngine
           fixtureInjection (fixtureAction "res.code === undefined")
           fixtureScenario (fun _ => Responded (fixtureResponse 404))).
  intros options response [= <-]. reflexivity.
Defined.

Example resolved_only_by_expected_valid_response_witness :
  exists options response,
    requests (@invoke fixtureEngine fixtureInjection
                (fixtureAction "res.code === undefined") fixtureScenario
                (fun _ => Responded (fixtureResponse 200))) = [options] /\
    Responded (fixtureResponse 200) = Responded response /\
    includes [200; 201; 204] (statusCode response) = true.
Proof.
  destruct (@resolved_only_by_expected_valid_response fixtureEngine
              fixtureInjection (fixtureAction "res.code === undefined")
              fixtureScenario (fun _ => Responded (fixtureResponse 200))
              eq_refl)
    as (options & response & Hreq & Hnet & Hin & _).
  exists options, response. auto.
Defined.

Example missing_payload_variable_rejects_witness :
  let final := @invoke fixtureEngine fixtureInjection
                 (fixturePayloadAction "absent") fixtureScenario
                 (fun _ => Responded (fixtureResponse 200)) in
  promise final = Rejected /\
  exists options, requests final = [options] /\ req_body options = BodyNull.
Proof.
  intros final.
  destruct (@missing_payload_variable_rejects fixtureEngine fixtureInjection
              (fixturePayloadAction "absent") fixtureScenario
              (fun _ => Responded (fixtureResponse 200)) "absent"
              eq_refl eq_refl eq_refl eq_refl) as [Hp Hr].
  split; [exact Hp|]. apply Hr. discriminate.
Defined.

Example certificate_needs_both_and_disables_verification_witness :
  nonEmpty (clientCertificate fixtureCertificateAction) <> None /\
  nonEmpty (clientKey fixtureCertificateAction) <> None /\
  rejectUnauthorized fixtureCertificate = false.
Proof.
  apply (@certificate_needs_both_and_disables_verification fixtureEngine
           fixtureInjection fixtureCertificateAction fixtureScenario
           (fun _ => Responded (fixtureResponse 200))
           fixtureCertificateOptions fixtureCertificate).
  - left. reflexivity.
  - reflexivity.
Defined.

Example derived_action_inherits_template_validations_witness :
  promise (@invoke fixtureEngine fixtureInjection
             (fromTemplate fixtureBareDefinition
                (fixtureAction "res.code === 200"))
             fixtureScenario (fun _ => Responded (fixtureResponse 200)))
    = Rejected.
Proof.
  destruct (@derived_action_inherits_template_validations fixtureEngine
              fixtureInjection fixtureBareDefinition
              (fixtureAction "res.code === 200") fixtureScenario
              (fun _ => Responded (fixtureResponse 200)) (fixtureResponse 200)
              (fun _ => eq_refl) eq_refl eq_refl) as [_ Hp].
  exact Hp.
Defined.

Example expected_valid_response_resolves_witness :
  promise (@invoke fixtureEngine fixtureInjection
             (fixtureAction "res.code === undefined") fixtureScenario
             (fun _ => Responded (fixtureResponse 200))) = Resolved.
Proof.
  eapply (@expected_valid_response_resolves fixtureEngine fixtureInjection
            (fixtureAction "res.code === undefined") fixtureScenario
            (fun _ => Responded (fixtureResponse 200)) _ _ _
            (fixtureResponse 200));
    try reflexivity.
  intros b [= <-]. exists (JObject []). split; reflexivity.
Defined.

End Rest.

(** * The scenario runner: index.ts *)

Module Runner.

Inductive ActionType : Type := REST | MQTT | MQTT_PUBLISH | WEBSOCKET.

Definition isWebSocket (t : ActionType) : bool :=
  match t with WEBSOCKET => true | _ => false end.

(** How the promise of an invocation has settled when the runner's [await]
    returns. *)
Inductive Settlement : Type :=
| Fulfilled (result : JsValue)
| RejectedWith (reason : JsValue).

(** [TestResult]; the duration is kept in nanoseconds, where the code
    formats milliseconds with two decimals. *)
Record TestResult : Type := {
  action : string;
  duration : Z;
  successful : bool
}.

Section Run.

(** Everything the actions act on: the services, the scenario cache, the
    clock. *)
Variable World : Type.

(** [process.hrtime()], in nanoseconds. *)
Variable hrtime : World -> Z.

(** The [Action] interface: [invoke] followed by the [await] of its promise
    takes the world to the one in which the promise has settled; [cancel]
    is the cancel operation of the callback. *)
Record Action : Type := {
  name : string;
  description : string;
  type : ActionType;
  invokeEvenOnFail : bool;
  allowFailure : bool;
  invoke : World -> World * Settlement;
  cancel : World -> World
}.

Record Scenario : Type := {
  scenarioName : string;
  scenarioDescription : string;
  actions : list Action
}.

(** The state of [invokeActionsSynchronously]: the world, the global
    [RESULTS], the locals [successful] and [ASYNC_ACTIONS], the reasons
    logged by [handleError], and the names of the actions whose [invoke] has
    been called, in order. *)
Record State : Type := {
  world : World;
  RESULTS : gmap string (list TestResult);
  isSuccessful : bool;
  ASYNC_ACTIONS : list (World -> World);
  reasons : list JsValue;
  invoked : list string
}.

(** [const scenarioResults = RESULTS.get(scenarioName);
     if (scenarioResults) scenarioResults.push(result)] *)
Definition push (scenarioName : string) (result : TestResult)
    (results : gmap string (list TestResult))
    : gmap string (list TestResult) :=
  match results !! scenarioName with
  | Some scenarioResults =>
      <[scenarioName := scenarioResults ++ [result]]> results
  | None => results
  end.

(** The body of the loop for one action, up to the [break]: the invocation,
    the [await], and the [then] handler or [handleError]. *)
Definition step (scenarioName : string) (a : Action) (st : State) : State :=
  let start := hrtime (world st) in
  let settled := invoke a (world st) in
  let elapsed := hrtime (fst settled) - start in
  let async := if isWebSocket (type a)
               then ASYNC_ACTIONS st ++ [cancel a]
               else ASYNC_ACTIONS st in
  match snd settled with
  | Fulfilled _ =>
      {| world := fst settled;
         RESULTS := push scenarioName
                      {| action := description a; duration := elapsed;
                         successful := true |} (RESULTS st);
         isSuccessful := isSuccessful st;
         ASYNC_ACTIONS := async;
         reasons := reasons st;
         invoked := invoked st ++ [name a] |}
  | RejectedWith reason =>
      {| world := fst settled;
         RESULTS := push scenarioName
                      {| action := description a; duration := elapsed;
                         successful := false |} (RESULTS st);
         isSuccessful := false;
         ASYNC_ACTIONS := async;
         reasons := if truthy reason then reasons st ++ [reason]
                    else reasons st;
         invoked := invoked st ++ [name a] |}
  end.

(** [for (const action of scenario.actions) { ...; if (!successful) break; }] *)
Fixpoint loop (scenarioName : string) (actions : list Action) (st : State)
    : State :=
  match actions with
  | [] => st
  | a :: rest =>
      let st' := step scenarioName a st in
      if negb (isSuccessful st') then st' else loop scenarioName rest st'
  end.

(** The state in which the loop starts: [RESULTS.set(scenarioName, [])],
    [successful = true], [ASYNC_ACTIONS = []]. *)
Definition enter (scenario : Scenario) (st : State) : State :=
  {| world := world st;
     RESULTS := <[scenarioName scenario := []]> (RESULTS st);
     isSuccessful := true;
     ASYNC_ACTIONS := [];
     reasons := reasons st;
     invoked := invoked st |}.

(** [ASYNC_ACTIONS.forEach(callback => callback.cancel())] *)
Definition cancelAll (st : State) : State :=
  {| world := fold_left (fun w cancel => cancel w) (ASYNC_ACTIONS st) (world st);
     RESULTS := RESULTS st;
     isSuccessful := isSuccessful st;
     ASYNC_ACTIONS := ASYNC_ACTIONS st;
     reasons := reasons st;
     invoked := invoked st |}.

Definition invokeActionsSynchronously (scenario : Scenario) (st : State)
    : State :=
  cancelAll (loop (scenarioName scenario) (actions scenario) (enter scenario st)).

(** [anyError] of [stopProcessIfUnsuccessfulResults]: some scenario has a
    result that is not successful. *)
Definition anyError (results : gmap string (list TestResult)) : bool :=
  existsb (fun entry => existsb (fun t => negb (successful t)) (snd entry))
    (map_to_list results).

End Run.

Arguments name {World} _.
Arguments description {World} _.
Arguments type {World} _.
Arguments invoke {World} _ _.
Arguments cancel {World} _ _.
Arguments scenarioName {World} _.
Arguments actions {World} _.
Arguments world {World} _.
Arguments RESULTS {World} _.
Arguments isSuccessful {World} _.
Arguments ASYNC_ACTIONS {World} _.
Arguments reasons {World} _.
Arguments invoked {World} _.

(** Fixtures: the world is a clock; an action takes five ticks and settles
    as told. *)
Definition fixtureAction (name : string) (settlement : Settlement)
    : Action Z :=
  {| name := name; description := String.append "do " name; type := REST;
     invokeEvenOnFail := false; allowFailure := false;
     invoke := fun w => (w + 5, settlement); cancel := fun w => w |}.

Definition fixtureState : State Z :=
  {| world := 0; RESULTS := ∅; isSuccessful := true; ASYNC_ACTIONS := [];
     reasons := []; invoked := [] |}.

Section Properties.

Context {World : Type}.

Variable hrtime : World -> Z.

Variable scenario : string.

(** What a run of the loop over [done] has added when it ends successful:
    one successful result per action, and the names of the actions among
    the invoked. *)
Definition ranAll (done : list (Action World)) (st st' : State World) : Prop :=
  isSuccessful st' = isSuccessful st /\
  invoked st' = invoked st ++ map name done /\
  forall earlier, RESULTS st !! scenario = Some earlier ->
    exists added,
      RESULTS st' !! scenario = Some (earlier ++ added) /\
      map action added = map description done /\
      Forall (fun t => successful t = true) added.

Lemma push_present (t : TestResult) (results : gmap string (list TestResult))
    (earlier : list TestResult) :
  results !! scenario = Some earlier ->
  push scenario t results !! scenario = Some (earlier ++ [t]).
Proof.
  intros Hl. unfold push. rewrite Hl. apply lookup_insert_eq.
Qed.

Lemma step_successful (a : Action World) (st : State World) :
  isSuccessful (step World hrtime scenario a st) = true ->
  ranAll [a] st (step World hrtime scenario a st).
Proof.
  unfold step. destruct (snd (invoke a (world st))) as [result|reason]; cbn;
    [|discriminate].
  intros Hs. repeat split.
  intros earlier He. eexists [_]. split; [now apply push_present|].
  cbn. split; [reflexivity|]. repeat constructor.
Qed.

Lemma step_rejected (a : Action World) (st : State World) (reason : JsValue) :
  snd (invoke a (world st)) = RejectedWith reason ->
  let st' := step World hrtime scenario a st in
  isSuccessful st' = false /\
  invoked st' = invoked st ++ [name a] /\
  forall earlier, RESULTS st !! scenario = Some earlier ->
    RESULTS st' !! scenario =
      Some (earlier ++
            [{| action := description a;
                duration := hrtime (fst (invoke a (world st)))
                            - hrtime (world st);
                successful := false |}]).
Proof.
  intros Hr. unfold step. rewrite Hr. cbn. repeat split.
  intros earlier He. now apply push_present.
Qed.

(** A loop that ends successful has run every action, each with success. *)
Lemma loop_successful (done : list (Action World)) :
  forall (st : State World),
  isSuccessful (loop World hrtime scenario done st) = true ->
  ranAll done st (loop World hrtime scenario done st).
Proof.
  induction done as [|a done IH]; intros st Hs; cbn in *.
  - repeat split; [now rewrite app_nil_r|].
    intros earlier He. exists []. rewrite app_nil_r. repeat split; auto.
  - destruct (isSuccessful (step World hrtime scenario a st)) eqn:Hstep;
      cbn in *; [|congruence].
    destruct (step_successful a st Hstep) as (Hs1 & Hi1 & Hr1).
    destruct (IH _ Hs) as (Hs2 & Hi2 & Hr2).
    repeat split.
    + congruence.
    + rewrite Hi2, Hi1. cbn. now rewrite <- app_assoc.
    + intros earlier He.
      destruct (Hr1 earlier He) as (added1 & He1 & Ha1 & Hf1).
      destruct (Hr2 _ He1) as (added2 & He2 & Ha2 & Hf2).
      exists (added1 ++ added2). rewrite app_assoc. split; [exact He2|].
      split.
      * rewrite map_app, Ha1, Ha2. reflexivity.
      * apply Forall_app. auto.
Qed.

(** The loop over a list is the loop over its tail from where a successful
    loop over its head has ended. *)
Lemma loop_app (done rest : list (Action World)) : forall (st : State World),
  isSuccessful (loop World hrtime scenario done st) = true ->
  loop World hrtime scenario (done ++ rest) st =
  loop World hrtime scenario rest (loop World hrtime scenario done st).
Proof.
  induction done as [|a done IH]; intros st Hs; cbn in *; [reflexivity|].
  destruct (isSuccessful (step World hrtime scenario a st)) eqn:Hstep;
    cbn in *; [now apply IH | congruence].
Qed.

Lemma anyError_failed (results : gmap string (list TestResult))
    (l : list TestResult) (t : TestResult) :
  results !! scenario = Some l -> In t l -> successful t = false ->
  anyError results = true.
Proof.
  intros Hl Hin Hf. unfold anyError. apply existsb_exists.
  exists (scenario, l). split.
  - apply list_elem_of_In, elem_of_map_to_list, Hl.
  - apply existsb_exists. exists t. split; [exact Hin|]. now rewrite Hf.
Qed.

End Properties.

(** C2: in a scenario whose actions before [a] all succeed and whose action
    [a] is rejected, the runner invokes exactly those actions and [a], in
    order, and none of the actions after [a]; the results of the scenario
    are one successful result per earlier action followed by the failed
    result of [a]; the scenario is left unsuccessful, and [anyError] holds
    of the results. *)
Theorem first_failure_abandons_the_rest {World : Type} (hrtime : World -> Z)
    (scenario : Scenario World) (before after : list (Action World))
    (a : Action World) (reason : JsValue) (st : State World) :
  actions scenario = before ++ a :: after ->
  let reached :=
    loop World hrtime (scenarioName scenario) before (enter World scenario st) in
  isSuccessful reached = true ->
  snd (invoke a (world reached)) = RejectedWith reason ->
  let final := invokeActionsSynchronously World hrtime scenario st in
  invoked final = invoked st ++ map name before ++ [name a] /\
  (exists earlier failed,
     RESULTS final !! scenarioName scenario = Some (earlier ++ [failed]) /\
     map action earlier = map description before /\
     Forall (fun t => successful t = true) earlier /\
     action failed = description a /\ successful failed = false) /\
  isSuccessful final = false /\
  anyError (RESULTS final) = true.
Proof.
  intros Hactions reached Hreached Hrejected final.
  set (sname := scenarioName scenario) in *.
  assert (Hloop : loop World hrtime sname (actions scenario)
                    (enter World scenario st)
                  = step World hrtime sname a reached).
  { rewrite Hactions, loop_app by exact Hreached. fold reached. cbn.
    destruct (step_rejected hrtime sname a reached reason Hrejected)
      as (Hs & _). cbn in Hs. now rewrite Hs. }
  destruct (loop_successful hrtime sname before _ Hreached)
    as (_ & Hinv & Hres).
  fold reached in Hinv, Hres.
  destruct (Hres [] (lookup_insert_eq _ _ _)) as (earlier & He & Hact & Hall).
  cbn in He.
  destruct (step_rejected hrtime sname a reached reason Hrejected)
    as (Hs & Hi & Hr). cbn in Hs, Hi, Hr.
  specialize (Hr earlier He).
  assert (Hfinal : RESULTS final = RESULTS (step World hrtime sname a reached)
                   /\ invoked final = invoked (step World hrtime sname a reached)
                   /\ isSuccessful final
                      = isSuccessful (step World hrtime sname a reached)).
  { unfold final, invokeActionsSynchronously. fold sname. rewrite Hloop.
    repeat split. }
  destruct Hfinal as (-> & -> & ->).
  split; [rewrite Hi, Hinv; cbn; now rewrite <- app_assoc|].
  split.
  { eexists earlier, _. split; [exact Hr|].
    repeat split; first [assumption | reflexivity]. }
  split; [exact Hs|].
  eapply anyError_failed;
    [exact Hr | apply in_or_app; right; left; reflexivity | reflexivity].
Qed.

Example first_failure_abandons_the_rest_witness :
  let scenario :=
    {| scenarioName := "s1"; scenarioDescription := "three steps";
       actions := [fixtureAction "login" (Fulfilled JUndefined);
                   fixtureAction "order" (RejectedWith JUndefined);
                   fixtureAction "logout" (Fulfilled JUndefined)] |} in
  let final :=
    invokeActionsSynchronously Z (fun w => w) scenario fixtureState in
  invoked final = ["login"; "order"] /\
  RESULTS final !! "s1" =
    Some [{| action := "do login"; duration := 5; successful := true |};
          {| action := "do order"; duration := 5; successful := false |}] /\
  isSuccessful final = false.
Proof.
  intros scenario final.
  destruct (first_failure_abandons_the_rest (fun w => w) scenario
              [fixtureAction "login" (Fulfilled JUndefined)]
              [fixtureAction "logout" (Fulfilled JUndefined)]
              (fixtureAction "order" (RejectedWith JUndefined))
              JUndefined fixtureState eq_refl eq_refl eq_refl)
    as (Hinv & _ & Hs & _).
  split; [exact Hinv|]. split; [vm_compute; reflexivity | exact Hs].
Defined.

(** ** The runner beyond the first failure *)

(** [processScenarios]: the scenarios are run in slices of
    [NUM_PARALLEL_RUNS], one slice after the other; [fuel] bounds the
    number of iterations of the [for] loop. *)
Definition NUM_PARALLEL_RUNS : nat := 10.

(** [l.slice(start, stop)] for [start <= stop]. *)
Definition slice {A} (start stop : nat) (l : list A) : list A :=
  take (stop - start) (drop start l).

Fixpoint slicesFrom {A} (fuel i : nat) (scenarios : list A) : list (list A) :=
  match fuel with
  | O => []
  | S fuel' =>
      if (i <? length scenarios)%nat
      then slice i (i + NUM_PARALLEL_RUNS) scenarios
             :: slicesFrom fuel' (i + NUM_PARALLEL_RUNS) scenarios
      else []
  end.

Definition slices {A} (scenarios : list A) : list (list A) :=
  slicesFrom (length scenarios) 0 scenarios.

Section Traces.

Context {World : Type}.

Variable hrtime : World -> Z.

Variable scenario : string.

Definition webSockets (l : list (Action World)) : list (Action World) :=
  List.filter (fun a => isWebSocket (type a)) l.

(** What one run of the loop has done, told by the actions it has invoked:
    [ran] is the part of the list gone through, [added] the results. *)
Definition traced (actions : list (Action World)) (st st' : State World)
    (ran rest : list (Action World)) (added : list TestResult) : Prop :=
  actions = ran ++ rest /\
  invoked st' = invoked st ++ map name ran /\
  ASYNC_ACTIONS st' = ASYNC_ACTIONS st ++ map cancel (webSockets ran) /\
  map action added = map description ran /\
  (forall earlier, RESULTS st !! scenario = Some earlier ->
     RESULTS st' !! scenario = Some (earlier ++ added)) /\
  (forall other, other <> scenario ->
     RESULTS st' !! other = RESULTS st !! other) /\
  ((isSuccessful st' = true /\ rest = [] /\
    Forall (fun t => successful t = true) added) \/
   (isSuccessful st' = false /\
    exists ok failed,
      added = ok ++ [failed] /\
      Forall (fun t => successful t = true) ok /\ successful failed = false)).

Lemma push_other (t : TestResult) (results : gmap string (list TestResult))
    (other : string) :
  other <> scenario -> push scenario t results !! other = results !! other.
Proof.
  intros Hne. unfold push. destruct (results !! scenario); [|reflexivity].
  now apply lookup_insert_ne.
Qed.

Lemma push_here (t : TestResult) (results : gmap string (list TestResult))
    (earlier : list TestResult) :
  results !! scenario = Some earlier ->
  push scenario t results !! scenario = Some (earlier ++ [t]).
Proof. intros Hl. unfold push. rewrite Hl. apply lookup_insert_eq. Qed.

Lemma loop_traced (actions : list (Action World)) :
  forall (st : State World),
  isSuccessful st = true ->
  exists ran rest added,
    traced actions st (loop World hrtime scenario actions st) ran rest added.
Proof.
  induction actions as [|a actions IH]; intros st Hs.
  - exists [], [], []. cbn. unfold traced. cbn.
    rewrite !app_nil_r. repeat split; auto.
    intros earlier He. now rewrite app_nil_r.
  - cbn [loop].
    set (st1 := step World hrtime scenario a st).
    assert (Hstep :
      invoked st1 = invoked st ++ [name a] /\
      ASYNC_ACTIONS st1 = ASYNC_ACTIONS st ++ map cancel (webSockets [a]) /\
      (forall other, other <> scenario ->
         RESULTS st1 !! other = RESULTS st !! other) /\
      exists t, action t = description a /\
        successful t = isSuccessful st1 /\
        forall earlier, RESULTS st !! scenario = Some earlier ->
          RESULTS st1 !! scenario = Some (earlier ++ [t])).
    { unfold st1, step, webSockets. cbn.
      destruct (snd (invoke a (world st))) as [result|reason]; cbn;
        (split; [reflexivity|]);
        (split; [destruct (isWebSocket (type a)); cbn;
                 rewrite ?app_nil_r; reflexivity|]);
        (split; [intros other Hne; now apply push_other|]);
        eexists; (split; [|split]);
        try (intros earlier He; now apply push_here); cbn; auto. }
    destruct Hstep as (Hi & Ha & Ho & t & Ht & Hst & Hr).
    destruct (isSuccessful st1) eqn:Hs1; cbn.
    + destruct (IH st1 Hs1) as (ran & rest & added & Hact & Hi' & Ha' & Hm
                                & Hr' & Ho' & Hend).
      exists (a :: ran), rest, (t :: added). unfold traced.
      split; [cbn; now rewrite Hact|].
      split; [rewrite Hi', Hi; cbn; now rewrite <- app_assoc|].
      split.
      { rewrite Ha', Ha. unfold webSockets. cbn.
        destruct (isWebSocket (type a)); cbn;
          rewrite <- ?app_assoc; cbn; reflexivity. }
      split; [cbn; now rewrite Ht, Hm|].
      split.
      { intros earlier He. rewrite (Hr' _ (Hr _ He)), <- app_assoc.
        reflexivity. }
      split; [intros other Hne; now rewrite Ho', Ho|].
      destruct Hend as [(Hok & -> & Hall)|(Hko & ok & failed & -> & Hall & Hf)].
      * left. repeat split; auto.
      * right. split; [exact Hko|]. exists (t :: ok), failed.
        repeat split; auto.
    + exists [a], actions, [t]. unfold traced.
      split; [reflexivity|]. split; [exact Hi|]. split; [exact Ha|].
      split; [cbn; now rewrite Ht|]. split; [exact Hr|]. split; [exact Ho|].
      right. split; [exact Hs1|]. exists [], t. repeat split; auto.
Qed.

End Traces.

(** X1: whatever its actions do, a run of a scenario has invoked a leading
    part of the action list, in order, and the results of the scenario are
    one per invoked action, with the descriptions of those actions in order;
    results recorded before under the same scenario name are gone. Either
    the run is successful, every action was invoked and every result is
    successful, or it is not, and exactly the last result is the failed
    one. *)
Theorem results_follow_invocations {World : Type} (hrtime : World -> Z)
    (scenario : Scenario World) (st : State World) :
  let final := invokeActionsSynchronously World hrtime scenario st in
  exists ran rest added,
    actions scenario = ran ++ rest /\
    invoked final = invoked st ++ map name ran /\
    RESULTS final !! scenarioName scenario = Some added /\
    map action added = map description ran /\
    ((isSuccessful final = true /\ rest = [] /\
      Forall (fun t => successful t = true) added) \/
     (isSuccessful final = false /\
      exists ok failed,
        added = ok ++ [failed] /\
        Forall (fun t => successful t = true) ok /\
        successful failed = false)).
Proof.
  intros final.
  destruct (loop_traced hrtime (scenarioName scenario) (actions scenario)
              (enter World scenario st) eq_refl)
    as (ran & rest & added & Hact & Hi & _ & Hm & Hr & _ & Hend).
  exists ran, rest, added.
  specialize (Hr [] (lookup_insert_eq _ _ _)). cbn in Hr.
  repeat split; auto.
Qed.

(** X2: when every action of a scenario fulfils its promise, in whatever
    world it is invoked, the run invokes all of them in order, records one
    successful result for each, and leaves the scenario successful. *)
Theorem fulfilled_actions_all_run {World : Type} (hrtime : World -> Z)
    (scenario : Scenario World) (st : State World) :
  (forall a w, In a (actions scenario) ->
     exists result, snd (invoke a w) = Fulfilled result) ->
  let final := invokeActionsSynchronously World hrtime scenario st in
  isSuccessful final = true /\
  invoked final = invoked st ++ map name (actions scenario) /\
  exists added,
    RESULTS final !! scenarioName scenario = Some added /\
    map action added = map description (actions scenario) /\
    Forall (fun t => successful t = true) added.
Proof.
  intros Hall final.
  assert (Hok : forall l st0,
            (forall a w, In a l -> exists result,
               snd (invoke a w) = Fulfilled result) ->
            isSuccessful st0 = true ->
            isSuccessful (loop World hrtime (scenarioName scenario) l st0)
              = true).
  { induction l as [|a l IH]; intros st0 Hl Hs0; [exact Hs0|].
    cbn [loop].
    assert (Hs1 : isSuccessful
                    (step World hrtime (scenarioName scenario) a st0) = true).
    { unfold step. destruct (Hl a (world st0) (or_introl eq_refl)) as [r ->].
      exact Hs0. }
    rewrite Hs1. cbn. apply IH; [|exact Hs1].
    intros b w Hb. apply Hl. now right. }
  specialize (Hok (actions scenario) (enter World scenario st) Hall eq_refl).
  destruct (loop_traced hrtime (scenarioName scenario) (actions scenario)
              (enter World scenario st) eq_refl)
    as (ran & rest & added & Hact & Hi & _ & Hm & Hr & _ & Hend).
  specialize (Hr [] (lookup_insert_eq _ _ _)). cbn in Hr.
  destruct Hend as [(_ & -> & Hgood)|(Hko & _)]; [|congruence].
  rewrite app_nil_r in Hact. subst ran.
  split; [exact Hok|]. split; [exact Hi|]. exists added. auto.
Qed.

(** X3: the callbacks the run cancels at its end are those of the WebSocket
    actions it has invoked, each once and in the order of invocation,
    whether the run has failed or not; no other action is cancelled. *)
Theorem websocket_callbacks_cancelled {World : Type} (hrtime : World -> Z)
    (scenario : Scenario World) (st : State World) :
  let looped := loop World hrtime (scenarioName scenario) (actions scenario)
                  (enter World scenario st) in
  let final := invokeActionsSynchronously World hrtime scenario st in
  exists ran rest,
    actions scenario = ran ++ rest /\
    invoked final = invoked st ++ map name ran /\
    ASYNC_ACTIONS final = map cancel (webSockets ran) /\
    world final =
      fold_left (fun w a => cancel a w) (webSockets ran) (world looped).
Proof.
  intros looped final.
  destruct (loop_traced hrtime (scenarioName scenario) (actions scenario)
              (enter World scenario st) eq_refl)
    as (ran & rest & added & Hact & Hi & Ha & _).
  exists ran, rest. cbn in Ha. repeat split; auto.
  unfold final, invokeActionsSynchronously, cancelAll. cbn.
  fold looped. fold looped in Ha. rewrite Ha. clear.
  generalize (world looped). induction (webSockets ran) as [|a l IH];
    intros w; cbn; [reflexivity | apply IH].
Qed.

(** X4: a run writes the results of no scenario but its own. *)
Theorem other_scenarios_untouched {World : Type} (hrtime : World -> Z)
    (scenario : Scenario World) (st : State World) (other : string) :
  other <> scenarioName scenario ->
  RESULTS (invokeActionsSynchronously World hrtime scenario st) !! other
    = RESULTS st !! other.
Proof.
  intros Hne.
  destruct (loop_traced hrtime (scenarioName scenario) (actions scenario)
              (enter World scenario st) eq_refl)
    as (ran & rest & added & _ & _ & _ & _ & _ & Ho & _).
  unfold invokeActionsSynchronously, cancelAll. cbn.
  rewrite (Ho other Hne). cbn. now apply lookup_insert_ne.
Qed.

Lemma anyError_exists (results : gmap string (list TestResult)) :
  anyError results = true <->
  exists scenario l t,
    results !! scenario = Some l /\ In t l /\ successful t = false.
Proof.
  unfold anyError. rewrite existsb_exists. split.
  - intros ([scenario l] & Hin & Hex). apply existsb_exists in Hex.
    destruct Hex as (t & Ht & Hf). exists scenario, l, t.
    split; [|split; [exact Ht|]].
    + now apply elem_of_map_to_list, list_elem_of_In.
    + now apply negb_true_iff.
  - intros (scenario & l & t & Hl & Ht & Hf). exists (scenario, l). split.
    + now apply list_elem_of_In, elem_of_map_to_list.
    + apply existsb_exists. exists t. split; [exact Ht|]. now rewrite Hf.
Qed.

(** X5: when no result recorded so far is a failure, [anyError], on which
    the exit code depends, holds after the run of a scenario exactly when
    that run was not successful. *)
Theorem anyError_iff_run_failed {World : Type} (hrtime : World -> Z)
    (scenario : Scenario World) (st : State World) :
  anyError (RESULTS st) = false ->
  let final := invokeActionsSynchronously World hrtime scenario st in
  anyError (RESULTS final) = negb (isSuccessful final).
Proof.
  intros Hclean final.
  destruct (loop_traced hrtime (scenarioName scenario) (actions scenario)
              (enter World scenario st) eq_refl)
    as (ran & rest & added & _ & _ & _ & _ & Hr & Ho & Hend).
  specialize (Hr [] (lookup_insert_eq _ _ _)). cbn in Hr.
  assert (Hsame : RESULTS final
                  = RESULTS (loop World hrtime (scenarioName scenario)
                               (actions scenario) (enter World scenario st)))
    by reflexivity.
  assert (Hsucc : isSuccessful final
                  = isSuccessful (loop World hrtime (scenarioName scenario)
                               (actions scenario) (enter World scenario st)))
    by reflexivity.
  rewrite Hsame, Hsucc.
  destruct Hend as [(Hok & _ & Hall)|(Hko & ok & failed & Hadd & _ & Hf)].
  - rewrite Hok. cbn. apply not_true_is_false. intros Herr.
    apply anyError_exists in Herr as (other & l & t & Hl & Ht & Hbad).
    destruct (decide (other = scenarioName scenario)) as [->|Hne].
    + rewrite Hr in Hl. injection Hl as <-.
      rewrite Forall_forall in Hall.
      apply list_elem_of_In in Ht. specialize (Hall t Ht). congruence.
    + rewrite (Ho other Hne) in Hl. cbn in Hl.
      rewrite lookup_insert_ne in Hl by congruence.
      assert (Hst : anyError (RESULTS st) = true)
        by (apply anyError_exists; exists other, l, t; auto).
      congruence.
  - rewrite Hko. cbn. apply anyError_exists.
    exists (scenarioName scenario), added, failed.
    split; [exact Hr|]. split; [|exact Hf].
    rewrite Hadd. apply in_or_app. right. now left.
Qed.

Example anyError_iff_run_failed_witness :
  anyError
    (RESULTS
       (invokeActionsSynchronously Z (fun w => w)
          {| scenarioName := "s"; scenarioDescription := "s";
             actions := [fixtureAction "first" (Fulfilled JUndefined);
                         fixtureAction "second" (RejectedWith (JStr "boom"));
                         fixtureAction "third" (Fulfilled JUndefined)] |}
          fixtureState)) = true.
Proof.
  rewrite (anyError_iff_run_failed (fun w => w) _ fixtureState eq_refl).
  reflexivity.
Defined.

Lemma slicesFrom_concat {A} (scenarios : list A) : forall (fuel i : nat),
  (length scenarios - i <= fuel)%nat ->
  concat (slicesFrom fuel i scenarios) = drop i scenarios /\
  Forall (fun b => (1 <= length b <= NUM_PARALLEL_RUNS)%nat)
    (slicesFrom fuel i scenarios).
Proof.
  induction fuel as [|fuel IH]; intros i Hfuel; cbn [slicesFrom].
  - rewrite drop_ge by lia. cbn. auto.
  - destruct (Nat.ltb_spec i (length scenarios)) as [Hlt|Hge].
    + destruct (IH (i + NUM_PARALLEL_RUNS)%nat) as [Hc Hf];
        [unfold NUM_PARALLEL_RUNS; lia|].
      rewrite concat_cons, Hc. unfold slice.
      replace (i + NUM_PARALLEL_RUNS - i)%nat with NUM_PARALLEL_RUNS by lia.
      split.
      * rewrite <- drop_drop. apply take_drop.
      * constructor; [|exact Hf].
        rewrite length_take, length_drop. unfold NUM_PARALLEL_RUNS. lia.
    + rewrite drop_ge by lia. cbn. auto.
Qed.

(** X6: the slices [processScenarios] runs one after the other put together
    are the scenario list, in order; every slice holds at least one and at
    most ten scenarios; and more iterations of the loop than the list is
    long change nothing. *)
Theorem slices_partition {A} (scenarios : list A) (fuel : nat) :
  concat (slices scenarios) = scenarios /\
  Forall (fun b => (1 <= length b <= NUM_PARALLEL_RUNS)%nat)
    (slices scenarios) /\
  slicesFrom (length scenarios + fuel) 0 scenarios = slices scenarios.
Proof.
  destruct (slicesFrom_concat scenarios (length scenarios) 0) as [Hc Hf];
    [lia|].
  split; [exact Hc|]. split; [exact Hf|].
  unfold slices.
  assert (Hstable : forall f i extra,
            (length scenarios - i <= f)%nat ->
            slicesFrom (f + extra) i scenarios = slicesFrom f i scenarios).
  { induction f as [|f IH]; intros i extra Hle; cbn [Nat.add slicesFrom].
    - destruct extra; cbn [slicesFrom]; [reflexivity|].
      destruct (Nat.ltb_spec i (length scenarios)); [lia | reflexivity].
    - destruct (Nat.ltb_spec i (length scenarios)); [|reflexivity].
      rewrite IH; [reflexivity | unfold NUM_PARALLEL_RUNS; lia]. }
  apply Hstable. lia.
Qed.

Example other_scenarios_untouched_witness :
  RESULTS (invokeActionsSynchronously Z (fun w => w)
             {| scenarioName := "s1"; scenarioDescription := "one step";
                actions := [fixtureAction "order" (RejectedWith JUndefined)] |}
             fixtureState) !! "s2"
    = None.
Proof.
  rewrite (other_scenarios_untouched (fun w => w) _ fixtureState "s2");
    [reflexivity | discriminate].
Defined.

Example fulfilled_actions_all_run_witness :
  let scenario :=
    {| scenarioName := "s1"; scenarioDescription := "two steps";
       actions := [fixtureAction "login" (Fulfilled JUndefined);
                   fixtureAction "logout" (Fulfilled JUndefined)] |} in
  let final :=
    invokeActionsSynchronously Z (fun w => w) scenario fixtureState in
  isSuccessful final = true /\ invoked final = ["login"; "logout"].
Proof.
  intros scenario final.
  destruct (fulfilled_actions_all_run (fun w => w) scenario fixtureState)
    as (Hs & Hi & _).
  - intros a w [<-|[<-|[]]]; eexists; reflexivity.
  - split; [exact Hs | exact Hi].
Defined.

End Runner.

(** * Action objects across invocations *)

Module ActionState.

Section Properties.

Context `{JsEngine} `{VariableInjection}.

Variable scenario : Scenario.

(** C9 (amended): along every MQTT subscribe invocation and every WebSocket
    invocation the configuration fields of the action keep their values, and
    an MQTT publish invocation leaves its action as it is; what execution
    writes is the state the action objects themselves hold:
    [numberOfReceivedMessages] of an MQTT subscribe action, and
    [reconnected], [receivedMessages] and [wsInstance] of a WebSocket
    action. An invocation starts from that state as it finds it: [invoke]
    resets neither the counter nor the reconnection count nor the received
    messages. *)
Theorem execution_writes_only_the_state_fields :
  (forall (i : Mqtt.Invocation) (events : list Mqtt.Event),
     Mqtt.configuration (Mqtt.this (Mqtt.run scenario i events))
       = Mqtt.configuration (Mqtt.this i)) /\
  (forall (i : WebSocket.Invocation) (events : list WebSocket.Event),
     WebSocket.configuration
       (WebSocket.this (WebSocket.run scenario i events))
       = WebSocket.configuration (WebSocket.this i)) /\
  (forall (i : MqttPublish.Invocation) (events : list MqttPublish.Event),
     MqttPublish.this (MqttPublish.run i events) = MqttPublish.this i) /\
  (forall (a : Mqtt.MqttAction),
     Mqtt.this (Mqtt.invoke scenario a) = a) /\
  (forall (a : WebSocket.WebSocketAction),
     let started := WebSocket.this (WebSocket.invoke scenario a) in
     WebSocket.reconnected started = WebSocket.reconnected a /\
     WebSocket.receivedMessages started = WebSocket.receivedMessages a).
Proof.
  repeat apply conj.
  - intros i events. apply Mqtt.run_configuration.
  - intros i events. apply WebSocket.socket_run_configuration.
  - intros i events. apply (MqttPublish.run_keeps events i).
  - intros a. unfold Mqtt.invoke.
    destruct (Mqtt.expandParameters scenario a) as [[[t u] pw]|];
      [destruct (Mqtt_connect (Mqtt.url a))|]; reflexivity.
  - intros a. unfold WebSocket.invoke, WebSocket.invokeAsync. cbn.
    destruct (WebSocket.target scenario a); cbn; auto.
Qed.

End Properties.

(** C9, as stated, fails: an MQTT subscribe action that expects one message
    is invoked and receives one; the invocation succeeds and leaves the
    counter of the action at one. The same action, invoked again and
    receiving one message again, is at two when the connection closes: the
    second invocation fails. *)
Example second_invocation_inherits_the_counter :
  let a := Mqtt.fixtureAction 1 None in
  let events := [Mqtt.Connect; Mqtt.SubscribeCallback None;
                 Mqtt.Message (Mqtt.FromString "{}");
                 Mqtt.Timeout; Mqtt.Close] in
  let first :=
    @Mqtt.run fixtureEngine fixtureInjection fixtureScenario
      (@Mqtt.invoke fixtureEngine fixtureInjection fixtureScenario a) events in
  let second :=
    @Mqtt.run fixtureEngine fixtureInjection fixtureScenario
      (@Mqtt.invoke fixtureEngine fixtureInjection fixtureScenario (Mqtt.this first))
      events in
  Mqtt.promise first = Resolved /\
  Mqtt.this first <> a /\
  Mqtt.numberOfReceivedMessages (Mqtt.this first) = 1 /\
  Mqtt.promise second = Rejected /\
  Mqtt.numberOfReceivedMessages (Mqtt.this second) = 2.
Proof. cbn. repeat split. discriminate. Qed.

End ActionState.

(** * Import paths of proto files: protoParsing.ts *)

Module ProtoParsing.

Section ResolveImportPath.

(** The [path] and [fs] modules: [resolve] is [path.resolve], [isRoot d]
    is [path.parse(d).root === d]. *)
Context {Path : Type}.

Variable dirname : Path -> Path.
Variable resolve : Path -> string -> Path.
Variable existsSync : Path -> bool.
Variable isRoot : Path -> bool.

(** The [while] loop, at most [fuel] times round; [None] when the fuel
    runs out. *)
Fixpoint climb (fuel : nat) (currentDir : Path) (target : string)
    : option Path :=
  if negb (existsSync (resolve currentDir target)) && negb (isRoot currentDir)
  then match fuel with
       | O => None
       | S fuel' => climb fuel' (resolve currentDir "..") target
       end
  else Some currentDir.

Definition resolveImportPath (fuel : nat) (origin : Path) (target : string)
    : option Path :=
  (fun currentDir => resolve currentDir target)
    <$> climb fuel (dirname origin) target.

(** The directory [n] levels above [d]. *)
Fixpoint ancestor (n : nat) (d : Path) : Path :=
  match n with
  | O => d
  | S n' => ancestor n' (resolve d "..")
  end.

(** Going up from a directory that is not the root leads nearer to it. *)
Variable depth : Path -> nat.

Hypothesis parent_nearer :
  forall d, isRoot d = false -> (depth (resolve d "..") < depth d)%nat.

Lemma climb_nearest (target : string) : forall (fuel : nat) (d : Path),
  (depth d <= fuel)%nat ->
  exists n,
    climb fuel d target = Some (ancestor n d) /\
    (n <= depth d)%nat /\
    (existsSync (resolve (ancestor n d) target) = true \/
     isRoot (ancestor n d) = true) /\
    forall m, (m < n)%nat ->
      existsSync (resolve (ancestor m d) target) = false /\
      isRoot (ancestor m d) = false.
Proof.
  induction fuel as [|fuel IH]; intros d Hd; cbn [climb].
  - destruct (existsSync (resolve d target)) eqn:He; cbn.
    + exists 0%nat. cbn. repeat split; auto; lia.
    + destruct (isRoot d) eqn:Hr; cbn.
      * exists 0%nat. cbn. repeat split; auto; lia.
      * pose proof (parent_nearer d Hr). lia.
  - destruct (existsSync (resolve d target)) eqn:He; cbn.
    + exists 0%nat. cbn. repeat split; auto; lia.
    + destruct (isRoot d) eqn:Hr; cbn.
      * exists 0%nat. cbn. repeat split; auto; lia.
      * pose proof (parent_nearer d Hr) as Hlt.
        destruct (IH (resolve d "..")) as (n & Hc & Hn & Hend & Hbefore);
          [lia|].
        exists (S n). cbn. split; [exact Hc|]. split; [lia|].
        split; [exact Hend|].
        intros [|m] Hm; cbn; [auto|]. apply Hbefore. lia.
Qed.

(** X22: [resolveImportPath] ends, after at most as many steps up as the
    directory of the origin is deep, and answers the target resolved
    against the nearest directory, from that of the origin upwards, under
    which the target exists; when it exists under none of them, the target
    resolved against the root. *)
Theorem resolveImportPath_nearest_ancestor
    (origin : Path) (target : string) (fuel : nat) :
  (depth (dirname origin) <= fuel)%nat ->
  exists n,
    resolveImportPath fuel origin target
      = Some (resolve (ancestor n (dirname origin)) target) /\
    (existsSync (resolve (ancestor n (dirname origin)) target) = true \/
     isRoot (ancestor n (dirname origin)) = true) /\
    forall m, (m < n)%nat ->
      existsSync (resolve (ancestor m (dirname origin)) target) = false /\
      isRoot (ancestor m (dirname origin)) = false.
Proof.
  intros Hfuel.
  destruct (climb_nearest target fuel (dirname origin) Hfuel)
    as (n & Hc & _ & Hend & Hbefore).
  exists n. unfold resolveImportPath. rewrite Hc. auto.
Qed.

End ResolveImportPath.

(** A file system of the examples: a path is the list of its segments, the
    innermost first, and the only file is [/protos/common.proto]. *)
Definition fixtureDirname (p : list string) : list string := tail p.

Definition fixtureResolve (d : list string) (target : string) : list string :=
  if String.eqb target ".." then tail d else target :: d.

Definition fixtureExistsSync (p : list string) : bool :=
  if decide (p = ["common.proto"; "protos"]) then true else false.

Definition fixtureIsRoot (d : list string) : bool :=
  match d with [] => true | _ => false end.

Example resolveImportPath_nearest_ancestor_witness :
  resolveImportPath fixtureDirname fixtureResolve fixtureExistsSync
    fixtureIsRoot 3 ["device.proto"; "v1"; "devices"; "protos"]
    "common.proto"
  = Some ["common.proto"; "protos"].
Proof.
  destruct (resolveImportPath_nearest_ancestor fixtureDirname fixtureResolve
              fixtureExistsSync fixtureIsRoot (@length string)
              ltac:(intros [|s d] Hd; [discriminate | cbn; lia])
              ["device.proto"; "v1"; "devices"; "protos"] "common.proto" 3
              ltac:(cbn; lia)) as (n & Heq & _).
  reflexivity.
Defined.

End ProtoParsing.

(** * Notes of the sequence diagram: diagramDrawing.ts *)

Module DiagramDrawing.

(** [trim]; the characters of a text are counted as [text.length] counts
    them, and [substring] takes a negative end for 0. *)
Definition trim (text : string) (length : nat) : string :=
  if (length <? String.length text)%nat
  then String.append (String.substring 0 (length - 1) text) "..."
  else text.

Lemma length_append (s1 s2 : string) :
  String.length (String.append s1 s2)
    = (String.length s1 + String.length s2)%nat.
Proof.
  induction s1 as [|c s1 IH]; [reflexivity|].
  change (S (String.length (String.append s1 s2))
          = S (String.length s1 + String.length s2)).
  now rewrite IH.
Qed.

Lemma length_substring (n : nat) : forall (s : string),
  String.length (String.substring 0 n s) = Nat.min n (String.length s).
Proof.
  induction n as [|n IH]; intros [|c s]; cbn; auto.
Qed.

Lemma substring_append (n : nat) : forall (s1 s2 : string),
  (n <= String.length s1)%nat ->
  String.substring 0 n (String.append s1 s2) = String.substring 0 n s1.
Proof.
  induction n as [|n IH]; intros [|c s1] s2 Hn.
  - change (String.substring 0 0 s2 = ""). now destruct s2.
  - reflexivity.
  - cbn in Hn. lia.
  - change (String c (String.substring 0 n (String.append s1 s2))
            = String c (String.substring 0 n s1)).
    rewrite IH by (cbn in Hn; lia). reflexivity.
Qed.

Lemma substring_substring (n : nat) : forall (s : string),
  String.substring 0 n (String.substring 0 n s) = String.substring 0 n s.
Proof.
  induction n as [|n IH]; intros [|c s]; cbn; try reflexivity.
  now rewrite IH.
Qed.

(** X23: [trim] leaves a text of at most [length] characters as it is; a
    longer one keeps its first [length - 1] characters and gets three dots,
    which makes it [length + 2] characters long, two more than the bound;
    and trimming a trimmed text changes nothing. *)
Theorem trim_overshoots_and_is_idempotent (text : string) (length : nat) :
  ((String.length text <= length)%nat -> trim text length = text) /\
  ((length < String.length text)%nat ->
   trim text length
     = String.append (String.substring 0 (length - 1) text) "..." /\
   String.length (trim text length) = (length - 1 + 3)%nat) /\
  trim (trim text length) length = trim text length.
Proof.
  unfold trim.
  destruct (Nat.ltb_spec length (String.length text)) as [Hlong|Hshort].
  - split; [lia|].
    assert (Hlen : String.length
                     (String.append (String.substring 0 (length - 1) text)
                        "...") = (length - 1 + 3)%nat).
    { rewrite length_append, length_substring. cbn. lia. }
    split; [auto|].
    rewrite Hlen.
    destruct (Nat.ltb_spec length (length - 1 + 3)) as [_|Hle]; [|lia].
    rewrite substring_append by (rewrite length_substring; lia).
    now rewrite substring_substring.
  - split; [reflexivity|]. split; [lia|].
    destruct (Nat.ltb_spec length (String.length text)); [lia | reflexivity].
Qed.

End DiagramDrawing.

(** * Payloads in the notes of the diagram: diagramDrawing/diagramDrawing.ts *)

Module FormatPayload.

Record DiagramConfiguration : Type := {
  hiddenFields : option (list string);
  hidePlaintext : option bool
}.

Section Format.

(** [Object.entries], [objectFromEntries] and [trim] of [./util], and
    [JSON.stringify(value, null, 1)]. *)
Variable Object_entries : JsValue -> JsObj JsValue.
Variable objectFromEntries : JsObj JsValue -> JsValue.
Variable stringify : JsValue -> string.
Variable trim : string -> nat -> string.

(** [typeof payload === 'object'] *)
Definition typeofObject (payload : JsValue) : bool :=
  match payload with
  | JNull | JObject _ | JArray _ | JBuffer _ | JStream _ => true
  | _ => false
  end.

Definition isNull (payload : JsValue) : bool :=
  match payload with JNull => true | _ => false end.

(** [hiddenFields.includes(key)] *)
Definition includes (hiddenFields : list string) (key : string) : bool :=
  existsb (String.eqb key) hiddenFields.

Definition hideFields (payload : JsValue) (hiddenFields : list string)
    : JsValue :=
  objectFromEntries
    (map (fun entry : string * JsValue =>
            if includes hiddenFields (fst entry)
            then (fst entry, JStr "***")
            else (fst entry, snd entry))
       (Object_entries payload)).

Definition hideFieldsIfNeeded (payload : JsValue)
    (hiddenFields : option (list string)) : JsValue :=
  match hiddenFields with
  | Some hidden =>
      if typeofObject payload && negb (isNull payload)
         && negb (Nat.eqb (length hidden) 0)
      then hideFields payload hidden
      else payload
  | None => payload
  end.

Definition hidePlaintextIfNeeded (payload : string)
    (hidePlaintext : option bool) : string :=
  if default false hidePlaintext then "***" else payload.

Definition formatBinaryPayload (payload : list Byte.byte) : string :=
  String.append "binary data ("
    (String.append (pretty (length payload)) " bytes)").

Definition formatPlaintextPayload (payload : string)
    (diagramConfiguration : DiagramConfiguration) : string :=
  trim (hidePlaintextIfNeeded payload (hidePlaintext diagramConfiguration)) 30.

Definition formatObjectPayload (payload : JsValue)
    (diagramConfiguration : DiagramConfiguration) : string :=
  stringify (hideFieldsIfNeeded payload (hiddenFields diagramConfiguration)).

Definition formatPayload (payload : JsValue)
    (diagramConfiguration : DiagramConfiguration) : string :=
  match payload with
  | JBuffer bytes => formatBinaryPayload bytes
  | JStr s => formatPlaintextPayload s diagramConfiguration
  | _ => formatObjectPayload payload diagramConfiguration
  end.

(** An object or an array. *)
Definition isStructured (payload : JsValue) : bool :=
  match payload with JObject _ | JArray _ => true | _ => false end.

(** Two lists of entries with the same keys in the same order, and the
    same values at every key that is not hidden. *)
Definition agreeOutside (hidden : list string)
    (entries1 entries2 : JsObj JsValue) : Prop :=
  Forall2 (fun e1 e2 : string * JsValue =>
             fst e1 = fst e2 /\
             (includes hidden (fst e1) = false -> snd e1 = snd e2))
    entries1 entries2.

Lemma hideFields_agree (hidden : list string)
    (entries1 entries2 : JsObj JsValue) :
  agreeOutside hidden entries1 entries2 ->
  map (fun entry : string * JsValue =>
         if includes hidden (fst entry)
         then (fst entry, JStr "***")
         else (fst entry, snd entry)) entries1
  = map (fun entry : string * JsValue =>
           if includes hidden (fst entry)
           then (fst entry, JStr "***")
           else (fst entry, snd entry)) entries2.
Proof.
  induction 1 as [|e1 e2 l1 l2 [Hk Hv] _ IH]; cbn; [reflexivity|].
  rewrite IH, <- Hk.
  destruct (includes hidden (fst e1)); [reflexivity|].
  now rewrite (Hv eq_refl).
Qed.

(** X24: with a non-empty list of hidden fields, the note of an object or
    array payload does not depend on the values at the hidden keys: two
    payloads with the same keys in the same order and the same values at
    every other key are formatted alike. *)
Theorem hidden_values_never_shown
    (diagramConfiguration : DiagramConfiguration) (hidden : list string)
    (payload1 payload2 : JsValue) :
  hiddenFields diagramConfiguration = Some hidden ->
  hidden <> [] ->
  isStructured payload1 = true ->
  isStructured payload2 = true ->
  agreeOutside hidden (Object_entries payload1) (Object_entries payload2) ->
  formatPayload payload1 diagramConfiguration
    = formatPayload payload2 diagramConfiguration.
Proof.
  intros Hcfg Hne H1 H2 Hagree.
  assert (Hfmt : forall payload, isStructured payload = true ->
            formatPayload payload diagramConfiguration
              = stringify (hideFields payload hidden)).
  { intros payload Hs.
    destruct payload; try discriminate; cbn;
      unfold formatObjectPayload, hideFieldsIfNeeded; rewrite Hcfg; cbn;
      destruct hidden; [congruence | reflexivity | congruence | reflexivity]. }
  rewrite (Hfmt _ H1), (Hfmt _ H2). unfold hideFields.
  now rewrite (hideFields_agree _ _ _ Hagree).
Qed.

(** X25: with [hidePlaintext] set, the note of a string payload does not
    depend on the string. *)
Theorem hidden_plaintext_never_shown
    (diagramConfiguration : DiagramConfiguration) (payload1 payload2 : string) :
  hidePlaintext diagramConfiguration = Some true ->
  formatPayload (JStr payload1) diagramConfiguration
    = formatPayload (JStr payload2) diagramConfiguration.
Proof.
  intros Hcfg. cbn. unfold formatPlaintextPayload, hidePlaintextIfNeeded.
  now rewrite Hcfg.
Qed.

End Format.

(** The helpers of the examples: entries of an object, an object from
    entries, and a text that shows the value at [user] only. *)
Definition fixtureEntries (payload : JsValue) : JsObj JsValue :=
  match payload with JObject fields => fields | _ => [] end.

Definition fixtureStringify (payload : JsValue) : string :=
  match payload with
  | JObject fields =>
      match obj_get "user" fields with Some (JStr s) => s | _ => "" end
  | _ => ""
  end.

Definition fixtureConfiguration : DiagramConfiguration :=
  {| hiddenFields := Some ["password"]; hidePlaintext := Some true |}.

Example hidden_values_never_shown_witness :
  formatPayload fixtureEntries JObject fixtureStringify DiagramDrawing.trim
    (JObject [("user", JStr "alice"); ("password", JStr "secret")])
    fixtureConfiguration
  = formatPayload fixtureEntries JObject fixtureStringify DiagramDrawing.trim
      (JObject [("user", JStr "alice"); ("password", JStr "hunter2")])
      fixtureConfiguration.
Proof.
  apply (hidden_values_never_shown fixtureEntries JObject fixtureStringify
           DiagramDrawing.trim fixtureConfiguration ["password"]);
    try reflexivity; [discriminate|].
  repeat constructor; cbn; discriminate.
Defined.

Example hidden_plaintext_never_shown_witness :
  formatPayload fixtureEntries JObject fixtureStringify DiagramDrawing.trim
    (JStr "secret") fixtureConfiguration
  = formatPayload fixtureEntries JObject fixtureStringify DiagramDrawing.trim
      (JStr "hunter2") fixtureConfiguration.
Proof.
  apply (hidden_plaintext_never_shown fixtureEntries JObject fixtureStringify
           DiagramDrawing.trim fixtureConfiguration).
  reflexivity.
Defined.

End FormatPayload.
